(** * Historical sync service and sync gateway: a shallow embedding

    The TypeScript sources embedded here are
    - [HistoricalSyncService] (sync-historical/service.ts): [buildLogIntervals],
      [enqueueBlockTasks], [_eth_getLogs], the task workers, [setup], [start]
      and the queue's [onError] handler;
    - [SyncGateway] (sync-gateway/service.ts): the per-network checkpoints and
      [recalculateCheckpoint].

    JavaScript numbers that hold block numbers and timestamps are integers and
    are embedded as [Z]; the values [Infinity] and [-Infinity], which
    [Math.min()] and [Math.max()] return on an empty argument list, are kept
    (type [num]).  Objects used as dictionaries are [gmap]s, [Set]s are
    [gset]s, exceptions are the left summand of a sum type. *)

From Stdlib Require Import ZArith String Ascii HexString Lia.
From stdpp Require Import base option list gmap strings sorting.

Set Warnings "-clear-no-such-hyp".

Open Scope string_scope.
Open Scope list_scope.
Open Scope Z_scope.

(** ** Hex quantities (viem) *)

Definition Hex := string.
Definition Hash := string.
Definition Address := string.

(** [Number.MAX_SAFE_INTEGER] is 2^53 - 1. *)
Definition MAX_SAFE_INTEGER : Z := 9007199254740991.

(** viem's [hexToNumber] on a hex quantity ["0x..."]. *)
Definition hexToNumber (h : Hex) : Z := Z.of_N (HexString.to_N h).

(** ** RPC data *)

Record RpcLog := mkRpcLog {
  log_address : Address;
  log_blockNumber : Hex;
  log_transactionHash : Hash;
  log_logIndex : Hex;
}.

(** ** [buildLogIntervals] *)

Record LogInterval := mkLogInterval {
  li_startBlock : Z;
  li_endBlock : Z;
  li_logs : list RpcLog;
  li_transactionHashes : gset Hash;
}.

(** [xs.sort((a, b) => a - b)]. *)
Definition sort_ascending (xs : list Z) : list Z := merge_sort Z.le xs.

(** [Object.keys(o).map(Number)] for an object keyed by block numbers: the
    keys of an object that are array indices (integers from 0 to 2^32 - 2)
    are listed in ascending order. *)
Definition Object_keys {V} (o : gmap Z V) : list Z := sort_ascending (map_to_list o).*1.

(** [Object.values(o)] where the order of the values does not matter. *)
Definition Object_values {K V} `{Countable K} (o : gmap K V) : list V := (map_to_list o).*2.

(** One iteration of the [logs.forEach] callback: the log's transaction hash
    is added to the set at its block number, the log is pushed to the list at
    its block number; a missing entry is created first ([||=]). *)
Definition groupLog (acc : gmap Z (list RpcLog) * gmap Z (gset Hash)) (log : RpcLog)
  : gmap Z (list RpcLog) * gmap Z (gset Hash) :=
  let '(logsByBlockNumber, txHashesByBlockNumber) := acc in
  let blockNumber := hexToNumber (log_blockNumber log) in
  let txHashesByBlockNumber' :=
    <[blockNumber := default ∅ (txHashesByBlockNumber !! blockNumber) ∪ {[log_transactionHash log]}]>
      txHashesByBlockNumber in
  let logsByBlockNumber' :=
    <[blockNumber := default [] (logsByBlockNumber !! blockNumber) ++ [log]]> logsByBlockNumber in
  (logsByBlockNumber', txHashesByBlockNumber').

Definition groupLogs (logs : list RpcLog) : gmap Z (list RpcLog) * gmap Z (gset Hash) :=
  fold_left groupLog logs (∅, ∅).

(** The [for (const blockNumber of requiredBlocks)] loop, [prev] being the
    loop-carried variable. *)
Fixpoint intervalsFrom (logsByBlockNumber : gmap Z (list RpcLog))
    (txHashesByBlockNumber : gmap Z (gset Hash))
    (prev : Z) (requiredBlocks : list Z) : list LogInterval :=
  match requiredBlocks with
  | [] => []
  | blockNumber :: rest =>
      {| li_startBlock := prev;
         li_endBlock := blockNumber;
         li_logs := default [] (logsByBlockNumber !! blockNumber);
         li_transactionHashes := default ∅ (txHashesByBlockNumber !! blockNumber) |}
      :: intervalsFrom logsByBlockNumber txHashesByBlockNumber (blockNumber + 1) rest
  end.

Definition requiredBlocksOf (txHashesByBlockNumber : gmap Z (gset Hash)) (toBlock : Z) : list Z :=
  let requiredBlocks := sort_ascending (Object_keys txHashesByBlockNumber) in
  if bool_decide (toBlock ∈ requiredBlocks) then requiredBlocks
  else requiredBlocks ++ [toBlock].

Definition buildLogIntervals (fromBlock toBlock : Z) (logs : list RpcLog) : list LogInterval :=
  let '(logsByBlockNumber, txHashesByBlockNumber) := groupLogs logs in
  let requiredBlocks := requiredBlocksOf txHashesByBlockNumber toBlock in
  intervalsFrom logsByBlockNumber txHashesByBlockNumber fromBlock requiredBlocks.

(** ** JavaScript numbers and strings *)

(** A JavaScript number as the services use them: an integer, or one of the
    infinities that [Math.min()] and [Math.max()] return when they are given
    no argument. *)
Inductive num :=
| NegInf
| Fin (z : Z)
| PosInf.

#[global] Instance num_eq_dec : EqDecision num.
Proof. solve_decision. Defined.

(** [a < b] on numbers. *)
Definition num_ltb (a b : num) : bool :=
  match a, b with
  | NegInf, NegInf => false
  | NegInf, _ => true
  | Fin _, NegInf => false
  | Fin x, Fin y => bool_decide (x < y)
  | Fin _, PosInf => true
  | PosInf, _ => false
  end.

(** [a <= b] on numbers. *)
Definition num_leb (a b : num) : bool := negb (num_ltb b a).

Definition num_min (a b : num) : num := if num_ltb b a then b else a.
Definition num_max (a b : num) : num := if num_ltb a b then b else a.

(** [Math.min(...xs)]: [Infinity] when [xs] is empty. *)
Definition Math_min (xs : list Z) : num := foldr (λ x acc, num_min (Fin x) acc) PosInf xs.

(** [Math.max(...xs)]: [-Infinity] when [xs] is empty. *)
Definition Math_max (xs : list Z) : num := foldr (λ x acc, num_max (Fin x) acc) NegInf xs.

(** [s.startsWith(p)]. *)
Definition startsWith (s p : string) : bool := String.prefix p s.

(** [s.includes(sub)]. *)
Fixpoint includes (s sub : string) : bool :=
  String.prefix sub s ||
  match s with
  | EmptyString => false
  | String _ s' => includes s' sub
  end.

(** [s.split(sep)] for a non-empty separator [sep]: the pieces between the
    occurrences of [sep], found from left to right.  [skip] counts the
    characters of a matched separator still to be passed over, [cur] holds the
    current piece in reverse. *)
Fixpoint split_aux (sep : string) (skip : nat) (cur : list ascii) (s : string) : list string :=
  match s with
  | EmptyString => [string_of_list_ascii (rev cur)]
  | String c s' =>
      match skip with
      | S k => split_aux sep k cur s'
      | O =>
          if String.prefix sep s
          then string_of_list_ascii (rev cur) :: split_aux sep (String.length sep - 1) [] s'
          else split_aux sep 0 (c :: cur) s'
      end
  end.

Definition split (s sep : string) : list string := split_aux sep 0 [] s.

(** [s.slice(1)]. *)
Definition slice_1 (s : string) : string :=
  String.substring 1 (String.length s - 1) s.

(** [s.slice(0, -k)] for [k > 0]. *)
Definition slice_0_neg (k : nat) (s : string) : string :=
  String.substring 0 (String.length s - k) s.

(** The result of [Number(s)]. *)
Inductive jsnumber :=
| JNaN
| JInt (z : Z).

Definition isWhiteSpace (c : ascii) : bool :=
  let n := nat_of_ascii c in
  bool_decide (n = 32 ∨ n = 9 ∨ n = 10 ∨ n = 11 ∨ n = 12 ∨ n = 13)%nat.

Fixpoint trimStart (cs : list ascii) : list ascii :=
  match cs with
  | c :: cs' => if isWhiteSpace c then trimStart cs' else cs
  | [] => []
  end.

Definition trim (cs : list ascii) : list ascii := rev (trimStart (rev (trimStart cs))).

Definition decimalDigit (c : ascii) : option Z :=
  let n := nat_of_ascii c in
  if bool_decide (48 ≤ n ≤ 57)%nat then Some (Z.of_nat n - 48) else None.

Definition hexDigit (c : ascii) : option Z := Z.of_N <$> HexString.ascii_to_digit c.

(** The value of a non-empty digit string in the given base. *)
Fixpoint digitsValue (digit : ascii → option Z) (base : Z) (acc : Z) (cs : list ascii) : option Z :=
  match cs with
  | [] => Some acc
  | c :: cs' =>
      match digit c with
      | Some d => digitsValue digit base (base * acc + d) cs'
      | None => None
      end
  end.

Definition digitsNumber (digit : ascii → option Z) (base : Z) (cs : list ascii) : jsnumber :=
  match cs with
  | [] => JNaN
  | _ => match digitsValue digit base 0 cs with Some z => JInt z | None => JNaN end
  end.

Definition negate (n : jsnumber) : jsnumber :=
  match n with JInt z => JInt (- z) | JNaN => JNaN end.

(** [Number(s)] on the strings this service applies it to: surrounding white
    space is dropped; the empty string is 0; an optionally signed string of
    decimal digits and an unsigned ["0x"] string of hex digits are their
    value; anything else is [NaN].  Numeric literals with a fraction or an
    exponent, [Infinity], binary and octal forms, and magnitudes above
    [MAX_SAFE_INTEGER] (where a double is no longer exact) are not given their
    JavaScript value by this definition; no result below relies on them. *)
Definition Number_ (s : string) : jsnumber :=
  match trim (list_ascii_of_string s) with
  | [] => JInt 0
  | "0"%char :: "x"%char :: cs | "0"%char :: "X"%char :: cs => digitsNumber hexDigit 16 cs
  | "-"%char :: cs => negate (digitsNumber decimalDigit 10 cs)
  | "+"%char :: cs => digitsNumber decimalDigit 10 cs
  | cs => digitsNumber decimalDigit 10 cs
  end.

(** ** Exceptions *)

Inductive ErrorClass :=
| InvalidParamsRpcError
| LimitExceededRpcError
| HttpRequestError
| OtherRpcError.

#[global] Instance ErrorClass_eq_dec : EqDecision ErrorClass.
Proof. solve_decision. Defined.

(** An error thrown by the RPC client: its class (what [instanceof] tests) and
    its [details] string. *)
Record RpcError := mkRpcError {
  err_class : ErrorClass;
  err_details : string;
}.

Inductive Exn :=
| ExnRpc (e : RpcError)          (* an error of the RPC client, rethrown *)
| ExnTypeError                   (* a property read on [undefined] *)
| ExnToHex                       (* viem's [toHex] refusing its argument *)
| ExnBlockNotFound (blockNumber : Z)
| ExnInvalidRange.               (* thrown by [validateHistoricalBlockRange] *)

(** viem's [toHex] on a number ([numberToHex] without a size): the hex
    quantity of an integer between 0 and [MAX_SAFE_INTEGER]; it throws on
    [NaN] and outside that range. *)
Definition toHex (n : jsnumber) : Exn + Hex :=
  match n with
  | JInt z =>
      if bool_decide (0 ≤ z ≤ MAX_SAFE_INTEGER) then inr (HexString.of_N (Z.to_N z))
      else inl ExnToHex
  | JNaN => inl ExnToHex
  end.

Definition hexOfNibble (n : N) : ascii :=
  match HexString.of_N n with
  | String _ (String _ (String c _)) => c
  | _ => "0"%char
  end.

(** viem's [toHex] on a string ([stringToHex]): the bytes of the string, two
    hex digits each. *)
Definition stringToHex (s : string) : Hex :=
  String "0" (String "x"
    (string_of_list_ascii
       (flat_map (λ c, let n := N_of_ascii c in [hexOfNibble (n / 16); hexOfNibble (n mod 16)])
                 (list_ascii_of_string s)))).

(** ** Block intervals and progress trackers (utils/interval) *)

(** A closed block range [[from, to]]. *)
Definition Interval : Type := Z * Z.

(** Modelled from the spec: [intervalSum] of utils/interval, which is not
    among the sources; "sum(A): the sum of (b - a + 1)". *)
Definition intervalSum (intervals : list Interval) : Z :=
  foldr (λ '(a, b) acc, (b - a + 1) + acc) 0 intervals.

(** Modelled from the spec: the order in which [intervalUnion] sorts, by the
    start of the interval. *)
Definition interval_start_le (i j : Interval) : Prop := i.1 ≤ j.1.

#[global] Instance interval_start_le_dec : RelDecision interval_start_le.
Proof. intros i j. unfold interval_start_le. apply _. Defined.

(** Modelled from the spec: the coalescing step of [intervalUnion]; the
    intervals are sorted by start, and the overlapping and adjacent ones are
    merged into [cur]. *)
Fixpoint coalesce (cur : Interval) (rest : list Interval) : list Interval :=
  match rest with
  | [] => [cur]
  | i :: rest' =>
      if bool_decide (i.1 ≤ cur.2 + 1)
      then coalesce (cur.1, Z.max cur.2 i.2) rest'
      else cur :: coalesce i rest'
  end.

(** Modelled from the spec: [intervalUnion] of utils/interval, which is not
    among the sources; "merge-sort endpoints, coalesce overlaps and
    adjacencies ([1,3] u [4,6] = [1,6])". *)
Definition intervalUnion (intervals : list Interval) : list Interval :=
  match merge_sort interval_start_le intervals with
  | [] => []
  | i :: rest => coalesce i rest
  end.

(** Modelled from the spec: the step of [intervalDifference] for one interval
    of each list; what is left of the interval [a] once [b] is taken out of
    it. *)
Definition intervalMinus (a b : Interval) : list Interval :=
  if bool_decide (b.2 < a.1 ∨ a.2 < b.1) then [a]
  else (if bool_decide (a.1 < b.1) then [(a.1, b.1 - 1)] else [])
       ++ (if bool_decide (b.2 < a.2) then [(b.2 + 1, a.2)] else []).

(** Modelled from the spec: [intervalDifference] of utils/interval, which is
    not among the sources; "difference(A, B): subtract B's coverage from A,
    preserving sort and non-overlap". *)
Definition intervalDifference (initial remove : list Interval) : list Interval :=
  fold_left (λ acc b, flat_map (λ a, intervalMinus a b) acc) remove initial.

(** Modelled from the spec: the chunks that [getChunks] cuts out of one
    interval [[fromBlock, endBlock]], first one first; [fuel] bounds their
    number. *)
Fixpoint chunksOf (fuel : nat) (maxChunkSize fromBlock endBlock : Z) : list Interval :=
  match fuel with
  | O => []
  | S fuel' =>
      if bool_decide (fromBlock ≤ endBlock) then
        let toBlock := Z.min (fromBlock + maxChunkSize - 1) endBlock in
        (fromBlock, toBlock) :: chunksOf fuel' maxChunkSize (toBlock + 1) endBlock
      else []
  end.

(** Modelled from the spec: [getChunks] of utils/interval, which is not among
    the sources; "chunks(A, maxWidth): produce [[a0,b0], ...] covering A such
    that each bi - ai + 1 <= maxWidth; split only by width, do not merge
    across original gaps".  Each interval is cut from its start into chunks of
    full width, the last one taking the rest (scenario S1: [100,199] by 50 is
    [100,149], [150,199]).  A chunk holds at least one block when
    [maxChunkSize] is positive, so an interval of [n] blocks has at most [n]
    chunks. *)
Definition getChunks (intervals : list Interval) (maxChunkSize : Z) : list Interval :=
  flat_map (λ '(startBlock, endBlock),
              chunksOf (Z.to_nat (endBlock - startBlock + 1)) maxChunkSize startBlock endBlock)
           intervals.

(** Modelled from the spec: the clipping done by [ProgressTracker]; the part
    of [i] inside [target], if any. *)
Definition clipTo (target i : Interval) : list Interval :=
  let lo := Z.max target.1 i.1 in
  let hi := Z.min target.2 i.2 in
  if bool_decide (lo ≤ hi) then [(lo, hi)] else [].

(** Modelled from the spec: the range tracker [ProgressTracker] of
    utils/interval, which is not among the sources; its state is
    "{ target: [s,e], completed: intervals }". *)
Record ProgressTracker := mkProgressTracker {
  pt_target : Interval;
  pt_completed : list Interval;
}.

(** Modelled from the spec: [new ProgressTracker({target, completed})];
    "assumes initialCompleted is inside target after clipping; clips
    out-of-range". *)
Definition newProgressTracker (target : Interval) (completed : list Interval) : ProgressTracker :=
  {| pt_target := target;
     pt_completed := intervalUnion (flat_map (clipTo target) completed) |}.

(** Modelled from the spec: [ProgressTracker.getCheckpoint]; "largest B such
    that [target.start, B] is fully completed; if nothing from target.start
    is completed, returns target.start - 1". *)
Definition getCheckpoint (t : ProgressTracker) : Z :=
  let s := (pt_target t).1 in
  match List.find (λ i : Interval, bool_decide (i.1 ≤ s ≤ i.2)) (pt_completed t) with
  | Some i => i.2
  | None => s - 1
  end.

(** Modelled from the spec: [ProgressTracker.getRequired];
    "difference([target], completed)". *)
Definition getRequired (t : ProgressTracker) : list Interval :=
  intervalDifference [pt_target t] (pt_completed t).

(** Modelled from the spec: what [ProgressTracker.addCompletedInterval]
    returns, "{ isUpdated, prevCheckpoint, newCheckpoint }". *)
Record CompletedIntervalResult := mkCompletedIntervalResult {
  isUpdated : bool;
  prevCheckpoint : Z;
  newCheckpoint : Z;
}.

(** Modelled from the spec: [ProgressTracker.addCompletedInterval];
    "intersects with target, unions into completed, recomputes checkpoint;
    returns {isUpdated: newCheckpoint > prevCheckpoint, prevCheckpoint,
    newCheckpoint}".  The tracker is updated in place: the new tracker is
    returned with the result. *)
Definition addCompletedInterval (t : ProgressTracker) (interval : Interval)
  : ProgressTracker * CompletedIntervalResult :=
  let prev := getCheckpoint t in
  let t' := {| pt_target := pt_target t;
               pt_completed := intervalUnion (pt_completed t ++ clipTo (pt_target t) interval) |} in
  let new := getCheckpoint t' in
  (t', {| isUpdated := bool_decide (prev < new); prevCheckpoint := prev; newCheckpoint := new |}).

(** Modelled from the spec: the block tracker [BlockProgressTracker] of
    utils/interval, which is not among the sources; its state is "{ pending:
    sorted block numbers, completed: map number -> timestamp, lastCheckpoint:
    {number, ts}? }". *)
Record BlockProgressTracker := mkBlockProgressTracker {
  bpt_pending : list Z;
  bpt_completed : gmap Z Z;
  bpt_checkpoint : option (Z * Z);
}.

(** Modelled from the spec: [new BlockProgressTracker()], with nothing
    pending and nothing completed. *)
Definition newBlockProgressTracker : BlockProgressTracker :=
  {| bpt_pending := []; bpt_completed := ∅; bpt_checkpoint := None |}.

(** Modelled from the spec: [BlockProgressTracker.addPendingBlocks]; "merges
    into sorted pending". *)
Definition addPendingBlocks (t : BlockProgressTracker) (blockNumbers : list Z)
  : BlockProgressTracker :=
  {| bpt_pending := merge_sort Z.le (bpt_pending t ++ blockNumbers);
     bpt_completed := bpt_completed t;
     bpt_checkpoint := bpt_checkpoint t |}.

(** Modelled from the spec: the loop of [addCompletedBlock]; the smallest
    pending numbers that have a stored completion are popped, [last] is the
    last popped pair. *)
Fixpoint popCompleted (completed : gmap Z Z) (pending : list Z) (last : option (Z * Z))
  : list Z * option (Z * Z) :=
  match pending with
  | [] => ([], last)
  | n :: rest =>
      match completed !! n with
      | Some ts => popCompleted completed rest (Some (n, ts))
      | None => (pending, last)
      end
  end.

(** Modelled from the spec: [BlockProgressTracker.addCompletedBlock]; "stores
    (n, ts); then repeatedly pops the smallest pending if it has a stored
    completion; the checkpoint is the last popped pair.  Returns the new
    checkpoint iff it advanced this call". *)
Definition addCompletedBlock (t : BlockProgressTracker) (blockNumber blockTimestamp : Z)
  : BlockProgressTracker * option (Z * Z) :=
  let completed := <[blockNumber := blockTimestamp]> (bpt_completed t) in
  let '(pending, popped) := popCompleted completed (bpt_pending t) None in
  match popped with
  | Some checkpoint =>
      ({| bpt_pending := pending; bpt_completed := completed;
          bpt_checkpoint := Some checkpoint |}, Some checkpoint)
  | None =>
      ({| bpt_pending := pending; bpt_completed := completed;
          bpt_checkpoint := bpt_checkpoint t |}, None)
  end.

(** ** The task queue (utils/queue) *)

Section Queue.

Context {T : Type}.

(** Modelled from the spec: a task as the queue of utils/queue holds it, with
    its "priority integer (larger runs first)" and its [retry] option. *)
Record QueueEntry := mkQueueEntry {
  qe_task : T;
  qe_priority : Z;
  qe_retry : bool;
}.

(** Modelled from the spec: the queue that [createQueue] of utils/queue
    builds, which is not among the sources: "a priority queue [...] with
    operations addTask(task, {priority, retry?}), start, pause, clear (drops
    queued, leaves running), size (queued), pending (running)".  [q_queued]
    is in insertion order. *)
Record Queue := mkQueue {
  q_queued : list QueueEntry;
  q_pending : nat;
  q_started : bool;
}.

(** Modelled from the spec: [createQueue({..., options: {autoStart: false}})],
    a queue with no task that is not started. *)
Definition createQueue : Queue :=
  {| q_queued := []; q_pending := 0; q_started := false |}.

(** Modelled from the spec: [queue.addTask(task, {priority, retry})]; a
    missing [retry] is [false]. *)
Definition addTask (q : Queue) (task : T) (priority : Z) (retry : bool) : Queue :=
  {| q_queued := q_queued q ++ [ {| qe_task := task; qe_priority := priority; qe_retry := retry |} ];
     q_pending := q_pending q;
     q_started := q_started q |}.

(** Modelled from the spec: [queue.size], the number of queued tasks. *)
Definition size_ (q : Queue) : nat := length (q_queued q).

(** Modelled from the spec: [queue.start()]. *)
Definition start_ (q : Queue) : Queue :=
  {| q_queued := q_queued q; q_pending := q_pending q; q_started := true |}.

(** Modelled from the spec: [queue.pause()]. *)
Definition pause (q : Queue) : Queue :=
  {| q_queued := q_queued q; q_pending := q_pending q; q_started := false |}.

(** Modelled from the spec: [queue.clear()], which "drops queued, leaves
    running". *)
Definition clear (q : Queue) : Queue :=
  {| q_queued := []; q_pending := q_pending q; q_started := q_started q |}.

(** Modelled from the spec: the entry the queue runs next, "strictly highest
    priority first, ties broken by insertion order".  Returns it with the
    entries left. *)
Fixpoint takeNext (entries : list QueueEntry) : option (QueueEntry * list QueueEntry) :=
  match entries with
  | [] => None
  | e :: rest =>
      match takeNext rest with
      | Some (best, rest') =>
          if bool_decide (qe_priority e < qe_priority best)
          then Some (best, e :: rest')
          else Some (e, rest)
      | None => Some (e, [])
      end
  end.

End Queue.

Arguments QueueEntry : clear implicits.
Arguments Queue : clear implicits.

(** ** Event sources and the network (config) *)

Inductive AddressCriteria :=
| OneAddress (a : Address)
| Addresses (l : list Address).

(** A topic position of a filter: [null], one topic, or a list of topics. *)
Inductive TopicCriteria :=
| AnyTopic
| OneTopic (t : Hex)
| Topics (l : list Hex).

Record LogFilterCriteria := mkLogFilterCriteria {
  lfc_address : option AddressCriteria;
  lfc_topics : option (list TopicCriteria);
}.

Record FactoryCriteria := mkFactoryCriteria {
  fc_address : Address;
  fc_eventSelector : Hex;
  fc_childAddressLocation : string;
  fc_topics : option (list TopicCriteria);
}.

Record LogFilter := mkLogFilter {
  lf_name : string;
  lf_chainId : Z;
  lf_criteria : LogFilterCriteria;
  lf_startBlock : Z;
  lf_endBlock : option Z;
  lf_maxBlockRange : option Z;
}.

Record Factory := mkFactory {
  f_name : string;
  f_chainId : Z;
  f_criteria : FactoryCriteria;
  f_startBlock : Z;
  f_endBlock : option Z;
  f_maxBlockRange : option Z;
}.

Inductive Source :=
| LogFilterSource (logFilter : LogFilter)
| FactorySource (factory : Factory).

(** ** The RPC client *)

Record GetLogsOptions := mkGetLogsOptions {
  opt_address : option AddressCriteria;
  opt_topics : option (list TopicCriteria);
  opt_fromBlock : Hex;
  opt_toBlock : Hex;
}.

Inductive RpcRequest :=
| Eth_getLogs (options : GetLogsOptions)
| Eth_getBlockByNumber (blockNumber : Hex) (includeTransactions : bool).

Record RpcTransaction := mkRpcTransaction {
  tx_hash : Hash;
}.

Record RpcBlock := mkRpcBlock {
  block_number : Hex;
  block_timestamp : Hex;
  block_transactions : list RpcTransaction;
}.

(** [network.client.request]: what the node answers to a request, given the
    requests made before it.  An answer is the result, or the error the
    client throws. *)
Record RpcClient := mkRpcClient {
  request_getLogs : list RpcRequest → GetLogsOptions → RpcError + list RpcLog;
  request_getBlockByNumber : list RpcRequest → Hex → RpcError + option RpcBlock;
}.

Record Network := mkNetwork {
  net_name : string;
  net_chainId : Z;
  net_client : RpcClient;
  defaultMaxBlockRange : Z;
  maxRpcRequestConcurrency : Z;
}.

(** ** The event store *)

Inductive StoreWrite :=
| InsertFactoryChildAddressLogs (chainId : Z) (logs : list RpcLog)
| InsertLogFilterInterval (chainId : Z) (block : RpcBlock) (transactions : list RpcTransaction)
    (logs : list RpcLog) (logFilter : LogFilterCriteria) (interval : Interval)
| InsertFactoryLogFilterInterval (chainId : Z) (factory : FactoryCriteria) (block : RpcBlock)
    (transactions : list RpcTransaction) (logs : list RpcLog) (interval : Interval).

(** The reads of the event store.  The intervals are read by the callbacks of
    [setup], before the service writes anything; the child addresses are read
    by the workers and depend on what has been written. *)
Record EventStore := mkEventStore {
  getLogFilterIntervals : Z → LogFilterCriteria → list Interval;
  getFactoryLogFilterIntervals : Z → FactoryCriteria → list Interval;
  getFactoryChildAddresses : list StoreWrite → Z → FactoryCriteria → Z → list (list Address);
}.

(** ** Tasks *)

(** The closures pushed to [blockCallbacks], by the worker that creates them,
    with what they capture. *)
Inductive BlockCallback :=
| LogFilterCallback (logFilter : LogFilter) (logInterval : LogInterval)
| FactoryChildAddressCallback (factory : Factory) (logInterval : LogInterval)
| FactoryLogFilterCallback (factory : Factory) (logInterval : LogInterval).

Inductive HistoricalSyncTask :=
| LOG_FILTER (logFilter : LogFilter) (fromBlock toBlock : Z)
| FACTORY_CHILD_ADDRESS (factory : Factory) (fromBlock toBlock : Z)
| FACTORY_LOG_FILTER (factory : Factory) (fromBlock toBlock : Z)
| BLOCK (blockNumber : Z) (callbacks : list BlockCallback).

(** The events of the service.  The [blockNumber] of a checkpoint is [None]
    where the source passes a [finalizedBlockNumber] that is still [null]. *)
Inductive HistoricalSyncEvent :=
| syncComplete
| historicalCheckpoint (blockNumber : option Z) (blockTimestamp : Z).

(** What the service does to the outside, in order: the events it emits, the
    warnings it logs and the start of its queue. *)
Inductive Effect :=
| Emit (e : HistoricalSyncEvent)
| Warn (eventSource : string)
| QueueStarted.

Inductive KillFunction :=
| ClearUpdateLogInterval.

(** The gauges and the counter of the service, by their [eventSource] label. *)
Record Metrics := mkMetrics {
  ponder_historical_total_blocks : gmap string Z;
  ponder_historical_cached_blocks : gmap string Z;
  ponder_historical_completed_blocks : gmap string Z;
}.

(** ** The service *)

(** The fields of [HistoricalSyncService], followed by the record of what it
    did to the outside: the requests made to the node, the writes made to the
    event store, the events emitted and the metrics. *)
Record Service := mkService {
  network : Network;
  sources : list Source;
  eventStore : EventStore;
  finalizedBlockNumber : option Z;
  logFilterProgressTrackers : gmap string ProgressTracker;
  factoryChildAddressProgressTrackers : gmap string ProgressTracker;
  factoryLogFilterProgressTrackers : gmap string ProgressTracker;
  blockProgressTracker : BlockProgressTracker;
  blockCallbacks : gmap Z (list BlockCallback);
  blockTasksEnqueuedCheckpoint : num;
  queue : Queue HistoricalSyncTask;
  startTimestamp : option Z;
  killFunctions : list KillFunction;
  rpcHistory : list RpcRequest;
  storeWrites : list StoreWrite;
  effects : list Effect;
  metrics : Metrics;
}.

Definition set_finalizedBlockNumber (v : option Z) (s : Service) : Service :=
  {| network := network s; sources := sources s; eventStore := eventStore s;
     finalizedBlockNumber := v; logFilterProgressTrackers := logFilterProgressTrackers s;
     factoryChildAddressProgressTrackers := factoryChildAddressProgressTrackers s;
     factoryLogFilterProgressTrackers := factoryLogFilterProgressTrackers s;
     blockProgressTracker := blockProgressTracker s; blockCallbacks := blockCallbacks s;
     blockTasksEnqueuedCheckpoint := blockTasksEnqueuedCheckpoint s; queue := queue s;
     startTimestamp := startTimestamp s; killFunctions := killFunctions s; rpcHistory :=
     rpcHistory s; storeWrites := storeWrites s; effects := effects s; metrics := metrics s |}.

Definition set_logFilterProgressTrackers (v : gmap string ProgressTracker) (s : Service) : Service :=
  {| network := network s; sources := sources s; eventStore := eventStore s;
     finalizedBlockNumber := finalizedBlockNumber s; logFilterProgressTrackers := v;
     factoryChildAddressProgressTrackers := factoryChildAddressProgressTrackers s;
     factoryLogFilterProgressTrackers := factoryLogFilterProgressTrackers s;
     blockProgressTracker := blockProgressTracker s; blockCallbacks := blockCallbacks s;
     blockTasksEnqueuedCheckpoint := blockTasksEnqueuedCheckpoint s; queue := queue s;
     startTimestamp := startTimestamp s; killFunctions := killFunctions s; rpcHistory :=
     rpcHistory s; storeWrites := storeWrites s; effects := effects s; metrics := metrics s |}.

Definition set_factoryChildAddressProgressTrackers (v : gmap string ProgressTracker) (s : Service) : Service :=
  {| network := network s; sources := sources s; eventStore := eventStore s;
     finalizedBlockNumber := finalizedBlockNumber s; logFilterProgressTrackers :=
     logFilterProgressTrackers s; factoryChildAddressProgressTrackers := v;
     factoryLogFilterProgressTrackers := factoryLogFilterProgressTrackers s;
     blockProgressTracker := blockProgressTracker s; blockCallbacks := blockCallbacks s;
     blockTasksEnqueuedCheckpoint := blockTasksEnqueuedCheckpoint s; queue := queue s;
     startTimestamp := startTimestamp s; killFunctions := killFunctions s; rpcHistory :=
     rpcHistory s; storeWrites := storeWrites s; effects := effects s; metrics := metrics s |}.

Definition set_factoryLogFilterProgressTrackers (v : gmap string ProgressTracker) (s : Service) : Service :=
  {| network := network s; sources := sources s; eventStore := eventStore s;
     finalizedBlockNumber := finalizedBlockNumber s; logFilterProgressTrackers :=
     logFilterProgressTrackers s; factoryChildAddressProgressTrackers :=
     factoryChildAddressProgressTrackers s; factoryLogFilterProgressTrackers := v;
     blockProgressTracker := blockProgressTracker s; blockCallbacks := blockCallbacks s;
     blockTasksEnqueuedCheckpoint := blockTasksEnqueuedCheckpoint s; queue := queue s;
     startTimestamp := startTimestamp s; killFunctions := killFunctions s; rpcHistory :=
     rpcHistory s; storeWrites := storeWrites s; effects := effects s; metrics := metrics s |}.

Definition set_blockProgressTracker (v : BlockProgressTracker) (s : Service) : Service :=
  {| network := network s; sources := sources s; eventStore := eventStore s;
     finalizedBlockNumber := finalizedBlockNumber s; logFilterProgressTrackers :=
     logFilterProgressTrackers s; factoryChildAddressProgressTrackers :=
     factoryChildAddressProgressTrackers s; factoryLogFilterProgressTrackers :=
     factoryLogFilterProgressTrackers s; blockProgressTracker := v; blockCallbacks :=
     blockCallbacks s; blockTasksEnqueuedCheckpoint := blockTasksEnqueuedCheckpoint s; queue
     := queue s; startTimestamp := startTimestamp s; killFunctions := killFunctions s;
     rpcHistory := rpcHistory s; storeWrites := storeWrites s; effects := effects s; metrics
     := metrics s |}.

Definition set_blockCallbacks (v : gmap Z (list BlockCallback)) (s : Service) : Service :=
  {| network := network s; sources := sources s; eventStore := eventStore s;
     finalizedBlockNumber := finalizedBlockNumber s; logFilterProgressTrackers :=
     logFilterProgressTrackers s; factoryChildAddressProgressTrackers :=
     factoryChildAddressProgressTrackers s; factoryLogFilterProgressTrackers :=
     factoryLogFilterProgressTrackers s; blockProgressTracker := blockProgressTracker s;
     blockCallbacks := v; blockTasksEnqueuedCheckpoint := blockTasksEnqueuedCheckpoint s;
     queue := queue s; startTimestamp := startTimestamp s; killFunctions := killFunctions s;
     rpcHistory := rpcHistory s; storeWrites := storeWrites s; effects := effects s; metrics
     := metrics s |}.

Definition set_blockTasksEnqueuedCheckpoint (v : num) (s : Service) : Service :=
  {| network := network s; sources := sources s; eventStore := eventStore s;
     finalizedBlockNumber := finalizedBlockNumber s; logFilterProgressTrackers :=
     logFilterProgressTrackers s; factoryChildAddressProgressTrackers :=
     factoryChildAddressProgressTrackers s; factoryLogFilterProgressTrackers :=
     factoryLogFilterProgressTrackers s; blockProgressTracker := blockProgressTracker s;
     blockCallbacks := blockCallbacks s; blockTasksEnqueuedCheckpoint := v; queue := queue
     s; startTimestamp := startTimestamp s; killFunctions := killFunctions s; rpcHistory :=
     rpcHistory s; storeWrites := storeWrites s; effects := effects s; metrics := metrics s |}.

Definition set_queue (v : Queue HistoricalSyncTask) (s : Service) : Service :=
  {| network := network s; sources := sources s; eventStore := eventStore s;
     finalizedBlockNumber := finalizedBlockNumber s; logFilterProgressTrackers :=
     logFilterProgressTrackers s; factoryChildAddressProgressTrackers :=
     factoryChildAddressProgressTrackers s; factoryLogFilterProgressTrackers :=
     factoryLogFilterProgressTrackers s; blockProgressTracker := blockProgressTracker s;
     blockCallbacks := blockCallbacks s; blockTasksEnqueuedCheckpoint :=
     blockTasksEnqueuedCheckpoint s; queue := v; startTimestamp := startTimestamp s;
     killFunctions := killFunctions s; rpcHistory := rpcHistory s; storeWrites :=
     storeWrites s; effects := effects s; metrics := metrics s |}.

Definition set_startTimestamp (v : option Z) (s : Service) : Service :=
  {| network := network s; sources := sources s; eventStore := eventStore s;
     finalizedBlockNumber := finalizedBlockNumber s; logFilterProgressTrackers :=
     logFilterProgressTrackers s; factoryChildAddressProgressTrackers :=
     factoryChildAddressProgressTrackers s; factoryLogFilterProgressTrackers :=
     factoryLogFilterProgressTrackers s; blockProgressTracker := blockProgressTracker s;
     blockCallbacks := blockCallbacks s; blockTasksEnqueuedCheckpoint :=
     blockTasksEnqueuedCheckpoint s; queue := queue s; startTimestamp := v; killFunctions :=
     killFunctions s; rpcHistory := rpcHistory s; storeWrites := storeWrites s; effects :=
     effects s; metrics := metrics s |}.

Definition set_killFunctions (v : list KillFunction) (s : Service) : Service :=
  {| network := network s; sources := sources s; eventStore := eventStore s;
     finalizedBlockNumber := finalizedBlockNumber s; logFilterProgressTrackers :=
     logFilterProgressTrackers s; factoryChildAddressProgressTrackers :=
     factoryChildAddressProgressTrackers s; factoryLogFilterProgressTrackers :=
     factoryLogFilterProgressTrackers s; blockProgressTracker := blockProgressTracker s;
     blockCallbacks := blockCallbacks s; blockTasksEnqueuedCheckpoint :=
     blockTasksEnqueuedCheckpoint s; queue := queue s; startTimestamp := startTimestamp s;
     killFunctions := v; rpcHistory := rpcHistory s; storeWrites := storeWrites s; effects
     := effects s; metrics := metrics s |}.

Definition set_rpcHistory (v : list RpcRequest) (s : Service) : Service :=
  {| network := network s; sources := sources s; eventStore := eventStore s;
     finalizedBlockNumber := finalizedBlockNumber s; logFilterProgressTrackers :=
     logFilterProgressTrackers s; factoryChildAddressProgressTrackers :=
     factoryChildAddressProgressTrackers s; factoryLogFilterProgressTrackers :=
     factoryLogFilterProgressTrackers s; blockProgressTracker := blockProgressTracker s;
     blockCallbacks := blockCallbacks s; blockTasksEnqueuedCheckpoint :=
     blockTasksEnqueuedCheckpoint s; queue := queue s; startTimestamp := startTimestamp s;
     killFunctions := killFunctions s; rpcHistory := v; storeWrites := storeWrites s;
     effects := effects s; metrics := metrics s |}.

Definition set_storeWrites (v : list StoreWrite) (s : Service) : Service :=
  {| network := network s; sources := sources s; eventStore := eventStore s;
     finalizedBlockNumber := finalizedBlockNumber s; logFilterProgressTrackers :=
     logFilterProgressTrackers s; factoryChildAddressProgressTrackers :=
     factoryChildAddressProgressTrackers s; factoryLogFilterProgressTrackers :=
     factoryLogFilterProgressTrackers s; blockProgressTracker := blockProgressTracker s;
     blockCallbacks := blockCallbacks s; blockTasksEnqueuedCheckpoint :=
     blockTasksEnqueuedCheckpoint s; queue := queue s; startTimestamp := startTimestamp s;
     killFunctions := killFunctions s; rpcHistory := rpcHistory s; storeWrites := v; effects
     := effects s; metrics := metrics s |}.

Definition set_effects (v : list Effect) (s : Service) : Service :=
  {| network := network s; sources := sources s; eventStore := eventStore s;
     finalizedBlockNumber := finalizedBlockNumber s; logFilterProgressTrackers :=
     logFilterProgressTrackers s; factoryChildAddressProgressTrackers :=
     factoryChildAddressProgressTrackers s; factoryLogFilterProgressTrackers :=
     factoryLogFilterProgressTrackers s; blockProgressTracker := blockProgressTracker s;
     blockCallbacks := blockCallbacks s; blockTasksEnqueuedCheckpoint :=
     blockTasksEnqueuedCheckpoint s; queue := queue s; startTimestamp := startTimestamp s;
     killFunctions := killFunctions s; rpcHistory := rpcHistory s; storeWrites :=
     storeWrites s; effects := v; metrics := metrics s |}.

Definition set_metrics (v : Metrics) (s : Service) : Service :=
  {| network := network s; sources := sources s; eventStore := eventStore s;
     finalizedBlockNumber := finalizedBlockNumber s; logFilterProgressTrackers :=
     logFilterProgressTrackers s; factoryChildAddressProgressTrackers :=
     factoryChildAddressProgressTrackers s; factoryLogFilterProgressTrackers :=
     factoryLogFilterProgressTrackers s; blockProgressTracker := blockProgressTracker s;
     blockCallbacks := blockCallbacks s; blockTasksEnqueuedCheckpoint :=
     blockTasksEnqueuedCheckpoint s; queue := queue s; startTimestamp := startTimestamp s;
     killFunctions := killFunctions s; rpcHistory := rpcHistory s; storeWrites :=
     storeWrites s; effects := effects s; metrics := v |}.

(** [gauge.set({eventSource}, value)] and [counter.inc({eventSource}, value)] *)
Definition gauge_set (eventSource : string) (value : Z) (m : gmap string Z) : gmap string Z :=
  <[eventSource := value]> m.

Definition counter_inc (eventSource : string) (value : Z) (m : gmap string Z) : gmap string Z :=
  <[eventSource := default 0 (m !! eventSource) + value]> m.

Definition set_total_blocks (eventSource : string) (value : Z) (s : Service) : Service :=
  set_metrics
    {| ponder_historical_total_blocks :=
         gauge_set eventSource value (ponder_historical_total_blocks (metrics s));
       ponder_historical_cached_blocks := ponder_historical_cached_blocks (metrics s);
       ponder_historical_completed_blocks := ponder_historical_completed_blocks (metrics s) |} s.

Definition set_cached_blocks (eventSource : string) (value : Z) (s : Service) : Service :=
  set_metrics
    {| ponder_historical_total_blocks := ponder_historical_total_blocks (metrics s);
       ponder_historical_cached_blocks :=
         gauge_set eventSource value (ponder_historical_cached_blocks (metrics s));
       ponder_historical_completed_blocks := ponder_historical_completed_blocks (metrics s) |} s.

Definition inc_completed_blocks (eventSource : string) (value : Z) (s : Service) : Service :=
  set_metrics
    {| ponder_historical_total_blocks := ponder_historical_total_blocks (metrics s);
       ponder_historical_cached_blocks := ponder_historical_cached_blocks (metrics s);
       ponder_historical_completed_blocks :=
         counter_inc eventSource value (ponder_historical_completed_blocks (metrics s)) |} s.

(** [this.emit(event)] *)
Definition emit (e : HistoricalSyncEvent) (s : Service) : Service :=
  set_effects (effects s ++ [Emit e]) s.

(** [this.queue.addTask(task, {priority, retry})] *)
Definition queue_addTask (task : HistoricalSyncTask) (priority : Z) (retry : bool)
    (s : Service) : Service :=
  set_queue (addTask (queue s) task priority retry) s.

(** The constructor. *)
Definition newHistoricalSyncService (network : Network) (eventStore : EventStore)
    (sources : list Source) : Service :=
  {| network := network;
     sources := sources;
     eventStore := eventStore;
     finalizedBlockNumber := None;
     logFilterProgressTrackers := ∅;
     factoryChildAddressProgressTrackers := ∅;
     factoryLogFilterProgressTrackers := ∅;
     blockProgressTracker := newBlockProgressTracker;
     blockCallbacks := ∅;
     blockTasksEnqueuedCheckpoint := Fin 0;
     queue := createQueue;
     startTimestamp := None;
     killFunctions := [];
     rpcHistory := [];
     storeWrites := [];
     effects := [];
     metrics := {| ponder_historical_total_blocks := ∅;
                   ponder_historical_cached_blocks := ∅;
                   ponder_historical_completed_blocks := ∅ |} |}.

(** ** [enqueueBlockTasks] *)

(** [Math.min] over the checkpoints of the trackers of the three kinds. *)
Definition blockTasksCanBeEnqueuedTo (s : Service) : num :=
  Math_min ((getCheckpoint <$> Object_values (logFilterProgressTrackers s))
            ++ (getCheckpoint <$> Object_values (factoryChildAddressProgressTrackers s))
            ++ (getCheckpoint <$> Object_values (factoryLogFilterProgressTrackers s))).

(** The body of [for (const blockNumber of newBlocks)]. *)
Definition enqueueBlockTask (s : Service) (blockNumber : Z) : Service :=
  let s1 :=
    queue_addTask (BLOCK blockNumber (default [] (blockCallbacks s !! blockNumber)))
                  (MAX_SAFE_INTEGER - blockNumber) false s in
  set_blockCallbacks (delete blockNumber (blockCallbacks s1)) s1.

Definition enqueueBlockTasks (s : Service) : Service :=
  let canBeEnqueuedTo := blockTasksCanBeEnqueuedTo s in
  if num_ltb (blockTasksEnqueuedCheckpoint s) canBeEnqueuedTo then
    let newBlocks :=
      List.filter (λ blockNumber, num_leb (Fin blockNumber) canBeEnqueuedTo)
                  (Object_keys (blockCallbacks s)) in
    let s1 := set_blockProgressTracker (addPendingBlocks (blockProgressTracker s) newBlocks) s in
    let s2 := fold_left enqueueBlockTask newBlocks s1 in
    set_blockTasksEnqueuedCheckpoint canBeEnqueuedTo s2
  else s.

(** ** [_eth_getLogs] *)

(** [n + 1] on the result of [Number]. *)
Definition js_succ (n : jsnumber) : jsnumber :=
  match n with JInt z => JInt (z + 1) | JNaN => JNaN end.

(** The range that the two first branches read out of [error.details]:
<<
  const safe = error.details.split(marker)[1];
  const safeStart = Number(safe.split(", ")[0].slice(1));
  const safeEnd = Number(safe.split(", ")[1].slice(0, -suffix));
>>
    [safe] is [undefined] when the marker is not in the details, and
    [safe.split(", ")[1]] is [undefined] when [safe] has no [", "]: the
    method call on it throws a [TypeError]. *)
Definition suggestedRange (marker : string) (suffix : nat) (details : string)
  : Exn + (jsnumber * jsnumber) :=
  match split details marker !! 1%nat with
  | None => inl ExnTypeError
  | Some safe =>
      match split safe ", " with
      | first :: second :: _ =>
          let safeStart := Number_ (slice_1 first) in
          let safeEnd := Number_ (slice_0_neg suffix second) in
          inr (safeStart, safeEnd)
      | _ => inl ExnTypeError
      end
  end.

(** ... and the ranges pushed from it:
<<
  retryRanges.push([toHex(safeStart), toHex(safeEnd)]);
  retryRanges.push([toHex(safeEnd + 1), options.toBlock]);
>> *)
Definition suggestedRetryRanges (marker : string) (suffix : nat) (error : RpcError)
    (options : GetLogsOptions) : Exn + list (Hex * Hex) :=
  match suggestedRange marker suffix (err_details error) with
  | inl e => inl e
  | inr (safeStart, safeEnd) =>
      match toHex safeStart with
      | inl e => inl e
      | inr start =>
          match toHex safeEnd with
          | inl e => inl e
          | inr end_ =>
              match toHex (js_succ safeEnd) with
              | inl e => inl e
              | inr next => inr [(start, end_); (next, opt_toBlock options)]
              end
          end
      end
  end.

(** [Math.floor((Number(options.toBlock) - Number(options.fromBlock)) / 2
    + Number(options.fromBlock))] *)
Definition midpointOf (options : GetLogsOptions) : jsnumber :=
  match Number_ (opt_toBlock options), Number_ (opt_fromBlock options) with
  | JInt to, JInt from => JInt ((to - from) / 2 + from)
  | _, _ => JNaN
  end.

(** The two branches that split at the midpoint:
<<
  retryRanges.push([toHex(options.fromBlock), toHex(midpoint)]);
  retryRanges.push([toHex(midpoint + 1), options.toBlock]);
>>
    [options.fromBlock] is a string, so [toHex] is [stringToHex] on it. *)
Definition midpointRetryRanges (options : GetLogsOptions) : Exn + list (Hex * Hex) :=
  let midpoint := midpointOf options in
  match toHex midpoint with
  | inl e => inl e
  | inr mid =>
      match toHex (js_succ midpoint) with
      | inl e => inl e
      | inr next =>
          inr [(stringToHex (opt_fromBlock options), mid); (next, opt_toBlock options)]
      end
  end.

(** The classification of the error of a failed request: the ranges to retry
    with, or the exception that leaves [_eth_getLogs]. *)
Definition retryRangesFor (error : RpcError) (options : GetLogsOptions)
  : Exn + list (Hex * Hex) :=
  if bool_decide (err_class error = InvalidParamsRpcError)
     && startsWith (err_details error) "Log response size exceeded."
  then suggestedRetryRanges "this block range should work: " 1 error options
  else if bool_decide (err_class error = LimitExceededRpcError)
          && includes (err_details error) "query returned more than 10000 results"
  then suggestedRetryRanges "Try with this block range " 2 error options
  else if bool_decide (err_class error = InvalidParamsRpcError)
          && includes (err_details error) "block range less than 20000"
  then midpointRetryRanges options
  else if bool_decide (err_class error = HttpRequestError)
          && includes (err_details error)
               "eth_getLogs and eth_newFilter are limited to a 10,000 blocks range"
  then midpointRetryRanges options
  else inl (ExnRpc error).

Definition withRange (options : GetLogsOptions) (from to : Hex) : GetLogsOptions :=
  {| opt_address := opt_address options; opt_topics := opt_topics options;
     opt_fromBlock := from; opt_toBlock := to |}.

(** The outcome of a call that makes requests: the requests made so far
    (old ones first), with the value returned or the exception thrown.
    [None] stands for a call that has not returned within the fuel given. *)
Definition Outcome (A : Type) : Type := option (list RpcRequest * (Exn + A)).

(** [for (const [from, to] of retryRanges) { logs.push(...await
    this._eth_getLogs({...options, fromBlock: from, toBlock: to})) }], where
    [call] is [this._eth_getLogs]. *)
Fixpoint forRetryRanges (call : list RpcRequest → GetLogsOptions → Outcome (list RpcLog))
    (options : GetLogsOptions) (retryRanges : list (Hex * Hex))
    (history : list RpcRequest) (logs : list RpcLog) : Outcome (list RpcLog) :=
  match retryRanges with
  | [] => Some (history, inr logs)
  | (from, to) :: rest =>
      match call history (withRange options from to) with
      | None => None
      | Some (history', inl e) => Some (history', inl e)
      | Some (history', inr logs_) => forRetryRanges call options rest history' (logs ++ logs_)
      end
  end.

(** [_eth_getLogs(options)], started after the requests of [history].  The
    function calls itself for as long as the node answers with an error it
    recognises; [fuel] bounds the depth of these calls. *)
Fixpoint _eth_getLogs (fuel : nat) (client : RpcClient) (history : list RpcRequest)
    (options : GetLogsOptions) : Outcome (list RpcLog) :=
  match fuel with
  | O => None
  | S fuel' =>
      let history' := history ++ [Eth_getLogs options] in
      match request_getLogs client history options with
      | inr logs_ => Some (history', inr logs_)
      | inl error =>
          match retryRangesFor error options with
          | inl e => Some (history', inl e)
          | inr retryRanges =>
              forRetryRanges (_eth_getLogs fuel' client) options retryRanges history' []
          end
      end
  end.

(** ** The task workers *)

(** The outcome of a worker: the service as the worker left it, and whether
    it returned or threw.  [None]: a call to [_eth_getLogs] ran out of fuel. *)
Definition WorkerOutcome : Type := option (Service * (Exn + unit)).

(** [await this._eth_getLogs(options)] inside a worker. *)
Definition call_eth_getLogs (fuel : nat) (s : Service) (options : GetLogsOptions)
  : option (Service * (Exn + list RpcLog)) :=
  match _eth_getLogs fuel (net_client (network s)) (rpcHistory s) options with
  | None => None
  | Some (history, result) => Some (set_rpcHistory history s, result)
  end.

(** [(this.blockCallbacks[endBlock] ||= []).push(callback)] *)
Definition pushBlockCallback (endBlock : Z) (callback : BlockCallback) (s : Service) : Service :=
  set_blockCallbacks
    (<[endBlock := default [] (blockCallbacks s !! endBlock) ++ [callback]]> (blockCallbacks s)) s.

(** [for (const logInterval of logIntervals) { ... push ... }] *)
Definition registerBlockCallbacks (callbackOf : LogInterval → BlockCallback)
    (logIntervals : list LogInterval) (s : Service) : Service :=
  fold_left (λ s logInterval, pushBlockCallback (li_endBlock logInterval) (callbackOf logInterval) s)
            logIntervals s.

Definition logFilterTaskWorker (fuel : nat) (s : Service) (logFilter : LogFilter)
    (fromBlock toBlock : Z) : WorkerOutcome :=
  match toHex (JInt fromBlock) with
  | inl e => Some (s, inl e)
  | inr from =>
  match toHex (JInt toBlock) with
  | inl e => Some (s, inl e)
  | inr to =>
  match call_eth_getLogs fuel s
          {| opt_address := lfc_address (lf_criteria logFilter);
             opt_topics := lfc_topics (lf_criteria logFilter);
             opt_fromBlock := from; opt_toBlock := to |} with
  | None => None
  | Some (s1, inl e) => Some (s1, inl e)
  | Some (s1, inr logs) =>
      let logIntervals := buildLogIntervals fromBlock toBlock logs in
      let s2 := registerBlockCallbacks (LogFilterCallback logFilter) logIntervals s1 in
      match logFilterProgressTrackers s2 !! lf_name logFilter with
      | None => Some (s2, inl ExnTypeError)
      | Some tracker =>
          let s3 :=
            set_logFilterProgressTrackers
              (<[lf_name logFilter := (addCompletedInterval tracker (fromBlock, toBlock)).1]>
                 (logFilterProgressTrackers s2)) s2 in
          Some (enqueueBlockTasks s3, inr tt)
      end
  end end end.

(** [factory.maxBlockRange ?? this.network.defaultMaxBlockRange] *)
Definition factoryMaxChunkSize (s : Service) (factory : Factory) : Z :=
  default (defaultMaxBlockRange (network s)) (f_maxBlockRange factory).

(** [for (const [fromBlock, toBlock] of chunks) this.queue.addTask({kind:
    "FACTORY_LOG_FILTER", factory, fromBlock, toBlock}, {priority:
    Number.MAX_SAFE_INTEGER - fromBlock})] *)
Definition addFactoryLogFilterTasks (factory : Factory) (chunks : list Interval)
    (s : Service) : Service :=
  fold_left (λ s '(fromBlock, toBlock),
               queue_addTask (FACTORY_LOG_FILTER factory fromBlock toBlock)
                             (MAX_SAFE_INTEGER - fromBlock) false s)
            chunks s.

Definition factoryChildAddressTaskWorker (fuel : nat) (s : Service) (factory : Factory)
    (fromBlock toBlock : Z) : WorkerOutcome :=
  match toHex (JInt fromBlock) with
  | inl e => Some (s, inl e)
  | inr from =>
  match toHex (JInt toBlock) with
  | inl e => Some (s, inl e)
  | inr to =>
  match call_eth_getLogs fuel s
          {| opt_address := Some (OneAddress (fc_address (f_criteria factory)));
             opt_topics := Some [OneTopic (fc_eventSelector (f_criteria factory))];
             opt_fromBlock := from; opt_toBlock := to |} with
  | None => None
  | Some (s1, inl e) => Some (s1, inl e)
  | Some (s1, inr logs) =>
      (* Insert the new child address logs into the store. *)
      let s2 :=
        set_storeWrites
          (storeWrites s1 ++ [InsertFactoryChildAddressLogs (f_chainId factory) logs]) s1 in
      let logIntervals := buildLogIntervals fromBlock toBlock logs in
      let s3 := registerBlockCallbacks (FactoryChildAddressCallback factory) logIntervals s2 in
      (* Update the checkpoint, and if necessary, enqueue factory log filter tasks. *)
      match factoryChildAddressProgressTrackers s3 !! f_name factory with
      | None => Some (s3, inl ExnTypeError)
      | Some tracker =>
          let '(tracker', result) := addCompletedInterval tracker (fromBlock, toBlock) in
          let s4 :=
            set_factoryChildAddressProgressTrackers
              (<[f_name factory := tracker']> (factoryChildAddressProgressTrackers s3)) s3 in
          let s5 :=
            if isUpdated result then
              let factoryLogFilterChunks :=
                getChunks [(prevCheckpoint result + 1, newCheckpoint result)]
                          (factoryMaxChunkSize s4 factory) in
              addFactoryLogFilterTasks factory factoryLogFilterChunks s4
            else s4 in
          Some (inc_completed_blocks (String.append (f_name factory) "_factory")
                                     (toBlock - fromBlock + 1) s5,
                inr tt)
      end
  end end end.

(** [for await (const childContractAddressBatch of iterator) { logs.push(...
    await this._eth_getLogs({address: childContractAddressBatch, ...})) }] *)
Fixpoint getLogsOfBatches (fuel : nat) (factory : Factory) (fromBlock toBlock : Z)
    (batches : list (list Address)) (s : Service) (logs : list RpcLog)
  : option (Service * (Exn + list RpcLog)) :=
  match batches with
  | [] => Some (s, inr logs)
  | childContractAddressBatch :: rest =>
      match toHex (JInt fromBlock) with
      | inl e => Some (s, inl e)
      | inr from =>
      match toHex (JInt toBlock) with
      | inl e => Some (s, inl e)
      | inr to =>
      match call_eth_getLogs fuel s
              {| opt_address := Some (Addresses childContractAddressBatch);
                 opt_topics := fc_topics (f_criteria factory);
                 opt_fromBlock := from; opt_toBlock := to |} with
      | None => None
      | Some (s1, inl e) => Some (s1, inl e)
      | Some (s1, inr batchLogs) =>
          getLogsOfBatches fuel factory fromBlock toBlock rest s1 (logs ++ batchLogs)
      end end end
  end.

Definition factoryLogFilterTaskWorker (fuel : nat) (s : Service) (factory : Factory)
    (fromBlock toBlock : Z) : WorkerOutcome :=
  let iterator :=
    getFactoryChildAddresses (eventStore s) (storeWrites s) (f_chainId factory)
                             (f_criteria factory) toBlock in
  match getLogsOfBatches fuel factory fromBlock toBlock iterator s [] with
  | None => None
  | Some (s1, inl e) => Some (s1, inl e)
  | Some (s1, inr logs) =>
      let logIntervals := buildLogIntervals fromBlock toBlock logs in
      let s2 := registerBlockCallbacks (FactoryLogFilterCallback factory) logIntervals s1 in
      match factoryLogFilterProgressTrackers s2 !! f_name factory with
      | None => Some (s2, inl ExnTypeError)
      | Some tracker =>
          let s3 :=
            set_factoryLogFilterProgressTrackers
              (<[f_name factory := (addCompletedInterval tracker (fromBlock, toBlock)).1]>
                 (factoryLogFilterProgressTrackers s2)) s2 in
          Some (enqueueBlockTasks s3, inr tt)
      end
  end.

(** [block.transactions.filter((tx) => transactionHashes.has(tx.hash))] *)
Definition transactionsOf (block : RpcBlock) (transactionHashes : gset Hash)
  : list RpcTransaction :=
  List.filter (λ tx, bool_decide (tx_hash tx ∈ transactionHashes)) (block_transactions block).

(** A block callback applied to the block. *)
Definition runBlockCallback (block : RpcBlock) (s : Service) (callback : BlockCallback)
  : Service :=
  match callback with
  | LogFilterCallback logFilter i =>
      let s1 :=
        set_storeWrites
          (storeWrites s ++
             [InsertLogFilterInterval (lf_chainId logFilter) block
                (transactionsOf block (li_transactionHashes i)) (li_logs i)
                (lf_criteria logFilter) (li_startBlock i, li_endBlock i)]) s in
      inc_completed_blocks (lf_name logFilter) (li_endBlock i - li_startBlock i + 1) s1
  | FactoryChildAddressCallback factory i =>
      set_storeWrites
        (storeWrites s ++
           [InsertLogFilterInterval (f_chainId factory) block
              (transactionsOf block (li_transactionHashes i)) (li_logs i)
              {| lfc_address := Some (OneAddress (fc_address (f_criteria factory)));
                 lfc_topics := Some [OneTopic (fc_eventSelector (f_criteria factory))] |}
              (li_startBlock i, li_endBlock i)]) s
  | FactoryLogFilterCallback factory i =>
      let s1 :=
        set_storeWrites
          (storeWrites s ++
             [InsertFactoryLogFilterInterval (f_chainId factory) (f_criteria factory) block
                (transactionsOf block (li_transactionHashes i)) (li_logs i)
                (li_startBlock i, li_endBlock i)]) s in
      inc_completed_blocks (f_name factory) (li_endBlock i - li_startBlock i + 1) s1
  end.

Definition blockTaskWorker (s : Service) (blockNumber : Z) (callbacks : list BlockCallback)
  : WorkerOutcome :=
  match toHex (JInt blockNumber) with
  | inl e => Some (s, inl e)
  | inr number =>
      let s1 := set_rpcHistory (rpcHistory s ++ [Eth_getBlockByNumber number true]) s in
      match request_getBlockByNumber (net_client (network s)) (rpcHistory s) number with
      | inl error => Some (s1, inl (ExnRpc error))
      | inr None => Some (s1, inl (ExnBlockNotFound blockNumber))
      | inr (Some block) =>
          let s2 := fold_left (runBlockCallback block) callbacks s1 in
          let '(tracker, newBlockCheckpoint) :=
            addCompletedBlock (blockProgressTracker s2) blockNumber
                              (hexToNumber (block_timestamp block)) in
          let s3 := set_blockProgressTracker tracker s2 in
          match newBlockCheckpoint with
          | Some (number, timestamp) =>
              Some (emit (historicalCheckpoint (Some number) timestamp) s3, inr tt)
          | None => Some (s3, inr tt)
          end
      end
  end.

(** ** [buildQueue]: the worker and the error handler of the queue *)

Definition worker (fuel : nat) (task : HistoricalSyncTask) (s : Service) : WorkerOutcome :=
  let outcome :=
    match task with
    | LOG_FILTER logFilter fromBlock toBlock =>
        logFilterTaskWorker fuel s logFilter fromBlock toBlock
    | FACTORY_CHILD_ADDRESS factory fromBlock toBlock =>
        factoryChildAddressTaskWorker fuel s factory fromBlock toBlock
    | FACTORY_LOG_FILTER factory fromBlock toBlock =>
        factoryLogFilterTaskWorker fuel s factory fromBlock toBlock
    | BLOCK blockNumber callbacks => blockTaskWorker s blockNumber callbacks
    end in
  match outcome with
  | None => None
  | Some (s', inl e) => Some (s', inl e)
  | Some (s', inr tt) =>
      (* If this is not the final task, return. *)
      if bool_decide (0 < size_ (queue s'))%nat || bool_decide (1 < q_pending (queue s'))%nat
      then Some (s', inr tt)
      else Some (emit syncComplete s', inr tt)
  end.

(** [onError: ({ error, task, queue }) => { switch (task.kind) ... }] *)
Definition onError (error : Exn) (task : HistoricalSyncTask) (s : Service) : Service :=
  match task with
  | LOG_FILTER logFilter fromBlock toBlock =>
      let priority := MAX_SAFE_INTEGER - fromBlock in
      queue_addTask task priority true s
  | FACTORY_CHILD_ADDRESS factory fromBlock toBlock =>
      let priority := MAX_SAFE_INTEGER - fromBlock in
      queue_addTask task priority true s
  | FACTORY_LOG_FILTER factory fromBlock toBlock =>
      let priority := MAX_SAFE_INTEGER - fromBlock in
      queue_addTask task priority true s
  | BLOCK blockNumber callbacks =>
      let priority := MAX_SAFE_INTEGER - blockNumber in
      queue_addTask task priority true s
  end.

(** Modelled from the spec: the queue of the service with its queued tasks
    and the number of its running tasks replaced. *)
Definition set_queued (queued : list (QueueEntry HistoricalSyncTask)) (pending : nat)
    (s : Service) : Service :=
  set_queue {| q_queued := queued; q_pending := pending; q_started := q_started (queue s) |} s.

(** Modelled from the spec: one task run by the queue of utils/queue, which is
    not among the sources; "strictly highest priority first, ties broken by
    insertion order"; "on worker failure, the supplied on-error handler" is
    "called with (error, task, queue-handle)".  The task leaves the queued
    ones and counts as pending while its worker runs. *)
Definition runNextTask (fuel : nat) (s : Service) : option Service :=
  match takeNext (q_queued (queue s)) with
  | None => Some s
  | Some (entry, rest) =>
      let s1 := set_queued rest (S (q_pending (queue s))) s in
      match worker fuel (qe_task entry) s1 with
      | None => None
      | Some (s2, inr tt) =>
          Some (set_queued (q_queued (queue s2)) (pred (q_pending (queue s2))) s2)
      | Some (s2, inl error) =>
          let s3 := onError error (qe_task entry) s2 in
          Some (set_queued (q_queued (queue s3)) (pred (q_pending (queue s3))) s3)
      end
  end.

(** ** [setup] *)

(** Modelled from the spec: what [validateHistoricalBlockRange] returns, as
    [setup] destructures it. *)
Record HistoricalBlockRange := mkHistoricalBlockRange {
  isHistoricalSyncRequired : bool;
  range_startBlock : Z;
  range_endBlock : Z;
}.

(** Modelled from the spec: [validateHistoricalBlockRange] of
    sync-historical/utils, which is not among the sources; "compute
    (startBlock, endBlock) where endBlock = min(source.endBlock ?? infinity,
    finalizedBlockNumber).  If startBlock > finalizedBlockNumber [...]
    realtime will pick it up"; "start-block past end-block is a programmer
    error and fails setup". *)
Definition validateHistoricalBlockRange (startBlock : Z) (endBlock : option Z)
    (finalizedBlockNumber latestBlockNumber : Z) : Exn + HistoricalBlockRange :=
  let resolvedEndBlock :=
    match endBlock with
    | Some e => Z.min e finalizedBlockNumber
    | None => finalizedBlockNumber
    end in
  if bool_decide (finalizedBlockNumber < startBlock) then
    inr {| isHistoricalSyncRequired := false; range_startBlock := startBlock;
           range_endBlock := resolvedEndBlock |}
  else if bool_decide (resolvedEndBlock < startBlock) then inl ExnInvalidRange
  else
    inr {| isHistoricalSyncRequired := true; range_startBlock := startBlock;
           range_endBlock := resolvedEndBlock |}.

Definition addLogFilterTasks (logFilter : LogFilter) (chunks : list Interval)
    (s : Service) : Service :=
  fold_left (λ s '(fromBlock, toBlock),
               queue_addTask (LOG_FILTER logFilter fromBlock toBlock)
                             (MAX_SAFE_INTEGER - fromBlock) false s)
            chunks s.

Definition addFactoryChildAddressTasks (factory : Factory) (chunks : list Interval)
    (s : Service) : Service :=
  fold_left (λ s '(fromBlock, toBlock),
               queue_addTask (FACTORY_CHILD_ADDRESS factory fromBlock toBlock)
                             (MAX_SAFE_INTEGER - fromBlock) false s)
            chunks s.

(** The callback that [setup] hands to [this.logFilters.map]: what it does
    for one log filter when it is called. *)
Definition setupLogFilter (latestBlockNumber finalizedBlockNumber : Z) (logFilter : LogFilter)
    (s : Service) : Service * (Exn + unit) :=
  match validateHistoricalBlockRange (lf_startBlock logFilter) (lf_endBlock logFilter)
          finalizedBlockNumber latestBlockNumber with
  | inl e => (s, inl e)
  | inr range =>
      let startBlock := range_startBlock range in
      let endBlock := range_endBlock range in
      if negb (isHistoricalSyncRequired range) then
        let s1 :=
          set_logFilterProgressTrackers
            (<[lf_name logFilter :=
                 newProgressTracker (startBlock, finalizedBlockNumber)
                                    [(startBlock, finalizedBlockNumber)]]>
               (logFilterProgressTrackers s)) s in
        let s2 := set_total_blocks (lf_name logFilter) 0 s1 in
        (set_effects (effects s2 ++ [Warn (lf_name logFilter)]) s2, inr tt)
      else
        let completedLogFilterIntervals :=
          getLogFilterIntervals (eventStore s) (lf_chainId logFilter)
            {| lfc_address := lfc_address (lf_criteria logFilter);
               lfc_topics := lfc_topics (lf_criteria logFilter) |} in
        let logFilterProgressTracker :=
          newProgressTracker (startBlock, endBlock) completedLogFilterIntervals in
        let s1 :=
          set_logFilterProgressTrackers
            (<[lf_name logFilter := logFilterProgressTracker]> (logFilterProgressTrackers s)) s in
        let requiredLogFilterIntervals := getRequired logFilterProgressTracker in
        let logFilterTaskChunks :=
          getChunks requiredLogFilterIntervals
            (default (defaultMaxBlockRange (network s)) (lf_maxBlockRange logFilter)) in
        let s2 := addLogFilterTasks logFilter logFilterTaskChunks s1 in
        let targetBlockCount := endBlock - startBlock + 1 in
        let cachedBlockCount := intervalSum completedLogFilterIntervals in
        let s3 := set_total_blocks (lf_name logFilter) targetBlockCount s2 in
        (set_cached_blocks (lf_name logFilter) cachedBlockCount s3, inr tt)
  end.

(** The callback that [setup] hands to [this.factories.map]: what it does
    for one factory when it is called. *)
Definition setupFactory (latestBlockNumber finalizedBlockNumber : Z) (factory : Factory)
    (s : Service) : Service * (Exn + unit) :=
  match validateHistoricalBlockRange (f_startBlock factory) (f_endBlock factory)
          finalizedBlockNumber latestBlockNumber with
  | inl e => (s, inl e)
  | inr range =>
      let startBlock := range_startBlock range in
      let endBlock := range_endBlock range in
      if negb (isHistoricalSyncRequired range) then
        let s1 :=
          set_factoryChildAddressProgressTrackers
            (<[f_name factory :=
                 newProgressTracker (startBlock, finalizedBlockNumber)
                                    [(startBlock, finalizedBlockNumber)]]>
               (factoryChildAddressProgressTrackers s)) s in
        let s2 :=
          set_factoryLogFilterProgressTrackers
            (<[f_name factory :=
                 newProgressTracker (startBlock, finalizedBlockNumber)
                                    [(startBlock, finalizedBlockNumber)]]>
               (factoryLogFilterProgressTrackers s1)) s1 in
        let s3 := set_total_blocks (f_name factory) 0 s2 in
        (set_effects (effects s3 ++ [Warn (f_name factory)]) s3, inr tt)
      else
        (* Note that factory child address progress is stored using
           log intervals for the factory log. *)
        let completedFactoryChildAddressIntervals :=
          getLogFilterIntervals (eventStore s) (f_chainId factory)
            {| lfc_address := Some (OneAddress (fc_address (f_criteria factory)));
               lfc_topics := Some [OneTopic (fc_eventSelector (f_criteria factory))] |} in
        let factoryChildAddressProgressTracker :=
          newProgressTracker (startBlock, endBlock) completedFactoryChildAddressIntervals in
        let s1 :=
          set_factoryChildAddressProgressTrackers
            (<[f_name factory := factoryChildAddressProgressTracker]>
               (factoryChildAddressProgressTrackers s)) s in
        let requiredFactoryChildAddressIntervals :=
          getRequired factoryChildAddressProgressTracker in
        let factoryChildAddressTaskChunks :=
          getChunks requiredFactoryChildAddressIntervals (factoryMaxChunkSize s1 factory) in
        let s2 := addFactoryChildAddressTasks factory factoryChildAddressTaskChunks s1 in
        let targetFactoryChildAddressBlockCount := endBlock - startBlock + 1 in
        let cachedFactoryChildAddressBlockCount :=
          intervalSum completedFactoryChildAddressIntervals in
        let s3 :=
          set_total_blocks (String.append (f_name factory) "_factory")
                           targetFactoryChildAddressBlockCount s2 in
        let s4 :=
          set_cached_blocks (String.append (f_name factory) "_factory")
                            cachedFactoryChildAddressBlockCount s3 in
        let completedFactoryLogFilterIntervals :=
          getFactoryLogFilterIntervals (eventStore s4) (f_chainId factory) (f_criteria factory) in
        let factoryLogFilterProgressTracker :=
          newProgressTracker (startBlock, endBlock) completedFactoryLogFilterIntervals in
        let s5 :=
          set_factoryLogFilterProgressTrackers
            (<[f_name factory := factoryLogFilterProgressTracker]>
               (factoryLogFilterProgressTrackers s4)) s4 in
        (* Manually add factory log filter tasks for any intervals where the
           child address tasks are completed, but the child log filter tasks are not,
           because these won't be added automatically by the factory child address tasks. *)
        let requiredFactoryLogFilterIntervals := getRequired factoryLogFilterProgressTracker in
        let missingFactoryLogFilterIntervals :=
          intervalDifference requiredFactoryLogFilterIntervals
                             requiredFactoryChildAddressIntervals in
        let missingFactoryLogFilterTaskChunks :=
          getChunks missingFactoryLogFilterIntervals (factoryMaxChunkSize s5 factory) in
        let s6 := addFactoryLogFilterTasks factory missingFactoryLogFilterTaskChunks s5 in
        let targetFactoryLogFilterBlockCount := endBlock - startBlock + 1 in
        let cachedFactoryLogFilterBlockCount := intervalSum completedFactoryLogFilterIntervals in
        let s7 := set_total_blocks (f_name factory) targetFactoryLogFilterBlockCount s6 in
        (set_cached_blocks (f_name factory) cachedFactoryLogFilterBlockCount s7, inr tt)
  end.

(** [setup({latestBlockNumber, finalizedBlockNumber})].  Its first statement
    stores [finalizedBlockNumber].  The argument of [Promise.all] is built
    next, and [this.logFilters.map(...)] is the first thing evaluated for it.
    The class declares and assigns [sources], but neither [logFilters] nor
    [factories]: [this.logFilters] is [undefined], reading [map] from it
    throws a [TypeError], and none of the two callbacks is called. *)
Definition setup (latestBlockNumber finalizedBlockNumber : Z) (s : Service)
  : Service * (Exn + unit) :=
  let s0 := set_finalizedBlockNumber (Some finalizedBlockNumber) s in
  (s0, inl ExnTypeError).

(** ** [start] and [kill] *)

(** [Math.round(ms / 1000)]: the nearest integer, a half rounded up. *)
Definition roundToSeconds (ms : Z) : Z := (ms + 500) / 1000.

(** [start()], with the values that [process.hrtime()] and [Date.now()]
    return.  The interval timer that [start] sets only logs; it is recorded
    by its kill function. *)
Definition start (hrtime now : Z) (s : Service) : Service :=
  let s1 := set_startTimestamp (Some hrtime) s in
  let s2 := set_killFunctions (killFunctions s1 ++ [ClearUpdateLogInterval]) s1 in
  let s3 :=
    if bool_decide (size_ (queue s2) = 0%nat) then
      emit syncComplete
        (emit (historicalCheckpoint (finalizedBlockNumber s2) (roundToSeconds now)) s2)
    else s2 in
  set_effects (effects s3 ++ [QueueStarted]) (set_queue (start_ (queue s3)) s3).

Definition kill (s : Service) : Service :=
  set_queue (clear (pause (queue s))) s.

(** ** The sync gateway *)

Module SyncGateway.

(** An entry of [networkCheckpoints]. *)
Record NetworkCheckpoint := mkNetworkCheckpoint {
  n_isHistoricalSyncComplete : bool;
  n_historicalCheckpoint : Z;
  n_realtimeCheckpoint : Z;
  n_finalityCheckpoint : Z;
}.

Inductive Event :=
| newCheckpoint (timestamp : num)
| newFinalityCheckpoint (timestamp : num)
| reorg (commonAncestorTimestamp : Z).

Record t := mkSyncGateway {
  checkpoint : num;
  finalityCheckpoint : num;
  historicalSyncCompletedAt : option num;
  networkCheckpoints : gmap Z NetworkCheckpoint;
  emitted : list Event;
}.

(** The constructor, from the [chainId]s of the networks. *)
Definition new (networks : list Z) : t :=
  {| checkpoint := Fin 0;
     finalityCheckpoint := Fin 0;
     historicalSyncCompletedAt := None;
     networkCheckpoints :=
       fold_left (λ m chainId,
                    <[chainId := {| n_isHistoricalSyncComplete := false;
                                    n_historicalCheckpoint := 0;
                                    n_realtimeCheckpoint := 0;
                                    n_finalityCheckpoint := 0 |}]> m)
                 networks ∅;
     emitted := [] |}.

Definition set_networkCheckpoints (v : gmap Z NetworkCheckpoint) (g : t) : t :=
  {| checkpoint := checkpoint g; finalityCheckpoint := finalityCheckpoint g;
     historicalSyncCompletedAt := historicalSyncCompletedAt g;
     networkCheckpoints := v; emitted := emitted g |}.

(** What a network contributes to the checkpoint:
    [n.isHistoricalSyncComplete ? Math.max(n.historicalCheckpoint,
    n.realtimeCheckpoint) : n.historicalCheckpoint]. *)
Definition networkCheckpointOf (n : NetworkCheckpoint) : Z :=
  if n_isHistoricalSyncComplete n
  then Z.max (n_historicalCheckpoint n) (n_realtimeCheckpoint n)
  else n_historicalCheckpoint n.

Definition recalculateCheckpoint (g : t) : t :=
  let checkpoints := networkCheckpointOf <$> Object_values (networkCheckpoints g) in
  let newCheckpoint_ := Math_min checkpoints in
  if num_ltb (checkpoint g) newCheckpoint_ then
    {| checkpoint := newCheckpoint_; finalityCheckpoint := finalityCheckpoint g;
       historicalSyncCompletedAt := historicalSyncCompletedAt g;
       networkCheckpoints := networkCheckpoints g;
       emitted := emitted g ++ [newCheckpoint newCheckpoint_] |}
  else g.

Definition recalculateFinalityCheckpoint (g : t) : t :=
  let newFinalityCheckpoint_ :=
    Math_min (n_finalityCheckpoint <$> Object_values (networkCheckpoints g)) in
  if num_ltb (finalityCheckpoint g) newFinalityCheckpoint_ then
    {| checkpoint := checkpoint g; finalityCheckpoint := newFinalityCheckpoint_;
       historicalSyncCompletedAt := historicalSyncCompletedAt g;
       networkCheckpoints := networkCheckpoints g;
       emitted := emitted g ++ [newFinalityCheckpoint newFinalityCheckpoint_] |}
  else g.

(** The handlers assign to a field of [this.networkCheckpoints[chainId]]: for
    a [chainId] that is not registered this throws a [TypeError] ([None])
    before anything is changed. *)
Definition handleNewHistoricalCheckpoint (chainId timestamp : Z) (g : t) : option t :=
  match networkCheckpoints g !! chainId with
  | None => None
  | Some n =>
      Some (recalculateCheckpoint
              (set_networkCheckpoints
                 (<[chainId := {| n_isHistoricalSyncComplete := n_isHistoricalSyncComplete n;
                                  n_historicalCheckpoint := timestamp;
                                  n_realtimeCheckpoint := n_realtimeCheckpoint n;
                                  n_finalityCheckpoint := n_finalityCheckpoint n |}]>
                    (networkCheckpoints g)) g))
  end.

Definition handleHistoricalSyncComplete (chainId : Z) (g : t) : option t :=
  match networkCheckpoints g !! chainId with
  | None => None
  | Some n =>
      let g1 :=
        recalculateCheckpoint
          (set_networkCheckpoints
             (<[chainId := {| n_isHistoricalSyncComplete := true;
                              n_historicalCheckpoint := n_historicalCheckpoint n;
                              n_realtimeCheckpoint := n_realtimeCheckpoint n;
                              n_finalityCheckpoint := n_finalityCheckpoint n |}]>
                (networkCheckpoints g)) g) in
      (* If every network has completed the historical sync, set the metric. *)
      let networkCheckpoints_ := Object_values (networkCheckpoints g1) in
      if forallb n_isHistoricalSyncComplete networkCheckpoints_ then
        let maxHistoricalCheckpoint :=
          Math_max (n_historicalCheckpoint <$> networkCheckpoints_) in
        Some {| checkpoint := checkpoint g1; finalityCheckpoint := finalityCheckpoint g1;
                historicalSyncCompletedAt := Some maxHistoricalCheckpoint;
                networkCheckpoints := networkCheckpoints g1; emitted := emitted g1 |}
      else Some g1
  end.

Definition handleNewRealtimeCheckpoint (chainId timestamp : Z) (g : t) : option t :=
  match networkCheckpoints g !! chainId with
  | None => None
  | Some n =>
      Some (recalculateCheckpoint
              (set_networkCheckpoints
                 (<[chainId := {| n_isHistoricalSyncComplete := n_isHistoricalSyncComplete n;
                                  n_historicalCheckpoint := n_historicalCheckpoint n;
                                  n_realtimeCheckpoint := timestamp;
                                  n_finalityCheckpoint := n_finalityCheckpoint n |}]>
                    (networkCheckpoints g)) g))
  end.

Definition handleNewFinalityCheckpoint (chainId timestamp : Z) (g : t) : option t :=
  match networkCheckpoints g !! chainId with
  | None => None
  | Some n =>
      Some (recalculateFinalityCheckpoint
              (set_networkCheckpoints
                 (<[chainId := {| n_isHistoricalSyncComplete := n_isHistoricalSyncComplete n;
                                  n_historicalCheckpoint := n_historicalCheckpoint n;
                                  n_realtimeCheckpoint := n_realtimeCheckpoint n;
                                  n_finalityCheckpoint := timestamp |}]>
                    (networkCheckpoints g)) g))
  end.

Definition handleReorg (commonAncestorTimestamp : Z) (g : t) : option t :=
  Some {| checkpoint := checkpoint g; finalityCheckpoint := finalityCheckpoint g;
          historicalSyncCompletedAt := historicalSyncCompletedAt g;
          networkCheckpoints := networkCheckpoints g;
          emitted := emitted g ++ [reorg commonAncestorTimestamp] |}.

(** A call of one of the public handlers. *)
Inductive Call :=
| HandleNewHistoricalCheckpoint (chainId timestamp : Z)
| HandleHistoricalSyncComplete (chainId : Z)
| HandleNewRealtimeCheckpoint (chainId timestamp : Z)
| HandleNewFinalityCheckpoint (chainId timestamp : Z)
| HandleReorg (commonAncestorTimestamp : Z).

Definition handle (c : Call) (g : t) : option t :=
  match c with
  | HandleNewHistoricalCheckpoint chainId timestamp =>
      handleNewHistoricalCheckpoint chainId timestamp g
  | HandleHistoricalSyncComplete chainId => handleHistoricalSyncComplete chainId g
  | HandleNewRealtimeCheckpoint chainId timestamp =>
      handleNewRealtimeCheckpoint chainId timestamp g
  | HandleNewFinalityCheckpoint chainId timestamp =>
      handleNewFinalityCheckpoint chainId timestamp g
  | HandleReorg commonAncestorTimestamp => handleReorg commonAncestorTimestamp g
  end.

(** A sequence of calls; a call that throws leaves the gateway as it was. *)
Definition run (calls : list Call) (g : t) : t :=
  fold_left (λ g c, default g (handle c g)) calls g.

End SyncGateway.

(** ** Vocabulary of the statements *)

(** The queue entry that [enqueueBlockTasks] makes for a key of
    [blockCallbacks]. *)
Definition blockTaskEntry (s : Service) (blockNumber : Z) : QueueEntry HistoricalSyncTask :=
  {| qe_task := BLOCK blockNumber (default [] (blockCallbacks s !! blockNumber));
     qe_priority := MAX_SAFE_INTEGER - blockNumber;
     qe_retry := false |}.

(** The trackers of the three kinds. *)
Definition isRangeTracker (s : Service) (t : ProgressTracker) : Prop :=
  ∃ name, logFilterProgressTrackers s !! name = Some t
          ∨ factoryChildAddressProgressTrackers s !! name = Some t
          ∨ factoryLogFilterProgressTrackers s !! name = Some t.

(** The block a task is ordered by: its [fromBlock], or its [blockNumber]. *)
Definition taskBlock (task : HistoricalSyncTask) : Z :=
  match task with
  | LOG_FILTER _ fromBlock _ => fromBlock
  | FACTORY_CHILD_ADDRESS _ fromBlock _ => fromBlock
  | FACTORY_LOG_FILTER _ fromBlock _ => fromBlock
  | BLOCK blockNumber _ => blockNumber
  end.

(** [n] lies in one of the intervals. *)
Definition covered (n : Z) (intervals : list Interval) : Prop :=
  ∃ i, i ∈ intervals ∧ i.1 ≤ n ≤ i.2.

(** The intervals tile [[from, to]]: the first starts at [from], each next
    one starts right after the one before, the last ends at [to], and none is
    empty. *)
Inductive Tiles : Z → Z → list Interval → Prop :=
| Tiles_nil from : Tiles from (from - 1) []
| Tiles_cons from mid to rest :
    from ≤ mid → Tiles (mid + 1) to rest → Tiles from to ((from, mid) :: rest).

(** The hex quantity of a block number. *)
Definition hexOf (n : Z) : Hex := HexString.of_N (Z.to_N n).

(** The queue entry made for a chunk by a callback of [setup] and by the
    factory child address worker; [taskOf] is the task for the chunk's
    range. *)
Definition rangeTaskEntry (taskOf : Z → Z → HistoricalSyncTask) (chunk : Interval)
  : QueueEntry HistoricalSyncTask :=
  {| qe_task := taskOf chunk.1 chunk.2;
     qe_priority := MAX_SAFE_INTEGER - chunk.1;
     qe_retry := false |}.

(** The queue with [entries] added behind the queued ones. *)
Definition withQueued (entries : list (QueueEntry HistoricalSyncTask)) (s : Service) : Service :=
  set_queue {| q_queued := q_queued (queue s) ++ entries;
               q_pending := q_pending (queue s);
               q_started := q_started (queue s) |} s.

(** The priority of a queue entry is [MAX_SAFE_INTEGER] minus the block its
    task is ordered by. *)
Definition priorityOk (e : QueueEntry HistoricalSyncTask) : Prop :=
  qe_priority e = MAX_SAFE_INTEGER - taskBlock (qe_task e).

(** The states of a service: made by the constructor, and changed by [setup],
    [start], [kill] and the queue running a task.  A call of one of the two
    callbacks of [setup] counts as a step too: [setup] as it is written never
    calls them, and with them the states cover every place of the source
    that adds a task to the queue. *)
Inductive Reachable : Service → Prop :=
| Reachable_new network eventStore sources :
    Reachable (newHistoricalSyncService network eventStore sources)
| Reachable_setup latestBlockNumber finalizedBlockNumber s :
    Reachable s → Reachable (setup latestBlockNumber finalizedBlockNumber s).1
| Reachable_setupLogFilter latestBlockNumber finalizedBlockNumber logFilter s :
    Reachable s →
    Reachable (setupLogFilter latestBlockNumber finalizedBlockNumber logFilter s).1
| Reachable_setupFactory latestBlockNumber finalizedBlockNumber factory s :
    Reachable s →
    Reachable (setupFactory latestBlockNumber finalizedBlockNumber factory s).1
| Reachable_start hrtime now s :
    Reachable s → Reachable (start hrtime now s)
| Reachable_kill s :
    Reachable s → Reachable (kill s)
| Reachable_runNextTask fuel s s' :
    Reachable s → runNextTask fuel s = Some s' → Reachable s'.

(** The error is one of the two that [_eth_getLogs] reads a range from, and
    its details parse to the range from [a] to [b]. *)
Definition suggestsRange (error : RpcError) (a b : jsnumber) : Prop :=
  (err_class error = InvalidParamsRpcError
   ∧ startsWith (err_details error) "Log response size exceeded." = true
   ∧ suggestedRange "this block range should work: " 1 (err_details error) = inr (a, b))
  ∨ (err_class error = LimitExceededRpcError
     ∧ includes (err_details error) "query returned more than 10000 results" = true
     ∧ suggestedRange "Try with this block range " 2 (err_details error) = inr (a, b)).

(** The error is one of the two that [_eth_getLogs] reads a range from, and
    no range can be read from its details: the marker that precedes the range
    is missing, or no [", "] follows it. *)
Definition suggestsNoRange (error : RpcError) : Prop :=
  (err_class error = InvalidParamsRpcError
   ∧ startsWith (err_details error) "Log response size exceeded." = true
   ∧ suggestedRange "this block range should work: " 1 (err_details error) = inl ExnTypeError)
  ∨ (err_class error = LimitExceededRpcError
     ∧ includes (err_details error) "query returned more than 10000 results" = true
     ∧ suggestedRange "Try with this block range " 2 (err_details error) = inl ExnTypeError).

(** The spec's fallback, in its words: "on parse failure of a suggested range,
    fall back to midpoint split", the split being at
    [m = from + floor((to - from) / 2)] into [[from, m]] and [[m+1, to]]. *)
Definition fallsBackToMidpoint (client : RpcClient) (history : list RpcRequest)
    (options : GetLogsOptions) : Prop :=
  ∃ from to,
    Number_ (opt_fromBlock options) = JInt from
    ∧ Number_ (opt_toBlock options) = JInt to
    ∧ ∀ fuel,
        _eth_getLogs (S fuel) client history options
        = forRetryRanges (_eth_getLogs fuel client) options
            [ (hexOf from, hexOf (from + (to - from) / 2));
              (hexOf (from + (to - from) / 2 + 1), opt_toBlock options) ]
            (history ++ [Eth_getLogs options]) [].

(** ** Scenarios *)

(** Scenario S4: the node refuses the range [[0, 1000]] with a suggestion and
    answers every other request with one log at the start of its range. *)
Definition clientS4 : RpcClient :=
  {| request_getLogs := λ _ options,
       if bool_decide (opt_fromBlock options = "0x0" ∧ opt_toBlock options = "0x3e8")
       then inl {| err_class := InvalidParamsRpcError;
                   err_details :=
                     "Log response size exceeded. this block range should work: [0, 400]" |}
       else inr [ {| log_address := "0xA"; log_blockNumber := opt_fromBlock options;
                     log_transactionHash := "0xh"; log_logIndex := "0x0" |} ];
     request_getBlockByNumber := λ _ _, inr None |}.

(** The node refuses the range [[0, 1000]] without a suggestion. *)
Definition clientNoSuggestion : RpcClient :=
  {| request_getLogs := λ _ options,
       if bool_decide (opt_fromBlock options = "0x0" ∧ opt_toBlock options = "0x3e8")
       then inl {| err_class := InvalidParamsRpcError;
                   err_details := "Log response size exceeded." |}
       else inr [];
     request_getBlockByNumber := λ _ _, inr None |}.

Definition optionsS4 : GetLogsOptions :=
  {| opt_address := Some (OneAddress "0xA"); opt_topics := None;
     opt_fromBlock := "0x0"; opt_toBlock := "0x3e8" |}.

(** A node that answers a request for logs with those of its logs that lie
    in the requested range. *)
Definition inRange (options : GetLogsOptions) (log : RpcLog) : bool :=
  match Number_ (opt_fromBlock options), Number_ (opt_toBlock options) with
  | JInt from, JInt to => bool_decide (from ≤ hexToNumber (log_blockNumber log) ≤ to)
  | _, _ => false
  end.

(** The block with the given number; its timestamp is its number. *)
Definition blockOf (number : Hex) : RpcBlock :=
  {| block_number := number; block_timestamp := number;
     block_transactions := [ {| tx_hash := "0xh1" |}; {| tx_hash := "0xother" |} ] |}.

Definition storeEmpty : EventStore :=
  {| getLogFilterIntervals := λ _ _, [];
     getFactoryLogFilterIntervals := λ _ _, [];
     getFactoryChildAddresses := λ _ _ _ _, [] |}.

(** Scenario S1: one log filter over [[100, 199]] with [maxBlockRange = 50];
    the node has logs at the blocks 110 and 160 only. *)
Definition logFilterS1 : LogFilter :=
  {| lf_name := "Token"; lf_chainId := 1;
     lf_criteria := {| lfc_address := Some (OneAddress "0xA");
                       lfc_topics := Some [OneTopic "0xT"] |};
     lf_startBlock := 100; lf_endBlock := Some 199; lf_maxBlockRange := Some 50 |}.

Definition clientS1 : RpcClient :=
  {| request_getLogs := λ _ options,
       inr (List.filter (inRange options)
              [ mkRpcLog "0xA" (hexOf 110) "0xh1" "0x0";
                mkRpcLog "0xA" (hexOf 160) "0xh2" "0x0" ]);
     request_getBlockByNumber := λ _ number, inr (Some (blockOf number)) |}.

Definition networkOf (client : RpcClient) : Network :=
  {| net_name := "mainnet"; net_chainId := 1; net_client := client;
     defaultMaxBlockRange := 10000; maxRpcRequestConcurrency := 1 |}.

(** The service of scenario S1, started once [setup] has stored the finalized
    block and its log filter callback has run for the filter. *)
Definition serviceS1 : Service :=
  start 0 1700000000499
    (setupLogFilter 250 199 logFilterS1
       (setup 250 199
          (newHistoricalSyncService (networkOf clientS1) storeEmpty
             [LogFilterSource logFilterS1])).1).1.

(** Scenario S6: as S1, but the first [eth_getBlockByNumber] request fails
    with a network error. *)
Definition clientS6 : RpcClient :=
  {| request_getLogs := request_getLogs clientS1;
     request_getBlockByNumber := λ history number,
       if existsb (λ r, match r with Eth_getBlockByNumber _ _ => true | _ => false end) history
       then inr (Some (blockOf number))
       else inl {| err_class := OtherRpcError; err_details := "network error" |} |}.

(** The service of scenario S6, made as the one of S1. *)
Definition serviceS6 : Service :=
  start 0 1700000000499
    (setupLogFilter 250 199 logFilterS1
       (setup 250 199
          (newHistoricalSyncService (networkOf clientS6) storeEmpty
             [LogFilterSource logFilterS1])).1).1.

(** The queue runs [n] tasks. *)
Fixpoint runTasks (n fuel : nat) (s : Service) : option Service :=
  match n with
  | O => Some s
  | S n' =>
      match runNextTask fuel s with
      | Some s' => runTasks n' fuel s'
      | None => None
      end
  end.

(** Scenario S3: a factory at [0xF] over [[100, 199]] with
    [maxBlockRange = 20]; the factory's logs are at the blocks 105 and 180,
    those of its children at 120 and 190. *)
Definition factoryS3 : Factory :=
  {| f_name := "Pool"; f_chainId := 1;
     f_criteria := {| fc_address := "0xF"; fc_eventSelector := "0xS";
                      fc_childAddressLocation := "topic1"; fc_topics := None |};
     f_startBlock := 100; f_endBlock := Some 199; f_maxBlockRange := Some 20 |}.

Definition clientS3 : RpcClient :=
  {| request_getLogs := λ _ options,
       inr (List.filter (inRange options)
              (match opt_address options with
               | Some (OneAddress _) =>
                   [ mkRpcLog "0xF" (hexOf 105) "0xh1" "0x0";
                     mkRpcLog "0xF" (hexOf 180) "0xh2" "0x0" ]
               | _ =>
                   [ mkRpcLog "0xC1" (hexOf 120) "0xh3" "0x0";
                     mkRpcLog "0xC2" (hexOf 190) "0xh4" "0x0" ]
               end));
     request_getBlockByNumber := λ _ number, inr (Some (blockOf number)) |}.

(** A store that has the given intervals of the factory's own logs cached and
    none of the logs of its children. *)
Definition storeS3 (cachedChildAddressIntervals : list Interval) : EventStore :=
  {| getLogFilterIntervals := λ _ _, cachedChildAddressIntervals;
     getFactoryLogFilterIntervals := λ _ _, [];
     getFactoryChildAddresses := λ _ _ _ _, [["0xC1"; "0xC2"]] |}.

(** The service of scenario S3, once [setup] has stored the finalized block
    and its factory callback has run for the factory. *)
Definition serviceS3 : Service :=
  (setupFactory 250 199 factoryS3
     (setup 250 199
        (newHistoricalSyncService (networkOf clientS3) (storeS3 [])
           [FactorySource factoryS3])).1).1.

(** ... after the child address task for [[120, 139]] has run, out of order. *)
Definition serviceS3_outOfOrder : Service :=
  match factoryChildAddressTaskWorker 3 serviceS3 factoryS3 120 139 with
  | Some (s, _) => s
  | None => serviceS3
  end.

(** Every queued entry has the priority of its task. *)
Definition queuePrioritiesOk (s : Service) : Prop :=
  Forall priorityOk (q_queued (queue s)).

(** Every registered network has completed its historical sync. *)
Definition allComplete (g : SyncGateway.t) : Prop :=
  ∀ chain n,
    SyncGateway.networkCheckpoints g !! chain = Some n →
    SyncGateway.n_isHistoricalSyncComplete n = true.

(** ** Further notions for the properties of the workers, of [_eth_getLogs]
    and of the gateway *)

(** The block of a log, as [buildLogIntervals] reads it. *)
Definition blockNumberOf (log : RpcLog) : Z := hexToNumber (log_blockNumber log).




(** The task ran and left the service as [s1]; it was the final task when it
    returned with nothing queued and no other task running. *)
Definition isFinalTask (r : Exn + unit) (s1 : Service) : bool :=
  match r with
  | inl _ => false
  | inr _ => negb (bool_decide (0 < size_ (queue s1))%nat
                   || bool_decide (1 < q_pending (queue s1))%nat)
  end.

(** The entries a worker may add to the queue while it runs [task], [s']
    being the service as the worker leaves it. *)
Definition addedBy (task : HistoricalSyncTask) (s' : Service)
    (e : QueueEntry HistoricalSyncTask) : Prop :=
  match task, qe_task e with
  | LOG_FILTER _ _ _, BLOCK blockNumber _
  | FACTORY_LOG_FILTER _ _ _, BLOCK blockNumber _ =>
      num_leb (Fin blockNumber) (blockTasksEnqueuedCheckpoint s') = true
  | FACTORY_CHILD_ADDRESS factory _ _, FACTORY_LOG_FILTER factory' _ _ => factory' = factory
  | _, _ => False
  end.

(** The events a worker may emit while it runs [task]: a BLOCK task at most
    one [historicalCheckpoint], the others none. *)
Definition emittedBy (task : HistoricalSyncTask) (es : list Effect) : Prop :=
  es = []
  ∨ ∃ blockNumber callbacks number timestamp,
      task = BLOCK blockNumber callbacks
      ∧ es = [Emit (historicalCheckpoint (Some number) timestamp)].

(** What running [task] changed between [s] and [s']. *)
Definition taskFootprint (task : HistoricalSyncTask) (s s' : Service) : Prop :=
  (∃ added, q_queued (queue s') = q_queued (queue s) ++ added
            ∧ Forall (addedBy task s') added)
  ∧ q_pending (queue s') = q_pending (queue s)
  ∧ q_started (queue s') = q_started (queue s)
  ∧ (∃ es, effects s' = effects s ++ es ∧ emittedBy task es)
  ∧ num_leb (blockTasksEnqueuedCheckpoint s) (blockTasksEnqueuedCheckpoint s') = true.

(** Every queued BLOCK task is for a block at or below
    [blockTasksEnqueuedCheckpoint]. *)
Definition blockTasksBelowCheckpoint (s : Service) : Prop :=
  Forall (λ e, match qe_task e with
               | BLOCK blockNumber _ =>
                   num_leb (Fin blockNumber) (blockTasksEnqueuedCheckpoint s) = true
               | _ => True
               end)
         (q_queued (queue s)).

(** A task over a block range, as [setup] makes them. *)
Definition isRangeTask (task : HistoricalSyncTask) : Prop :=
  match task with
  | BLOCK _ _ => False
  | _ => True
  end.

(** [s'] has the queue of [s] with range tasks added behind, none of them a
    retry. *)
Definition addsRangeTasks (s s' : Service) : Prop :=
  ∃ added, queue s' = queue (withQueued added s)
           ∧ Forall (λ e, isRangeTask (qe_task e) ∧ qe_retry e = false) added.


(** The error is none of those [_eth_getLogs] recognises. *)
Definition unrecognised (error : RpcError) : Prop :=
  (err_class error = InvalidParamsRpcError →
   startsWith (err_details error) "Log response size exceeded." = false
   ∧ includes (err_details error) "block range less than 20000" = false)
  ∧ (err_class error = LimitExceededRpcError →
     includes (err_details error) "query returned more than 10000 results" = false)
  ∧ (err_class error = HttpRequestError →
     includes (err_details error)
       "eth_getLogs and eth_newFilter are limited to a 10,000 blocks range" = false).

(** A request for logs with the address and the topics of [options]. *)
Definition sameFilter (options : GetLogsOptions) (request : RpcRequest) : Prop :=
  ∃ options', request = Eth_getLogs options'
              ∧ opt_address options' = opt_address options
              ∧ opt_topics options' = opt_topics options.

(** A node that refuses every request for logs and suggests the range
    [[0, 400]] each time. *)
Definition clientAlwaysRefusing : RpcClient :=
  {| request_getLogs := λ _ _,
       inl {| err_class := InvalidParamsRpcError;
              err_details :=
                "Log response size exceeded. this block range should work: [0, 400]" |};
     request_getBlockByNumber := λ _ _, inr None |}.


(** A node that cannot be reached. *)
Definition clientUnreachable : RpcClient :=
  {| request_getLogs := λ _ _,
       inl {| err_class := HttpRequestError; err_details := "fetch failed" |};
     request_getBlockByNumber := λ _ _,
       inl {| err_class := HttpRequestError; err_details := "fetch failed" |} |}.

(** A service with one pending block, whose BLOCK task is the last task running. *)
Definition serviceLastBlock : Service :=
  set_queued [] 1
    (set_blockProgressTracker (addPendingBlocks newBlockProgressTracker [110])
       (newHistoricalSyncService (networkOf clientS1) storeEmpty [])).

(** The service of scenario S1 while the queue runs its first task: the task
    has left the queued ones and counts as pending. *)
Definition serviceS1_running : Service :=
  set_queued [rangeTaskEntry (LOG_FILTER logFilterS1) (150, 199)] 1 serviceS1.

(** ... as the worker of that task leaves it. *)
Definition serviceS1_worked : Service :=
  match worker 3 (LOG_FILTER logFilterS1 100 149) serviceS1_running with
  | Some (s, _) => s
  | None => serviceS1_running
  end.

(** ... and once the queue has run the task. *)
Definition serviceS1_afterFirstTask : Service :=
  match runNextTask 3 serviceS1 with
  | Some s => s
  | None => serviceS1
  end.


(** The timestamps of the [newCheckpoint] events that the gateway has
    emitted, oldest first. *)
Definition newCheckpoints (g : SyncGateway.t) : list num :=
  omap (λ e, match e with SyncGateway.newCheckpoint timestamp => Some timestamp | _ => None end)
       (SyncGateway.emitted g).

(** The timestamps of its [newFinalityCheckpoint] events, oldest first. *)
Definition newFinalityCheckpoints (g : SyncGateway.t) : list num :=
  omap (λ e, match e with
             | SyncGateway.newFinalityCheckpoint timestamp => Some timestamp
             | _ => None
             end)
       (SyncGateway.emitted g).

(** The [timestamps] are finite, each greater than the one before, the first
    one greater than [start], and the last one is [current] ([start] is, when
    there is none). *)
Definition risesTo (start : num) (timestamps : list num) (current : num) : Prop :=
  StronglySorted (λ a b, num_ltb a b = true) (start :: timestamps)
  ∧ Forall (λ timestamp, ∃ z, timestamp = Fin z) timestamps
  ∧ last (start :: timestamps) = Some current.

(* ===================================================================== *)
(** * Theorems *)
(* ===================================================================== *)

Example buildLogIntervals_S1_first_chunk :
  buildLogIntervals 100 149 [mkRpcLog "0xA" "0x6e" "0xh1" "0x0"]
  = [ mkLogInterval 100 110 [mkRpcLog "0xA" "0x6e" "0xh1" "0x0"] {["0xh1"]};
      mkLogInterval 111 149 [] ∅ ].
Proof. vm_compute. reflexivity. Qed.

(** ** [buildLogIntervals] *)

Section BuildLogIntervals.

Implicit Types (logs : list RpcLog) (bs : list Z).

Lemma groupLog_dom_tx acc log :
  dom (groupLog acc log).2 = dom acc.2 ∪ {[hexToNumber (log_blockNumber log)]}.
Proof.
  destruct acc as [lm tm]; simpl. rewrite dom_insert_L. set_solver.
Qed.

Lemma fold_groupLog_dom_tx logs acc :
  dom (fold_left groupLog logs acc).2
  = dom acc.2 ∪ list_to_set ((λ log, hexToNumber (log_blockNumber log)) <$> logs).
Proof.
  revert acc. induction logs as [|log logs IH]; intros acc; simpl.
  - set_solver.
  - rewrite IH, groupLog_dom_tx. set_solver.
Qed.

Lemma groupLogs_dom_tx logs b :
  b ∈ dom (groupLogs logs).2 ↔ ∃ log, log ∈ logs ∧ hexToNumber (log_blockNumber log) = b.
Proof.
  unfold groupLogs. rewrite fold_groupLog_dom_tx. simpl.
  rewrite dom_empty_L, elem_of_union, elem_of_list_to_set, list_elem_of_fmap.
  split.
  - intros [[]%not_elem_of_empty|(log & -> & Hin)]. eauto.
  - intros (log & Hin & <-). right. eauto.
Qed.

Lemma sort_ascending_elem_of bs b : b ∈ sort_ascending bs ↔ b ∈ bs.
Proof. unfold sort_ascending. by rewrite merge_sort_Permutation. Qed.

Lemma Object_keys_elem_of {V} (o : gmap Z V) b : b ∈ Object_keys o ↔ b ∈ dom o.
Proof.
  unfold Object_keys. rewrite sort_ascending_elem_of, elem_of_dom, list_elem_of_fmap. split.
  - intros [[k v] [-> Hkv]]. apply elem_of_map_to_list in Hkv. by exists v.
  - intros [v Hv]. exists (b, v). split; [done|]. by apply elem_of_map_to_list.
Qed.

Lemma Object_keys_NoDup {V} (o : gmap Z V) : NoDup (Object_keys o).
Proof.
  unfold Object_keys, sort_ascending. rewrite merge_sort_Permutation.
  apply NoDup_fst_map_to_list.
Qed.

Lemma StronglySorted_le_NoDup_lt bs :
  StronglySorted Z.le bs → NoDup bs → StronglySorted Z.lt bs.
Proof.
  induction 1 as [|b bs Hs IH Hall]; intros Hnd; [constructor|].
  apply NoDup_cons in Hnd as [Hnotin Hnd].
  constructor; [by apply IH|].
  rewrite Forall_forall in Hall |- *. intros y Hy.
  specialize (Hall y Hy). assert (b ≠ y) by (intros ->; done). lia.
Qed.

Lemma sort_ascending_strict bs : NoDup bs → StronglySorted Z.lt (sort_ascending bs).
Proof.
  intros Hnd. apply StronglySorted_le_NoDup_lt.
  - unfold sort_ascending. apply StronglySorted_merge_sort; apply _.
  - unfold sort_ascending. by rewrite merge_sort_Permutation.
Qed.

Lemma StronglySorted_lt_snoc bs t :
  StronglySorted Z.lt bs → (∀ b, b ∈ bs → b < t) → StronglySorted Z.lt (bs ++ [t]).
Proof.
  intros Hs Hlt. apply StronglySorted_app_2; [|done|repeat constructor].
  intros x1 x2 H1 ->%list_elem_of_singleton. by apply Hlt.
Qed.

Lemma StronglySorted_lt_last_max bs t :
  StronglySorted Z.lt bs → t ∈ bs → (∀ b, b ∈ bs → b ≤ t) → last bs = Some t.
Proof.
  induction 1 as [|b bs Hs IH Hall]; intros Hin Hmax; [by apply elem_of_nil in Hin|].
  rewrite Forall_forall in Hall.
  destruct bs as [|b' bs'].
  - apply list_elem_of_singleton in Hin as ->. done.
  - change (last (b :: b' :: bs')) with (last (b' :: bs')). apply IH.
    + apply elem_of_cons in Hin as [->|Hin]; [|done].
      assert (b' ≤ b) by (apply Hmax; set_solver).
      assert (b < b') by (apply Hall; set_solver). lia.
    + intros y Hy. apply Hmax. set_solver.
Qed.

(** The block numbers the loop runs over: strictly ascending, all at or after
    [fromBlock], ending at [toBlock]. *)
Lemma requiredBlocksOf_shape fromBlock toBlock logs :
  Forall (λ log, fromBlock ≤ hexToNumber (log_blockNumber log) ≤ toBlock) logs →
  let bs := requiredBlocksOf (groupLogs logs).2 toBlock in
  StronglySorted Z.lt bs ∧ last bs = Some toBlock ∧
  (fromBlock ≤ toBlock → ∀ b, b ∈ bs → fromBlock ≤ b).
Proof.
  intros Hlogs. rewrite Forall_forall in Hlogs.
  set (tm := (groupLogs logs).2).
  assert (Hkeys : ∀ b, b ∈ sort_ascending (Object_keys tm) → fromBlock ≤ b ≤ toBlock).
  { intros b Hb. apply sort_ascending_elem_of, Object_keys_elem_of, groupLogs_dom_tx in Hb
      as (log & Hlog & <-). by apply Hlogs. }
  assert (Hsorted : StronglySorted Z.lt (sort_ascending (Object_keys tm)))
    by apply sort_ascending_strict, Object_keys_NoDup.
  unfold requiredBlocksOf; simpl. case_bool_decide as Hin.
  - split_and!; [done| |].
    + apply StronglySorted_lt_last_max; [done..|]. intros b Hb. by apply Hkeys.
    + intros _ b Hb. by apply Hkeys.
  - split_and!.
    + apply StronglySorted_lt_snoc; [done|]. intros b Hb.
      assert (b ≠ toBlock) by (intros ->; done). specialize (Hkeys b Hb). lia.
    + by rewrite last_snoc.
    + intros Hle b [Hb| ->%list_elem_of_singleton]%elem_of_app; [by apply Hkeys|done].
Qed.

Lemma intervalsFrom_shape lm tm bs : ∀ prev,
  bs ≠ [] → StronglySorted Z.lt bs → (∀ b, b ∈ bs → prev ≤ b) →
  let intervals := intervalsFrom lm tm prev bs in
  li_startBlock <$> head intervals = Some prev ∧
  (∀ i a b, intervals !! i = Some a → intervals !! S i = Some b →
            li_startBlock b = li_endBlock a + 1) ∧
  li_endBlock <$> last intervals = last bs ∧
  Forall (λ a, li_startBlock a ≤ li_endBlock a) intervals ∧
  (∀ n t, last bs = Some t → prev ≤ n ≤ t →
          ∃ a, a ∈ intervals ∧ li_startBlock a ≤ n ≤ li_endBlock a).
Proof.
  induction bs as [|b bs IH]; intros prev Hne Hs Hge; [done|].
  apply StronglySorted_inv in Hs as [Hs Hall]. rewrite Forall_forall in Hall.
  assert (prev ≤ b) by (apply Hge; set_solver).
  destruct bs as [|b' bs'].
  { simpl. split_and!; [done| |done| |].
    - intros [|i] a c; simpl; [|done]. intros _ Hc. done.
    - repeat constructor. simpl. lia.
    - intros n t [= <-] Hn. eexists. split; [apply list_elem_of_here|]. simpl. lia. }
  destruct (IH (b + 1)) as (Hhead & Hadj & Hlast & Hwf & Hcov); [done|done| |].
  { intros y Hy. specialize (Hall y Hy). lia. }
  cbn zeta. change (intervalsFrom lm tm prev (b :: b' :: bs')) with
    ({| li_startBlock := prev; li_endBlock := b;
        li_logs := default [] (lm !! b);
        li_transactionHashes := default ∅ (tm !! b) |}
     :: intervalsFrom lm tm (b + 1) (b' :: bs')).
  set (rest := intervalsFrom lm tm (b + 1) (b' :: bs')) in *.
  split_and!.
  - done.
  - intros [|i] a c; simpl.
    + intros [= <-] Hc. simpl.
      destruct rest as [|r rest']; [done|]. simpl in *. by simplify_eq.
    + apply Hadj.
  - change (last (b :: b' :: bs')) with (last (b' :: bs')). rewrite <- Hlast.
    destruct rest as [|r rest']; [done|done].
  - constructor; [simpl; lia|done].
  - intros n t Ht Hn. destruct (decide (n ≤ b)) as [Hnb|Hnb].
    + eexists. split; [apply list_elem_of_here|]. simpl. lia.
    + destruct (Hcov n t) as (a & Ha & Hrange); [done|lia|].
      exists a. split; [by apply list_elem_of_further|done].
Qed.

End BuildLogIntervals.

(** C1. For [fromBlock <= toBlock] and logs whose block numbers lie in
    [[fromBlock, toBlock]], [buildLogIntervals] returns a non-empty list of
    intervals that partitions the range: the first starts at [fromBlock], each
    next one starts right after the previous one ends, the last ends at
    [toBlock]; no interval is empty and every block of the range is covered.
    For an empty log list the result is the single interval
    [[fromBlock, toBlock]] with no logs and no transaction hashes. *)
Theorem buildLogIntervals_partitions (fromBlock toBlock : Z) (logs : list RpcLog) :
  fromBlock ≤ toBlock →
  Forall (λ log, fromBlock ≤ hexToNumber (log_blockNumber log) ≤ toBlock) logs →
  let intervals := buildLogIntervals fromBlock toBlock logs in
  intervals ≠ [] ∧
  li_startBlock <$> head intervals = Some fromBlock ∧
  (∀ i a b, intervals !! i = Some a → intervals !! S i = Some b →
            li_startBlock b = li_endBlock a + 1) ∧
  li_endBlock <$> last intervals = Some toBlock ∧
  Forall (λ a, li_startBlock a ≤ li_endBlock a) intervals ∧
  (∀ n, fromBlock ≤ n ≤ toBlock →
        ∃ a, a ∈ intervals ∧ li_startBlock a ≤ n ≤ li_endBlock a) ∧
  (logs = [] →
   intervals = [ {| li_startBlock := fromBlock; li_endBlock := toBlock;
                    li_logs := []; li_transactionHashes := ∅ |} ]).
Proof.
  intros Hle Hlogs.
  destruct (requiredBlocksOf_shape fromBlock toBlock logs Hlogs) as (Hs & Hlast & Hge).
  unfold buildLogIntervals. destruct (groupLogs logs) as [lm tm] eqn:Hgroup.
  simpl in Hs, Hlast, Hge. cbn zeta.
  set (bs := requiredBlocksOf tm toBlock) in *.
  assert (Hne : bs ≠ []) by (intros Hnil; by rewrite Hnil in Hlast).
  destruct (intervalsFrom_shape lm tm bs fromBlock Hne Hs (Hge Hle))
    as (Hhead & Hadj & Hend & Hwf & Hcov).
  split_and!; try done.
  - intros Hnil. by rewrite Hnil in Hhead.
  - by rewrite Hend.
  - intros n Hn. by apply (Hcov n toBlock).
  - intros ->. unfold groupLogs in Hgroup. simpl in Hgroup. by simplify_eq.
Qed.

(** The claim at a concrete input: two logs in one block and one in another. *)
Lemma buildLogIntervals_partitions_witness :
  let logs := [ mkRpcLog "0xA" "0x6e" "0xh1" "0x0";
                mkRpcLog "0xA" "0xa0" "0xh2" "0x0";
                mkRpcLog "0xA" "0x6e" "0xh3" "0x1" ] in
  let intervals := buildLogIntervals 100 199 logs in
  intervals ≠ [] ∧
  li_startBlock <$> head intervals = Some 100 ∧
  (∀ i a b, intervals !! i = Some a → intervals !! S i = Some b →
            li_startBlock b = li_endBlock a + 1) ∧
  li_endBlock <$> last intervals = Some 199 ∧
  Forall (λ a, li_startBlock a ≤ li_endBlock a) intervals ∧
  (∀ n, 100 ≤ n ≤ 199 →
        ∃ a, a ∈ intervals ∧ li_startBlock a ≤ n ≤ li_endBlock a) ∧
  (logs = [] →
   intervals = [ {| li_startBlock := 100; li_endBlock := 199;
                    li_logs := []; li_transactionHashes := ∅ |} ]).
Proof.
  apply (buildLogIntervals_partitions 100 199).
  - lia.
  - repeat constructor; vm_compute; discriminate.
Defined.

(** ** JavaScript strings: sanity checks *)

Example split_suggestion :
  split "Log response size exceeded. this block range should work: [0, 400]"
        "this block range should work: "
  = ["Log response size exceeded. "; "[0, 400]"].
Proof. reflexivity. Qed.

Example split_no_separator : split "abc" ", " = ["abc"].
Proof. reflexivity. Qed.

Example split_trailing_separator : split "a, b, " ", " = ["a"; "b"; ""].
Proof. reflexivity. Qed.

Example slice_examples :
  slice_1 "[0" = "0" ∧ slice_0_neg 1 "400]" = "400" ∧ slice_0_neg 2 "400]." = "400"
  ∧ slice_1 "" = "" ∧ slice_0_neg 1 "" = "".
Proof. repeat split. Qed.

Example Number_examples :
  Number_ "400" = JInt 400 ∧ Number_ "0x190" = JInt 400 ∧ Number_ " 12 " = JInt 12
  ∧ Number_ "" = JInt 0 ∧ Number_ "-7" = JInt (-7) ∧ Number_ "4a" = JNaN
  ∧ Number_ "0x" = JNaN ∧ Number_ "-" = JNaN.
Proof. repeat split. Qed.

Example toHex_examples :
  toHex (JInt 0) = inr "0x0" ∧ toHex (JInt 1000) = inr "0x3e8"
  ∧ toHex (JInt (-1)) = inl ExnToHex ∧ toHex JNaN = inl ExnToHex
  ∧ stringToHex "0x0" = "0x307830".
Proof. repeat split. Qed.

Example Math_min_examples :
  Math_min [] = PosInf ∧ Math_min [5; 3; 9] = Fin 3 ∧ Math_max [] = NegInf
  ∧ Math_max [5; 3; 9] = Fin 9.
Proof. repeat split. Qed.

(** ** Intervals: sanity checks on the spec's examples *)

Example intervalUnion_adjacent : intervalUnion [(4, 6); (1, 3)] = [(1, 6)].
Proof. reflexivity. Qed.

Example getChunks_S1 : getChunks [(100, 199)] 50 = [(100, 149); (150, 199)].
Proof. reflexivity. Qed.

Example getChunks_gap : getChunks [(1, 5); (10, 12)] 3 = [(1, 3); (4, 5); (10, 12)].
Proof. reflexivity. Qed.

Example intervalDifference_example :
  intervalDifference [(100, 199)] [(100, 149); (160, 170)] = [(150, 159); (171, 199)].
Proof. reflexivity. Qed.

Example tracker_S2 :
  let t := newProgressTracker (100, 199) [(100, 149)] in
  getCheckpoint t = 149 ∧ getRequired t = [(150, 199)]
  ∧ (addCompletedInterval t (150, 199)).2
    = {| isUpdated := true; prevCheckpoint := 149; newCheckpoint := 199 |}.
Proof. repeat split. Qed.

Example takeNext_priority :
  takeNext [mkQueueEntry "b" 5 false; mkQueueEntry "a" 9 false; mkQueueEntry "c" 9 false]
  = Some (mkQueueEntry "a" 9 false, [mkQueueEntry "b" 5 false; mkQueueEntry "c" 9 false]).
Proof. reflexivity. Qed.

(** ** [enqueueBlockTasks] *)

Section EnqueueBlockTasks.

Implicit Types (s : Service) (bs : list Z).

Lemma fold_enqueueBlockTask bs : ∀ s,
  NoDup bs →
  fold_left enqueueBlockTask bs s
  = set_blockCallbacks (fold_left (λ m b, delete b m) bs (blockCallbacks s))
      (set_queue {| q_queued := q_queued (queue s) ++ (blockTaskEntry s <$> bs);
                    q_pending := q_pending (queue s);
                    q_started := q_started (queue s) |} s).
Proof.
  induction bs as [|b bs IH]; intros s Hnd.
  - destruct s as [? ? ? ? ? ? ? ? ? ? q ? ? ? ? ? ?]; destruct q; simpl.
    by rewrite app_nil_r.
  - apply NoDup_cons in Hnd as [Hb Hnd]. simpl. rewrite IH by done.
    assert (Hentries : blockTaskEntry (enqueueBlockTask s b) <$> bs = blockTaskEntry s <$> bs).
    { apply list_fmap_ext. intros i b' Hb'. unfold blockTaskEntry. simpl.
      rewrite lookup_delete_ne; [done|]. intros ->.
      apply Hb. by eapply list_elem_of_lookup_2. }
    rewrite Hentries. destruct s; simpl. unfold set_blockCallbacks, set_queue; simpl.
    by rewrite <- app_assoc.
Qed.

Lemma lookup_fold_delete {V} bs (m : gmap Z V) k :
  fold_left (λ m b, delete b m) bs m !! k = if decide (k ∈ bs) then None else m !! k.
Proof.
  revert m. induction bs as [|b bs IH]; intros m; cbn [fold_left].
  - case_decide as Hin; [by apply elem_of_nil in Hin|done].
  - rewrite IH. repeat case_decide; try done.
    + set_solver.
    + destruct (decide (k = b)) as [->|Hne]; [by rewrite lookup_delete_eq|set_solver].
    + rewrite lookup_delete_ne; [done|]. set_solver.
Qed.

Lemma Math_min_lower_bound xs x : x ∈ xs → num_leb (Math_min xs) (Fin x) = true.
Proof.
  induction xs as [|y xs IH]; intros Hin; [by apply elem_of_nil in Hin|].
  unfold num_leb in *. simpl. unfold num_min.
  apply elem_of_cons in Hin as [->|Hin].
  - destruct (Math_min xs) as [|m|]; simpl; repeat case_bool_decide; simpl;
      repeat case_bool_decide; try done; lia.
  - specialize (IH Hin). destruct (Math_min xs) as [|m|]; simpl in *;
      repeat case_bool_decide; simpl; repeat case_bool_decide; try done; lia.
Qed.

Lemma Math_min_attained xs :
  (xs = [] ∧ Math_min xs = PosInf) ∨ (∃ x, x ∈ xs ∧ Math_min xs = Fin x).
Proof.
  induction xs as [|y xs IH]; [by left|right].
  simpl. unfold num_min. destruct IH as [[-> ->]|(x & Hx & ->)]; simpl.
  - exists y. split; [set_solver|done].
  - case_bool_decide; [exists x|exists y]; (split; [set_solver|done]).
Qed.

Lemma elem_of_Object_values {K V} `{Countable K} (o : gmap K V) v :
  v ∈ Object_values o ↔ ∃ k, o !! k = Some v.
Proof.
  unfold Object_values. rewrite list_elem_of_fmap. split.
  - intros [[k v'] [-> Hkv]]. exists k. by apply elem_of_map_to_list.
  - intros [k Hk]. exists (k, v). split; [done|]. by apply elem_of_map_to_list.
Qed.

Lemma Object_values_empty {K V} `{Countable K} (o : gmap K V) :
  Object_values o = [] ↔ o = ∅.
Proof.
  unfold Object_values. split.
  - intros Hnil. apply fmap_nil_inv in Hnil. by apply map_to_list_empty_iff.
  - intros ->. by rewrite map_to_list_empty.
Qed.

(** The checkpoints [Math.min] is applied to are those of the range trackers. *)
Lemma elem_of_checkpoints s c :
  c ∈ (getCheckpoint <$> Object_values (logFilterProgressTrackers s))
      ++ (getCheckpoint <$> Object_values (factoryChildAddressProgressTrackers s))
      ++ (getCheckpoint <$> Object_values (factoryLogFilterProgressTrackers s))
  ↔ ∃ t, isRangeTracker s t ∧ c = getCheckpoint t.
Proof.
  rewrite !elem_of_app, !list_elem_of_fmap. unfold isRangeTracker.
  setoid_rewrite elem_of_Object_values. naive_solver.
Qed.

End EnqueueBlockTasks.

(** ** Adding tasks to the queue *)

Section AddTasks.

Implicit Types (s : Service) (chunks : list Interval).

Lemma withQueued_nil s : withQueued [] s = s.
Proof.
  destruct s as [? ? ? ? ? ? ? ? ? ? q ? ? ? ? ? ?]; destruct q.
  unfold withQueued, set_queue; simpl. by rewrite app_nil_r.
Qed.

Lemma withQueued_app entries1 entries2 s :
  withQueued entries2 (withQueued entries1 s) = withQueued (entries1 ++ entries2) s.
Proof. unfold withQueued, set_queue; simpl. by rewrite app_assoc. Qed.

Lemma queue_addTask_withQueued task priority retry s :
  queue_addTask task priority retry s
  = withQueued [ {| qe_task := task; qe_priority := priority; qe_retry := retry |} ] s.
Proof. reflexivity. Qed.

Lemma fold_addTask (taskOf : Z → Z → HistoricalSyncTask) chunks : ∀ s,
  fold_left (λ s '(fromBlock, toBlock),
               queue_addTask (taskOf fromBlock toBlock) (MAX_SAFE_INTEGER - fromBlock) false s)
            chunks s
  = withQueued (rangeTaskEntry taskOf <$> chunks) s.
Proof.
  induction chunks as [|[fromBlock toBlock] chunks IH]; intros s; simpl.
  - by rewrite withQueued_nil.
  - rewrite IH, queue_addTask_withQueued, withQueued_app. done.
Qed.

Lemma addLogFilterTasks_withQueued logFilter chunks s :
  addLogFilterTasks logFilter chunks s
  = withQueued (rangeTaskEntry (LOG_FILTER logFilter) <$> chunks) s.
Proof. apply (fold_addTask (LOG_FILTER logFilter)). Qed.

Lemma addFactoryChildAddressTasks_withQueued factory chunks s :
  addFactoryChildAddressTasks factory chunks s
  = withQueued (rangeTaskEntry (FACTORY_CHILD_ADDRESS factory) <$> chunks) s.
Proof. apply (fold_addTask (FACTORY_CHILD_ADDRESS factory)). Qed.

Lemma addFactoryLogFilterTasks_withQueued factory chunks s :
  addFactoryLogFilterTasks factory chunks s
  = withQueued (rangeTaskEntry (FACTORY_LOG_FILTER factory) <$> chunks) s.
Proof. apply (fold_addTask (FACTORY_LOG_FILTER factory)). Qed.

End AddTasks.

(** The keys that [enqueueBlockTasks] takes. *)
Lemma newBlocks_keys (s : Service) (T : num) :
  let newBlocks := List.filter (λ b, num_leb (Fin b) T) (Object_keys (blockCallbacks s)) in
  NoDup newBlocks
  ∧ ∀ b, b ∈ newBlocks ↔ is_Some (blockCallbacks s !! b) ∧ num_leb (Fin b) T = true.
Proof.
  split.
  - apply NoDup_ListNoDup, List.NoDup_filter, NoDup_ListNoDup, Object_keys_NoDup.
  - intros b.
    rewrite list_elem_of_In, List.filter_In, <- list_elem_of_In, Object_keys_elem_of,
      elem_of_dom. done.
Qed.

(** [enqueueBlockTasks] when the gate opens. *)
Lemma enqueueBlockTasks_open (s : Service) :
  let T := blockTasksCanBeEnqueuedTo s in
  let newBlocks := List.filter (λ b, num_leb (Fin b) T) (Object_keys (blockCallbacks s)) in
  num_ltb (blockTasksEnqueuedCheckpoint s) T = true →
  enqueueBlockTasks s
  = set_blockTasksEnqueuedCheckpoint T
      (set_blockCallbacks
         (filter (λ kv, num_leb (Fin kv.1) T = false) (blockCallbacks s))
         (withQueued (blockTaskEntry s <$> newBlocks)
            (set_blockProgressTracker
               (addPendingBlocks (blockProgressTracker s) newBlocks) s))).
Proof.
  intros T newBlocks Hgt. destruct (newBlocks_keys s T) as [Hnd Hkeys].
  unfold enqueueBlockTasks. fold T. rewrite Hgt. fold newBlocks.
  rewrite fold_enqueueBlockTask by done.
  assert (Hcallbacks :
    fold_left (λ m b, delete b m) newBlocks (blockCallbacks s)
    = filter (λ kv, num_leb (Fin kv.1) T = false) (blockCallbacks s)).
  { apply map_eq. intros k. rewrite lookup_fold_delete.
    destruct (blockCallbacks s !! k) as [callbacks|] eqn:Hk.
    - destruct (num_leb (Fin k) T) eqn:Hle.
      + rewrite decide_True by (apply Hkeys; eauto). symmetry.
        apply map_lookup_filter_None. right. intros x _. simpl. by rewrite Hle.
      + rewrite decide_False by (intros [_ ?]%Hkeys; congruence).
        symmetry. by apply map_lookup_filter_Some.
    - destruct (decide (k ∈ newBlocks)); symmetry; apply map_lookup_filter_None; by left. }
  destruct s; simpl in *. unfold set_blockTasksEnqueuedCheckpoint, set_blockCallbacks,
    withQueued, set_queue, set_blockProgressTracker; simpl. by rewrite Hcallbacks.
Qed.

Lemma enqueueBlockTasks_closed (s : Service) :
  num_ltb (blockTasksEnqueuedCheckpoint s) (blockTasksCanBeEnqueuedTo s) = false →
  enqueueBlockTasks s = s.
Proof. intros Hle. unfold enqueueBlockTasks. by rewrite Hle. Qed.

(** C2. [enqueueBlockTasks] computes [T], the minimum of the checkpoints of
    all range trackers of the three kinds ([Infinity] when there is none).
    When [T] exceeds [blockTasksEnqueuedCheckpoint], the keys of
    [blockCallbacks] that are at most [T] (each once) are added as pending to
    the block tracker, one BLOCK task per key is enqueued with the callbacks
    at that key and priority [MAX_SAFE_INTEGER - blockNumber], these keys are
    deleted from [blockCallbacks] and [blockTasksEnqueuedCheckpoint] becomes
    [T]; nothing else changes.  Otherwise the service is left as it was. *)
Theorem enqueueBlockTasks_gate (s : Service) :
  let T := blockTasksCanBeEnqueuedTo s in
  let newBlocks :=
    List.filter (λ b, num_leb (Fin b) T) (Object_keys (blockCallbacks s)) in
  (* T is the minimum of the checkpoints *)
  ((∀ t, isRangeTracker s t → num_leb T (Fin (getCheckpoint t)) = true)
   ∧ ((T = PosInf ∧ ∀ t, ¬ isRangeTracker s t)
      ∨ (∃ t, isRangeTracker s t ∧ T = Fin (getCheckpoint t))))
  (* the keys taken are exactly the keys at most T, with their callbacks *)
  ∧ (NoDup newBlocks
     ∧ ∀ b, b ∈ newBlocks ↔ is_Some (blockCallbacks s !! b) ∧ num_leb (Fin b) T = true)
  ∧ (∀ b, b ∈ newBlocks →
          ∃ callbacks, blockCallbacks s !! b = Some callbacks
                       ∧ blockTaskEntry s b
                         = {| qe_task := BLOCK b callbacks;
                              qe_priority := MAX_SAFE_INTEGER - b;
                              qe_retry := false |})
  (* T > blockTasksEnqueuedCheckpoint *)
  ∧ (num_ltb (blockTasksEnqueuedCheckpoint s) T = true →
     enqueueBlockTasks s
     = set_blockTasksEnqueuedCheckpoint T
         (set_blockCallbacks
            (filter (λ kv, num_leb (Fin kv.1) T = false) (blockCallbacks s))
            (set_queue
               {| q_queued := q_queued (queue s) ++ (blockTaskEntry s <$> newBlocks);
                  q_pending := q_pending (queue s);
                  q_started := q_started (queue s) |}
               (set_blockProgressTracker
                  (addPendingBlocks (blockProgressTracker s) newBlocks) s))))
  (* T <= blockTasksEnqueuedCheckpoint *)
  ∧ (num_ltb (blockTasksEnqueuedCheckpoint s) T = false → enqueueBlockTasks s = s).
Proof.
  intros T newBlocks. pose proof (newBlocks_keys s T) as Hkeys.
  split_and!.
  - intros t Ht. apply Math_min_lower_bound, elem_of_checkpoints. eauto.
  - destruct (Math_min_attained
                ((getCheckpoint <$> Object_values (logFilterProgressTrackers s))
                 ++ (getCheckpoint <$> Object_values (factoryChildAddressProgressTrackers s))
                 ++ (getCheckpoint <$> Object_values (factoryLogFilterProgressTrackers s))))
      as [[Hnil HT]|(c & Hc & HT)].
    + left. split; [done|]. intros t Ht.
      assert (Hin : getCheckpoint t ∈
                (getCheckpoint <$> Object_values (logFilterProgressTrackers s))
                ++ (getCheckpoint <$> Object_values (factoryChildAddressProgressTrackers s))
                ++ (getCheckpoint <$> Object_values (factoryLogFilterProgressTrackers s)))
        by (apply elem_of_checkpoints; eauto).
      rewrite Hnil in Hin. by apply elem_of_nil in Hin.
    + right. apply elem_of_checkpoints in Hc as (t & Ht & ->). eauto.
  - apply Hkeys.
  - apply Hkeys.
  - intros b [[callbacks Hb] _]%Hkeys. exists callbacks. split; [done|].
    unfold blockTaskEntry. by rewrite Hb.
  - apply enqueueBlockTasks_open.
  - apply enqueueBlockTasks_closed.
Qed.


(** ** [start] *)

Lemma roundToSeconds_nearest (ms : Z) :
  1000 * roundToSeconds ms - 500 ≤ ms < 1000 * roundToSeconds ms + 500.
Proof.
  unfold roundToSeconds.
  pose proof (Z.div_mod (ms + 500) 1000 ltac:(lia)).
  pose proof (Z.mod_pos_bound (ms + 500) 1000 ltac:(lia)). lia.
Qed.

(** ** Chunks *)

Section Chunks.

Implicit Types (chunks intervals : list Interval) (n : Z).

Lemma Tiles_bounds from to chunks : Tiles from to chunks → from - 1 ≤ to.
Proof. induction 1; lia. Qed.

Lemma Tiles_covered from to chunks :
  Tiles from to chunks → ∀ n, covered n chunks ↔ from ≤ n ≤ to.
Proof.
  induction 1 as [from|from mid to rest Hle Htiles IH]; intros n; unfold covered in *.
  - split; [|lia]. intros (i & Hi & _). by apply elem_of_nil in Hi.
  - assert (Hto : mid ≤ to) by (apply Tiles_bounds in Htiles; lia).
    split.
    + intros (i & [->|Hi]%elem_of_cons & Hn); simpl in *.
      * lia.
      * assert (mid + 1 ≤ n ≤ to) by (apply IH; eauto). lia.
    + intros Hn. destruct (decide (n ≤ mid)).
      * exists (from, mid). split; [apply list_elem_of_here|simpl; lia].
      * destruct (proj2 (IH n)) as (i & Hi & Hrange); [lia|].
        exists i. split; [by apply list_elem_of_further|done].
Qed.

Lemma Tiles_nonempty_intervals from to chunks :
  Tiles from to chunks → Forall (λ c : Interval, c.1 ≤ c.2) chunks.
Proof. induction 1; constructor; done. Qed.

Lemma chunksOf_tiles maxChunkSize :
  0 < maxChunkSize →
  ∀ fuel from to,
    from ≤ to + 1 → (Z.to_nat (to - from + 1) ≤ fuel)%nat →
    Tiles from to (chunksOf fuel maxChunkSize from to)
    ∧ Forall (λ c : Interval, c.2 - c.1 + 1 ≤ maxChunkSize)
             (chunksOf fuel maxChunkSize from to).
Proof.
  intros Hpos. induction fuel as [|fuel IH]; intros from to Hle Hfuel.
  - assert (to = from - 1) as -> by lia. simpl. split; constructor.
  - simpl. case_bool_decide as Hnonempty.
    + destruct (IH (Z.min (from + maxChunkSize - 1) to + 1) to) as [Htiles Hwidth];
        [lia|lia|].
      split.
      * constructor; [lia|done].
      * constructor; [simpl; lia|done].
    + assert (to = from - 1) as -> by lia. split; constructor.
Qed.

Lemma chunksOf_empty fuel maxChunkSize from to :
  to < from → chunksOf fuel maxChunkSize from to = [].
Proof. intros Hlt. destruct fuel; simpl; [done|]. by rewrite bool_decide_eq_false_2 by lia. Qed.

(** The chunks of one range of blocks tile it, and none is wider than
    [maxChunkSize]. *)
Lemma getChunks_single from to maxChunkSize :
  0 < maxChunkSize → from ≤ to + 1 →
  Tiles from to (getChunks [(from, to)] maxChunkSize)
  ∧ Forall (λ c : Interval, c.2 - c.1 + 1 ≤ maxChunkSize)
           (getChunks [(from, to)] maxChunkSize).
Proof.
  intros Hpos Hle. unfold getChunks. simpl. rewrite app_nil_r.
  by apply chunksOf_tiles.
Qed.

(** The chunks of a list of intervals cover the blocks of these intervals and
    no other. *)
Lemma getChunks_covered intervals maxChunkSize n :
  0 < maxChunkSize → covered n (getChunks intervals maxChunkSize) ↔ covered n intervals.
Proof.
  intros Hpos. unfold getChunks, covered.
  setoid_rewrite list_elem_of_In. setoid_rewrite in_flat_map.
  setoid_rewrite <- list_elem_of_In. split.
  - intros (c & ([from to] & Hin & Hc) & Hn). exists (from, to). split; [done|]. simpl.
    destruct (decide (from ≤ to)) as [Hle|Hgt].
    + destruct (chunksOf_tiles maxChunkSize Hpos (Z.to_nat (to - from + 1)) from to)
        as [Htiles _]; [lia|lia|].
      apply (Tiles_covered _ _ _ Htiles). by exists c.
    + rewrite chunksOf_empty in Hc by lia. by apply elem_of_nil in Hc.
  - intros ([from to] & Hin & Hn). simpl in Hn.
    destruct (chunksOf_tiles maxChunkSize Hpos (Z.to_nat (to - from + 1)) from to)
      as [Htiles _]; [lia|lia|].
    destruct (proj2 (Tiles_covered _ _ _ Htiles n) Hn) as (c & Hc & Hrange).
    exists c. split; [|done]. by exists (from, to).
Qed.

Lemma getChunks_width intervals maxChunkSize :
  0 < maxChunkSize →
  Forall (λ c : Interval, c.1 ≤ c.2 ∧ c.2 - c.1 + 1 ≤ maxChunkSize)
         (getChunks intervals maxChunkSize).
Proof.
  intros Hpos. unfold getChunks. apply Forall_forall. intros c Hc.
  apply list_elem_of_In, in_flat_map in Hc as ([from to] & _ & Hc).
  apply list_elem_of_In in Hc.
  destruct (decide (from ≤ to)) as [Hle|Hgt].
  - destruct (chunksOf_tiles maxChunkSize Hpos (Z.to_nat (to - from + 1)) from to)
      as [Htiles Hwidth]; [lia|lia|].
    apply Tiles_nonempty_intervals in Htiles.
    rewrite Forall_forall in Htiles, Hwidth. split; [by apply Htiles|by apply Hwidth].
  - rewrite chunksOf_empty in Hc by lia. by apply elem_of_nil in Hc.
Qed.

Lemma intervalMinus_covered (a b : Interval) n :
  covered n (intervalMinus a b) ↔ a.1 ≤ n ≤ a.2 ∧ ¬ (b.1 ≤ n ≤ b.2).
Proof.
  unfold covered, intervalMinus. destruct a as [a1 a2], b as [b1 b2]; simpl.
  split.
  - intros (i & Hi & Hn). repeat case_bool_decide;
      repeat (apply elem_of_app in Hi as [Hi|Hi] || apply elem_of_cons in Hi as [->|Hi]
              || apply elem_of_nil in Hi); simpl in *; try done; lia.
  - intros [Ha Hb]. repeat case_bool_decide.
    all: try (exists (a1, a2); split; [set_solver|simpl; lia]).
    all: destruct (decide (n < b1));
      [ try (exists (a1, b1 - 1); split; [set_solver|simpl; lia]); lia
      | try (exists (b2 + 1, a2); split; [set_solver|simpl; lia]); lia ].
Qed.

(** The difference covers the blocks of [initial] that [remove] does not. *)
Lemma intervalDifference_covered initial remove n :
  covered n (intervalDifference initial remove) ↔ covered n initial ∧ ¬ covered n remove.
Proof.
  unfold intervalDifference. revert initial.
  induction remove as [|b remove IH]; intros initial; simpl.
  - split; [|tauto]. intros H. split; [done|]. intros (i & Hi & _). by apply elem_of_nil in Hi.
  - rewrite IH. 
    assert (Hstep : covered n (flat_map (λ a, intervalMinus a b) initial)
                    ↔ covered n initial ∧ ¬ (b.1 ≤ n ≤ b.2)).
    { unfold covered at 1. setoid_rewrite list_elem_of_In. setoid_rewrite in_flat_map.
      setoid_rewrite <- list_elem_of_In. split.
      - intros (i & (a & Ha & Hi) & Hn).
        assert (Hcov : covered n (intervalMinus a b)) by (by exists i).
        apply intervalMinus_covered in Hcov as [? ?]. split; [by exists a|done].
      - intros [(a & Ha & Hn) Hb].
        destruct (proj2 (intervalMinus_covered a b n)) as (i & Hi & Hrange); [done|].
        exists i. split; [by exists a|done]. }
    rewrite Hstep. unfold covered at 3 4. split.
    + intros [[Hinit Hb] Hrem]. split; [done|].
      intros (i & [->|Hi]%elem_of_cons & Hn); [done|]. apply Hrem. by exists i.
    + intros [Hinit Hrem]. split; [split; [done|]|].
      * intros Hb. apply Hrem. exists b. split; [apply list_elem_of_here|done].
      * intros (i & Hi & Hn). apply Hrem. exists i. split; [by apply list_elem_of_further|done].
Qed.

End Chunks.

(** ** What the workers change *)

#[local] Arguments addCompletedInterval : simpl never.
#[local] Arguments getChunks : simpl never.
#[local] Arguments getCheckpoint : simpl never.
#[local] Arguments getRequired : simpl never.
#[local] Arguments newProgressTracker : simpl never.
#[local] Arguments intervalDifference : simpl never.
#[local] Arguments intervalSum : simpl never.
#[local] Arguments buildLogIntervals : simpl never.
#[local] Arguments enqueueBlockTasks : simpl never.
#[local] Arguments addFactoryLogFilterTasks : simpl never.
#[local] Arguments addFactoryChildAddressTasks : simpl never.
#[local] Arguments addLogFilterTasks : simpl never.
#[local] Arguments registerBlockCallbacks : simpl never.
#[local] Arguments validateHistoricalBlockRange : simpl never.
#[local] Arguments String.append : simpl never.
#[local] Arguments toHex : simpl never.
#[local] Arguments call_eth_getLogs : simpl never.
#[local] Arguments addCompletedBlock : simpl never.

Section Workers.

Implicit Types (s : Service) (logIntervals : list LogInterval).

Lemma toHex_block (n : Z) : 0 ≤ n ≤ MAX_SAFE_INTEGER → toHex (JInt n) = inr (hexOf n).
Proof. intros Hn. unfold toHex. by rewrite bool_decide_eq_true_2. Qed.


Lemma call_eth_getLogs_frame fuel s options s1 result :
  call_eth_getLogs fuel s options = Some (s1, result) →
  ∃ history, s1 = set_rpcHistory history s.
Proof.
  unfold call_eth_getLogs. destruct (_eth_getLogs _ _ _ _) as [[history r]|]; [|done].
  intros [= <- <-]. by exists history.
Qed.

Lemma registerBlockCallbacks_frame callbackOf logIntervals : ∀ s,
  ∃ callbacks, registerBlockCallbacks callbackOf logIntervals s = set_blockCallbacks callbacks s.
Proof.
  unfold registerBlockCallbacks.
  induction logIntervals as [|i logIntervals IH]; intros s; simpl.
  - exists (blockCallbacks s). by destruct s.
  - destruct (IH (pushBlockCallback (li_endBlock i) (callbackOf i) s)) as [callbacks ->].
    exists callbacks. by destruct s.
Qed.

End Workers.

(** C5. Once a FACTORY_CHILD_ADDRESS task for [[fromBlock, toBlock]] has
    fetched its logs, the worker writes them to the store and calls
    [addCompletedInterval] on the factory's child address tracker.  If
    [isUpdated], it enqueues one FACTORY_LOG_FILTER task per chunk of
    [[prevCheckpoint + 1, newCheckpoint]], the chunks being cut with
    [factory.maxBlockRange ?? network.defaultMaxBlockRange], each with
    priority [MAX_SAFE_INTEGER - fromBlock]; for a positive chunk size these
    chunks tile the range and none is wider than the chunk size.  If not
    [isUpdated], the worker enqueues nothing. *)
Theorem factoryChildAddressTaskWorker_unblocks (fuel : nat) (s s1 : Service)
    (factory : Factory) (fromBlock toBlock : Z) (logs : list RpcLog)
    (tracker : ProgressTracker) :
  0 ≤ fromBlock ≤ MAX_SAFE_INTEGER →
  0 ≤ toBlock ≤ MAX_SAFE_INTEGER →
  call_eth_getLogs fuel s
    {| opt_address := Some (OneAddress (fc_address (f_criteria factory)));
       opt_topics := Some [OneTopic (fc_eventSelector (f_criteria factory))];
       opt_fromBlock := hexOf fromBlock; opt_toBlock := hexOf toBlock |}
  = Some (s1, inr logs) →
  factoryChildAddressProgressTrackers s !! f_name factory = Some tracker →
  let result := (addCompletedInterval tracker (fromBlock, toBlock)).2 in
  let maxChunkSize := default (defaultMaxBlockRange (network s)) (f_maxBlockRange factory) in
  let chunks :=
    getChunks [(prevCheckpoint result + 1, newCheckpoint result)] maxChunkSize in
  ∃ s',
    factoryChildAddressTaskWorker fuel s factory fromBlock toBlock = Some (s', inr tt)
    ∧ storeWrites s'
      = storeWrites s ++ [InsertFactoryChildAddressLogs (f_chainId factory) logs]
    ∧ factoryChildAddressProgressTrackers s'
      = <[f_name factory := (addCompletedInterval tracker (fromBlock, toBlock)).1]>
          (factoryChildAddressProgressTrackers s)
    ∧ q_queued (queue s')
      = q_queued (queue s)
        ++ (if isUpdated result
            then rangeTaskEntry (FACTORY_LOG_FILTER factory) <$> chunks
            else [])
    ∧ (isUpdated result = true → 0 < maxChunkSize →
       Tiles (prevCheckpoint result + 1) (newCheckpoint result) chunks
       ∧ Forall (λ c : Interval, c.2 - c.1 + 1 ≤ maxChunkSize) chunks).
Proof.
  intros Hfrom Hto Hcall Htracker result maxChunkSize chunks.
  unfold factoryChildAddressTaskWorker.
  rewrite (toHex_block fromBlock Hfrom), (toHex_block toBlock Hto), Hcall.
  destruct (call_eth_getLogs_frame _ _ _ _ _ Hcall) as [history ->].
  destruct (registerBlockCallbacks_frame (FactoryChildAddressCallback factory)
              (buildLogIntervals fromBlock toBlock logs)
              (set_storeWrites
                 (storeWrites (set_rpcHistory history s)
                  ++ [InsertFactoryChildAddressLogs (f_chainId factory) logs])
                 (set_rpcHistory history s))) as [callbacks ->].
  cbn [factoryChildAddressProgressTrackers set_blockCallbacks set_storeWrites set_rpcHistory].
  rewrite Htracker.
  destruct (addCompletedInterval tracker (fromBlock, toBlock)) as [tracker' result'] eqn:Hadd.
  subst result. simpl in *.
  eexists. split; [reflexivity|].
  split_and!.
  - destruct (isUpdated result'); [rewrite addFactoryLogFilterTasks_withQueued|]; done.
  - destruct (isUpdated result'); [rewrite addFactoryLogFilterTasks_withQueued|]; done.
  - destruct (isUpdated result') eqn:Hupdated.
    + rewrite addFactoryLogFilterTasks_withQueued. done.
    + simpl. by rewrite app_nil_r.
  - intros Hupdated Hpos. apply getChunks_single; [done|].
    assert (Hres : result' = (addCompletedInterval tracker (fromBlock, toBlock)).2)
      by (by rewrite Hadd).
    rewrite Hres in Hupdated |- *. unfold addCompletedInterval in *. simpl in *.
    apply bool_decide_eq_true_1 in Hupdated. lia.
Qed.

(** ** [setup] of a factory *)

(** The factory callback of [setup], when it is called for a factory whose
    historical sync is required: it makes a child address tracker and a log
    filter tracker over the same target [[startBlock, endBlock]], and
    enqueues, after the child address tasks, one FACTORY_LOG_FILTER task per
    chunk of (required log filter intervals) minus (required child address
    intervals), the chunks being cut with
    [factory.maxBlockRange ?? network.defaultMaxBlockRange], each with
    priority [MAX_SAFE_INTEGER - fromBlock].  For a positive chunk size the
    blocks of these tasks are exactly the blocks that the log filter tracker
    requires and the child address tracker does not. *)
Lemma setupFactory_initial_tasks (latestBlockNumber finalizedBlockNumber : Z)
    (factory : Factory) (s : Service) (startBlock endBlock : Z) :
  validateHistoricalBlockRange (f_startBlock factory) (f_endBlock factory)
    finalizedBlockNumber latestBlockNumber
  = inr {| isHistoricalSyncRequired := true;
           range_startBlock := startBlock; range_endBlock := endBlock |} →
  let childAddressTracker :=
    newProgressTracker (startBlock, endBlock)
      (getLogFilterIntervals (eventStore s) (f_chainId factory)
         {| lfc_address := Some (OneAddress (fc_address (f_criteria factory)));
            lfc_topics := Some [OneTopic (fc_eventSelector (f_criteria factory))] |}) in
  let logFilterTracker :=
    newProgressTracker (startBlock, endBlock)
      (getFactoryLogFilterIntervals (eventStore s) (f_chainId factory) (f_criteria factory)) in
  let maxChunkSize := default (defaultMaxBlockRange (network s)) (f_maxBlockRange factory) in
  let missing :=
    intervalDifference (getRequired logFilterTracker) (getRequired childAddressTracker) in
  let s' := (setupFactory latestBlockNumber finalizedBlockNumber factory s).1 in
  (setupFactory latestBlockNumber finalizedBlockNumber factory s).2 = inr tt
  ∧ factoryChildAddressProgressTrackers s'
    = <[f_name factory := childAddressTracker]> (factoryChildAddressProgressTrackers s)
  ∧ factoryLogFilterProgressTrackers s'
    = <[f_name factory := logFilterTracker]> (factoryLogFilterProgressTrackers s)
  ∧ pt_target childAddressTracker = (startBlock, endBlock)
  ∧ pt_target logFilterTracker = (startBlock, endBlock)
  ∧ q_queued (queue s')
    = q_queued (queue s)
      ++ (rangeTaskEntry (FACTORY_CHILD_ADDRESS factory)
            <$> getChunks (getRequired childAddressTracker) maxChunkSize)
      ++ (rangeTaskEntry (FACTORY_LOG_FILTER factory) <$> getChunks missing maxChunkSize)
  ∧ (0 < maxChunkSize →
     (∀ n, covered n (getChunks missing maxChunkSize)
           ↔ covered n (getRequired logFilterTracker)
             ∧ ¬ covered n (getRequired childAddressTracker))
     ∧ Forall (λ c : Interval, c.1 ≤ c.2 ∧ c.2 - c.1 + 1 ≤ maxChunkSize)
              (getChunks missing maxChunkSize)).
Proof.
  intros Hrange childAddressTracker logFilterTracker maxChunkSize missing s'.
  subst s'. unfold setupFactory. rewrite Hrange.
  cbn [isHistoricalSyncRequired negb range_startBlock range_endBlock].
  rewrite !addFactoryChildAddressTasks_withQueued, !addFactoryLogFilterTasks_withQueued.
  cbn [fst snd].
  split_and!; try done.
  - simpl. by rewrite <- app_assoc.
  - intros Hpos. split.
    + intros n. rewrite getChunks_covered by done. apply intervalDifference_covered.
    + by apply getChunks_width.
Qed.

(** ** [start] after [setup] *)

Section SetupFrame.

Context {F : Type} (f : Service → F).
Hypothesis f_withQueued : ∀ entries s, f (withQueued entries s) = f s.
Hypothesis f_logFilterTrackers : ∀ v s, f (set_logFilterProgressTrackers v s) = f s.
Hypothesis f_childAddressTrackers :
  ∀ v s, f (set_factoryChildAddressProgressTrackers v s) = f s.
Hypothesis f_factoryLogFilterTrackers :
  ∀ v s, f (set_factoryLogFilterProgressTrackers v s) = f s.
Hypothesis f_metrics : ∀ v s, f (set_metrics v s) = f s.
Hypothesis f_effects : ∀ v s, f (set_effects v s) = f s.

(** What the callbacks of [setup] leave alone: anything that the trackers, the
    queued tasks, the metrics and the effects do not enter. *)
Lemma setupLogFilter_frame latest finalized logFilter s :
  f (setupLogFilter latest finalized logFilter s).1 = f s.
Proof using All.
  unfold setupLogFilter.
  destruct (validateHistoricalBlockRange _ _ _ _) as [e|range]; [done|].
  destruct (isHistoricalSyncRequired range); cbn [negb fst].
  - unfold set_cached_blocks, set_total_blocks.
    by rewrite !f_metrics, addLogFilterTasks_withQueued, f_withQueued, f_logFilterTrackers.
  - unfold set_total_blocks. by rewrite f_effects, f_metrics, f_logFilterTrackers.
Qed.

Lemma setupFactory_frame latest finalized factory s :
  f (setupFactory latest finalized factory s).1 = f s.
Proof using All.
  unfold setupFactory.
  destruct (validateHistoricalBlockRange _ _ _ _) as [e|range]; [done|].
  destruct (isHistoricalSyncRequired range); cbn [negb fst].
  - unfold set_cached_blocks, set_total_blocks.
    by rewrite !f_metrics, addFactoryLogFilterTasks_withQueued, f_withQueued,
      f_factoryLogFilterTrackers, !f_metrics, addFactoryChildAddressTasks_withQueued,
      f_withQueued, f_childAddressTrackers.
  - unfold set_total_blocks.
    by rewrite f_effects, f_metrics, f_factoryLogFilterTrackers, f_childAddressTrackers.
Qed.

End SetupFrame.

(** [setup] stores the finalized block number it is given. *)
Lemma setup_finalizedBlockNumber latest finalized s :
  finalizedBlockNumber (setup latest finalized s).1 = Some finalized.
Proof. done. Qed.

(** C8. [start()] on an empty queue emits [historicalCheckpoint] with
    [blockNumber = finalizedBlockNumber] (the number given to [setup]) and
    [blockTimestamp] the current time [Date.now()] rounded to seconds, then
    [syncComplete], and starts the queue after that; on a non-empty queue it
    emits neither and only starts the queue. *)
Theorem start_emits_on_empty_queue (hrtime now : Z) (s : Service) :
  let s' := start hrtime now s in
  effects s'
  = effects s
    ++ (if bool_decide (size_ (queue s) = 0%nat)
        then [ Emit (historicalCheckpoint (finalizedBlockNumber s) (roundToSeconds now));
               Emit syncComplete ]
        else [])
    ++ [QueueStarted]
  ∧ 1000 * roundToSeconds now - 500 ≤ now < 1000 * roundToSeconds now + 500
  ∧ (∀ latestBlockNumber finalized s0,
       s = (setup latestBlockNumber finalized s0).1 →
       finalizedBlockNumber s = Some finalized)
  ∧ q_started (queue s') = true
  ∧ q_queued (queue s') = q_queued (queue s).
Proof.
  split; [|split; [apply roundToSeconds_nearest|split; [|split]]].
  - unfold start. simpl.
    destruct (bool_decide (size_ (queue s) = 0%nat)); simpl; by rewrite <- ?app_assoc.
  - intros latest finalized s0 ->. apply setup_finalizedBlockNumber.
  - unfold start. simpl. by destruct (bool_decide (size_ (queue s) = 0%nat)).
  - unfold start. simpl. by destruct (bool_decide (size_ (queue s) = 0%nat)).
Qed.

(** ** The priorities of the queued tasks *)

Section Priorities.

Implicit Types (s : Service) (entries : list (QueueEntry HistoricalSyncTask)).

Lemma withQueued_ok entries s :
  queuePrioritiesOk s → Forall priorityOk entries → queuePrioritiesOk (withQueued entries s).
Proof. intros Hs He. unfold queuePrioritiesOk. simpl. by apply Forall_app. Qed.

Lemma rangeTaskEntry_ok (taskOf : Z → Z → HistoricalSyncTask) (chunks : list Interval) :
  (∀ fromBlock toBlock, taskBlock (taskOf fromBlock toBlock) = fromBlock) →
  Forall priorityOk (rangeTaskEntry taskOf <$> chunks).
Proof.
  intros Htask. apply Forall_fmap, Forall_forall. intros [fromBlock toBlock] _.
  unfold priorityOk. simpl. by rewrite Htask.
Qed.

Lemma blockTaskEntry_ok s (blocks : list Z) :
  Forall priorityOk (blockTaskEntry s <$> blocks).
Proof. apply Forall_fmap, Forall_forall. by intros b _. Qed.

Lemma enqueueBlockTasks_ok s : queuePrioritiesOk s → queuePrioritiesOk (enqueueBlockTasks s).
Proof.
  intros Hs.
  destruct (num_ltb (blockTasksEnqueuedCheckpoint s) (blockTasksCanBeEnqueuedTo s)) eqn:Hgate.
  - rewrite enqueueBlockTasks_open by done. unfold queuePrioritiesOk. simpl.
    apply Forall_app. split; [done|apply blockTaskEntry_ok].
  - by rewrite enqueueBlockTasks_closed.
Qed.

Lemma logFilterTaskWorker_ok fuel s logFilter fromBlock toBlock s' r :
  logFilterTaskWorker fuel s logFilter fromBlock toBlock = Some (s', r) →
  queuePrioritiesOk s → queuePrioritiesOk s'.
Proof.
  unfold logFilterTaskWorker. intros Hrun Hs.
  destruct (toHex (JInt fromBlock)); [by simplify_eq|].
  destruct (toHex (JInt toBlock)); [by simplify_eq|].
  destruct (call_eth_getLogs _ _ _) as [[s1 [e|logs]]|] eqn:Hcall; [| |done].
  { destruct (call_eth_getLogs_frame _ _ _ _ _ Hcall) as [history ->]. by simplify_eq. }
  destruct (call_eth_getLogs_frame _ _ _ _ _ Hcall) as [history ->].
  destruct (registerBlockCallbacks_frame (LogFilterCallback logFilter)
              (buildLogIntervals fromBlock toBlock logs) (set_rpcHistory history s))
    as [callbacks Hreg].
  rewrite Hreg in Hrun. simpl in Hrun.
  destruct (logFilterProgressTrackers s !! lf_name logFilter); simplify_eq; [|done].
  by apply enqueueBlockTasks_ok.
Qed.

Lemma factoryChildAddressTaskWorker_ok fuel s factory fromBlock toBlock s' r :
  factoryChildAddressTaskWorker fuel s factory fromBlock toBlock = Some (s', r) →
  queuePrioritiesOk s → queuePrioritiesOk s'.
Proof.
  unfold factoryChildAddressTaskWorker. intros Hrun Hs.
  destruct (toHex (JInt fromBlock)); [by simplify_eq|].
  destruct (toHex (JInt toBlock)); [by simplify_eq|].
  destruct (call_eth_getLogs _ _ _) as [[s1 [e|logs]]|] eqn:Hcall; [| |done].
  { destruct (call_eth_getLogs_frame _ _ _ _ _ Hcall) as [history ->]. by simplify_eq. }
  destruct (call_eth_getLogs_frame _ _ _ _ _ Hcall) as [history ->].
  destruct (registerBlockCallbacks_frame (FactoryChildAddressCallback factory)
              (buildLogIntervals fromBlock toBlock logs)
              (set_storeWrites
                 (storeWrites (set_rpcHistory history s)
                  ++ [InsertFactoryChildAddressLogs (f_chainId factory) logs])
                 (set_rpcHistory history s)))
    as [callbacks Hreg].
  rewrite Hreg in Hrun.
  cbn [factoryChildAddressProgressTrackers set_blockCallbacks set_storeWrites
       set_rpcHistory] in Hrun.
  destruct (factoryChildAddressProgressTrackers s !! f_name factory); simplify_eq; [|done].
  destruct (addCompletedInterval _ _) as [tracker' result]. simplify_eq.
  destruct (isUpdated result); [|done].
  rewrite addFactoryLogFilterTasks_withQueued. unfold queuePrioritiesOk. simpl.
  apply Forall_app. split; [done|]. by apply rangeTaskEntry_ok.
Qed.

Lemma getLogsOfBatches_frame fuel factory fromBlock toBlock batches : ∀ s logs s' r,
  getLogsOfBatches fuel factory fromBlock toBlock batches s logs = Some (s', r) →
  ∃ history, s' = set_rpcHistory history s.
Proof.
  induction batches as [|batch batches IH]; intros s logs s' r; simpl.
  - intros [= <- <-]. exists (rpcHistory s). by destruct s.
  - destruct (toHex (JInt fromBlock)); cbn beta iota;
      [intros [= <- <-]; exists (rpcHistory s); by destruct s|].
    destruct (toHex (JInt toBlock)); cbn beta iota;
      [intros [= <- <-]; exists (rpcHistory s); by destruct s|].
    destruct (call_eth_getLogs _ _ _) as [[s1 [e|batchLogs]]|] eqn:Hcall; [| |done].
    + destruct (call_eth_getLogs_frame _ _ _ _ _ Hcall) as [history ->].
      intros [= <- <-]. by exists history.
    + destruct (call_eth_getLogs_frame _ _ _ _ _ Hcall) as [history ->].
      intros Hrest. apply IH in Hrest as [history' ->]. exists history'. by destruct s.
Qed.

Lemma factoryLogFilterTaskWorker_ok fuel s factory fromBlock toBlock s' r :
  factoryLogFilterTaskWorker fuel s factory fromBlock toBlock = Some (s', r) →
  queuePrioritiesOk s → queuePrioritiesOk s'.
Proof.
  unfold factoryLogFilterTaskWorker. intros Hrun Hs.
  destruct (getLogsOfBatches _ _ _ _ _ _ _) as [[s1 [e|logs]]|] eqn:Hcall; [| |done].
  { destruct (getLogsOfBatches_frame _ _ _ _ _ _ _ _ _ Hcall) as [history ->]. by simplify_eq. }
  destruct (getLogsOfBatches_frame _ _ _ _ _ _ _ _ _ Hcall) as [history ->].
  destruct (registerBlockCallbacks_frame (FactoryLogFilterCallback factory)
              (buildLogIntervals fromBlock toBlock logs) (set_rpcHistory history s))
    as [callbacks Hreg].
  rewrite Hreg in Hrun. simpl in Hrun.
  destruct (factoryLogFilterProgressTrackers s !! f_name factory); simplify_eq; [|done].
  by apply enqueueBlockTasks_ok.
Qed.

Lemma runBlockCallback_queue block callback s :
  queue (runBlockCallback block s callback) = queue s.
Proof. by destruct callback. Qed.

Lemma fold_runBlockCallback_queue block callbacks : ∀ s,
  queue (fold_left (runBlockCallback block) callbacks s) = queue s.
Proof.
  induction callbacks as [|callback callbacks IH]; intros s; simpl; [done|].
  by rewrite IH, runBlockCallback_queue.
Qed.

Lemma blockTaskWorker_ok s blockNumber callbacks s' r :
  blockTaskWorker s blockNumber callbacks = Some (s', r) → queuePrioritiesOk s → queuePrioritiesOk s'.
Proof.
  unfold blockTaskWorker. intros Hrun Hs.
  destruct (toHex (JInt blockNumber)) as [e|number]; [by simplify_eq|].
  destruct (request_getBlockByNumber _ _ _) as [error|[block|]]; [by simplify_eq| |by simplify_eq].
  destruct (addCompletedBlock _ _ _) as [tracker [[number' timestamp]|]]; simplify_eq;
    unfold queuePrioritiesOk; simpl; by rewrite fold_runBlockCallback_queue.
Qed.

Lemma worker_ok fuel task s s' r :
  worker fuel task s = Some (s', r) → queuePrioritiesOk s → queuePrioritiesOk s'.
Proof.
  unfold worker. intros Hrun Hs.
  assert (Hdispatch : ∀ outcome,
    (∀ s1 r1, outcome = Some (s1, r1) → queuePrioritiesOk s1) →
    match outcome with
    | None => None
    | Some (s1, inl e) => Some (s1, inl e)
    | Some (s1, inr tt) =>
        if bool_decide (0 < size_ (queue s1))%nat || bool_decide (1 < q_pending (queue s1))%nat
        then Some (s1, inr tt)
        else Some (emit syncComplete s1, inr tt)
    end = Some (s', r) → queuePrioritiesOk s').
  { intros [[s1 [e|u]]|] Hok Hout; [| |done].
    - simplify_eq. by eapply Hok.
    - destruct u. destruct (_ || _); simplify_eq; [by eapply Hok|].
      unfold queuePrioritiesOk. simpl. by eapply Hok. }
  eapply Hdispatch; [|exact Hrun].
  intros s1 r1 Hout. destruct task.
  - by eapply logFilterTaskWorker_ok.
  - by eapply factoryChildAddressTaskWorker_ok.
  - by eapply factoryLogFilterTaskWorker_ok.
  - by eapply blockTaskWorker_ok.
Qed.

Lemma onError_queued error task s :
  onError error task s
  = withQueued [ {| qe_task := task;
                    qe_priority := MAX_SAFE_INTEGER - taskBlock task;
                    qe_retry := true |} ] s.
Proof. by destruct task. Qed.

Lemma takeNext_Forall (P : QueueEntry HistoricalSyncTask → Prop) entries : ∀ entry rest,
  takeNext entries = Some (entry, rest) → Forall P entries → P entry ∧ Forall P rest.
Proof.
  induction entries as [|e entries IH]; intros entry rest; simpl; [done|].
  intros Htake [He Hentries]%Forall_cons.
  destruct (takeNext entries) as [[best rest']|].
  - destruct (IH best rest' eq_refl Hentries) as [Hbest Hrest].
    case_bool_decide; simplify_eq; split; try done; by constructor.
  - simplify_eq. split; [done|constructor].
Qed.

Lemma runNextTask_ok fuel s s' : runNextTask fuel s = Some s' → queuePrioritiesOk s → queuePrioritiesOk s'.
Proof.
  unfold runNextTask. intros Hrun Hs.
  destruct (takeNext (q_queued (queue s))) as [[entry rest]|] eqn:Htake; [|by simplify_eq].
  destruct (takeNext_Forall priorityOk _ _ _ Htake Hs) as [Hentry Hrest].
  destruct (worker _ _ _) as [[s2 [error|u]]|] eqn:Hworker; [| |done].
  - apply worker_ok in Hworker; [|done]. simplify_eq.
    rewrite onError_queued. unfold queuePrioritiesOk. simpl.
    apply Forall_app. split; [done|]. by repeat constructor.
  - destruct u. apply worker_ok in Hworker; [|done]. by simplify_eq.
Qed.

Lemma setupLogFilter_ok latest finalized logFilter s :
  queuePrioritiesOk s → queuePrioritiesOk (setupLogFilter latest finalized logFilter s).1.
Proof.
  intros Hs. unfold setupLogFilter.
  destruct (validateHistoricalBlockRange _ _ _ _) as [e|range]; [done|].
  destruct (isHistoricalSyncRequired range); cbn [negb]; [|done].
  rewrite addLogFilterTasks_withQueued. unfold queuePrioritiesOk. simpl.
  apply Forall_app. split; [done|]. by apply rangeTaskEntry_ok.
Qed.

Lemma setupFactory_ok latest finalized factory s :
  queuePrioritiesOk s → queuePrioritiesOk (setupFactory latest finalized factory s).1.
Proof.
  intros Hs. unfold setupFactory.
  destruct (validateHistoricalBlockRange _ _ _ _) as [e|range]; [done|].
  destruct (isHistoricalSyncRequired range); cbn [negb]; [|done].
  rewrite addFactoryChildAddressTasks_withQueued, addFactoryLogFilterTasks_withQueued.
  unfold queuePrioritiesOk. simpl.
  rewrite !Forall_app. split_and!; [done|by apply rangeTaskEntry_ok..].
Qed.

Lemma setup_ok latest finalized s : queuePrioritiesOk s → queuePrioritiesOk (setup latest finalized s).1.
Proof. done. Qed.

(** In every state of the service, every queued task has the priority
    [MAX_SAFE_INTEGER] minus its [fromBlock] or [blockNumber]. *)
Lemma Reachable_priorities s : Reachable s → Forall priorityOk (q_queued (queue s)).
Proof.
  induction 1 as [| | | | |s _ IH|fuel s s' _ IH Hrun].
  - constructor.
  - by apply setup_ok.
  - by apply setupLogFilter_ok.
  - by apply setupFactory_ok.
  - unfold start. simpl. by destruct (bool_decide _).
  - constructor.
  - by eapply runNextTask_ok.
Qed.

End Priorities.

Lemma takeNext_elem_of (entries : list (QueueEntry HistoricalSyncTask)) entry rest :
  takeNext entries = Some (entry, rest) → entry ∈ entries.
Proof.
  intros Htake.
  destruct (takeNext_Forall (λ e, e ∈ entries) entries entry rest Htake) as [Hin _]; [|done].
  by apply Forall_forall.
Qed.

(** C7. Whatever the kind of the failed task, the error and the state of the
    service, the error handler of the queue adds the same task again, with
    [retry: true] and priority [MAX_SAFE_INTEGER - fromBlock]
    ([MAX_SAFE_INTEGER - blockNumber] for a BLOCK task), and changes nothing
    else: it drops no task and counts no retries.  Every task that is queued
    in a state of the service has this same priority, so a task that fails
    is queued again with the priority it had. *)
Theorem onError_requeues_with_same_priority (error : Exn) (task : HistoricalSyncTask)
    (s : Service) :
  onError error task s
  = withQueued [ {| qe_task := task;
                    qe_priority := MAX_SAFE_INTEGER - taskBlock task;
                    qe_retry := true |} ] s
  ∧ match task with
    | LOG_FILTER _ fromBlock _
    | FACTORY_CHILD_ADDRESS _ fromBlock _
    | FACTORY_LOG_FILTER _ fromBlock _ => taskBlock task = fromBlock
    | BLOCK blockNumber _ => taskBlock task = blockNumber
    end
  ∧ (∀ s0 entry,
       Reachable s0 → entry ∈ q_queued (queue s0) →
       qe_priority entry = MAX_SAFE_INTEGER - taskBlock (qe_task entry))
  ∧ (∀ fuel s0 entry rest s2 e,
       Reachable s0 →
       takeNext (q_queued (queue s0)) = Some (entry, rest) →
       worker fuel (qe_task entry) (set_queued rest (S (q_pending (queue s0))) s0)
       = Some (s2, inl e) →
       ∃ s', runNextTask fuel s0 = Some s'
             ∧ q_queued (queue s')
               = q_queued (queue s2)
                 ++ [ {| qe_task := qe_task entry;
                         qe_priority := qe_priority entry;
                         qe_retry := true |} ]).
Proof.
  split_and!.
  - apply onError_queued.
  - by destruct task.
  - intros s0 entry Hreach Hin.
    pose proof (Reachable_priorities s0 Hreach) as Hok.
    rewrite Forall_forall in Hok. by apply Hok.
  - intros fuel s0 entry rest s2 e Hreach Htake Hworker.
    unfold runNextTask. rewrite Htake, Hworker. eexists. split; [reflexivity|].
    rewrite onError_queued. simpl.
    pose proof (Reachable_priorities s0 Hreach) as Hok.
    rewrite Forall_forall in Hok.
    by rewrite (Hok entry (takeNext_elem_of _ _ _ Htake)).
Qed.

(** ** [_eth_getLogs] *)

#[local] Arguments _eth_getLogs : simpl never.

Lemma _eth_getLogs_unfold fuel client history options :
  _eth_getLogs (S fuel) client history options
  = match request_getLogs client history options with
    | inr logs_ => Some (history ++ [Eth_getLogs options], inr logs_)
    | inl error =>
        match retryRangesFor error options with
        | inl e => Some (history ++ [Eth_getLogs options], inl e)
        | inr retryRanges =>
            forRetryRanges (_eth_getLogs fuel client) options retryRanges
                           (history ++ [Eth_getLogs options]) []
        end
    end.
Proof. reflexivity. Qed.

Lemma retryRangesFor_suggested error options a b :
  suggestsRange error a b →
  retryRangesFor error options
  = match toHex a with
    | inl e => inl e
    | inr start =>
        match toHex b with
        | inl e => inl e
        | inr end_ =>
            match toHex (js_succ b) with
            | inl e => inl e
            | inr next => inr [(start, end_); (next, opt_toBlock options)]
            end
        end
    end.
Proof.
  unfold retryRangesFor, suggestedRetryRanges.
  intros [(Hclass & Hdetails & Hrange)|(Hclass & Hdetails & Hrange)].
  - rewrite Hclass, Hdetails, Hrange. by rewrite bool_decide_eq_true_2.
  - rewrite Hclass, Hdetails, Hrange. simpl. done.
Qed.

Lemma retryRangesFor_no_range error options :
  suggestsNoRange error → retryRangesFor error options = inl ExnTypeError.
Proof.
  unfold retryRangesFor, suggestedRetryRanges.
  intros [(Hclass & Hdetails & Hrange)|(Hclass & Hdetails & Hrange)].
  - rewrite Hclass, Hdetails, Hrange. by rewrite bool_decide_eq_true_2.
  - rewrite Hclass, Hdetails, Hrange. simpl. done.
Qed.

(** More fuel does not change the outcome of a call that returns. *)
Lemma _eth_getLogs_fuel_mono client fuel : ∀ fuel' history options outcome,
  (fuel ≤ fuel')%nat →
  _eth_getLogs fuel client history options = Some outcome →
  _eth_getLogs fuel' client history options = Some outcome.
Proof.
  induction fuel as [|fuel IH]; intros fuel' history options outcome Hle; [done|].
  destruct fuel' as [|fuel']; [lia|]. rewrite !_eth_getLogs_unfold.
  destruct (request_getLogs client history options) as [error|logs_]; [|done].
  destruct (retryRangesFor error options) as [e|retryRanges]; [done|].
  generalize (history ++ [Eth_getLogs options]) ([] : list RpcLog). clear history.
  induction retryRanges as [|[from to] retryRanges IHr]; intros history logs; simpl; [done|].
  destruct (_eth_getLogs fuel client history (withRange options from to))
    as [[history' [e|logs_]]|] eqn:Hcall; [| |done].
  - rewrite (IH fuel' _ _ _ ltac:(lia) Hcall). done.
  - rewrite (IH fuel' _ _ _ ltac:(lia) Hcall). apply IHr.
Qed.




(** Scenario S4 run: after the failed request, two requests, over [[0, 400]]
    and [[401, 1000]]; the logs of the first come before those of the
    second. *)
Example eth_getLogs_S4 :
  _eth_getLogs 2 clientS4 [] optionsS4
  = Some ([ Eth_getLogs optionsS4;
            Eth_getLogs (withRange optionsS4 "0x0" "0x190");
            Eth_getLogs (withRange optionsS4 "0x191" "0x3e8") ],
          inr [ mkRpcLog "0xA" "0x0" "0xh" "0x0"; mkRpcLog "0xA" "0x191" "0xh" "0x0" ])
  ∧ hexToNumber "0x190" = 400 ∧ hexToNumber "0x191" = 401 ∧ hexToNumber "0x3e8" = 1000.
Proof. repeat split. Qed.

(** C4 (as stated) fails: with details that hold no range, the call throws
    after its one request; it does not fall back to the midpoint. *)
Lemma eth_getLogs_midpoint_fallback_counterexample :
  request_getLogs clientNoSuggestion [] optionsS4
  = inl {| err_class := InvalidParamsRpcError; err_details := "Log response size exceeded." |}
  ∧ suggestsNoRange
      {| err_class := InvalidParamsRpcError; err_details := "Log response size exceeded." |}
  ∧ (∀ fuel, _eth_getLogs (S fuel) clientNoSuggestion [] optionsS4
             = Some ([Eth_getLogs optionsS4], inl ExnTypeError))
  ∧ ¬ fallsBackToMidpoint clientNoSuggestion [] optionsS4.
Proof.
  split_and!.
  - reflexivity.
  - left. repeat split.
  - intros fuel. reflexivity.
  - intros (from & to & Hfrom & Hto & Hfallback).
    vm_compute in Hfrom, Hto. simplify_eq. specialize (Hfallback 1%nat).
    vm_compute in Hfallback. discriminate.
Qed.

(** C4 (amended). When the request fails with a recognised response-size
    error from whose details no range can be read (the marker before the
    range is missing, or no [", "] follows it), [_eth_getLogs] throws a
    [TypeError] after this one request: it makes no further request and does
    not split at the midpoint. *)
Theorem eth_getLogs_no_range_throws (fuel : nat) (client : RpcClient)
    (history : list RpcRequest) (options : GetLogsOptions) (error : RpcError) :
  request_getLogs client history options = inl error →
  suggestsNoRange error →
  _eth_getLogs (S fuel) client history options
  = Some (history ++ [Eth_getLogs options], inl ExnTypeError).
Proof.
  intros Hrequest Hnone.
  by rewrite _eth_getLogs_unfold, Hrequest, (retryRangesFor_no_range _ _ Hnone).
Qed.

Lemma eth_getLogs_no_range_throws_witness :
  _eth_getLogs 1 clientNoSuggestion [] optionsS4
  = Some ([] ++ [Eth_getLogs optionsS4], inl ExnTypeError).
Proof.
  apply (eth_getLogs_no_range_throws 0 clientNoSuggestion [] optionsS4
           {| err_class := InvalidParamsRpcError;
              err_details := "Log response size exceeded." |}).
  - reflexivity.
  - left. repeat split.
Defined.

(** ** The sync gateway *)

Section Gateway.

Import SyncGateway.

Implicit Types (g : SyncGateway.t) (c : Call) (n : NetworkCheckpoint).

Lemma num_leb_refl (a : num) : num_leb a a = true.
Proof. destruct a; unfold num_leb; simpl; [done| |done]. by rewrite bool_decide_eq_false_2 by lia. Qed.

Lemma num_leb_trans (a b c : num) :
  num_leb a b = true → num_leb b c = true → num_leb a c = true.
Proof.
  unfold num_leb. destruct a, b, c; simpl; try done.
  rewrite !negb_true_iff, !bool_decide_eq_false. lia.
Qed.

Lemma num_ltb_leb (a b : num) : num_ltb a b = true → num_leb a b = true.
Proof.
  unfold num_leb. destruct a, b; simpl; try done.
  rewrite negb_true_iff, bool_decide_eq_true, bool_decide_eq_false. lia.
Qed.

Lemma Math_max_upper_bound xs x : x ∈ xs → num_leb (Fin x) (Math_max xs) = true.
Proof.
  induction xs as [|y xs IH]; intros Hin; [by apply elem_of_nil in Hin|].
  unfold num_leb in *. simpl. unfold num_max.
  apply elem_of_cons in Hin as [->|Hin].
  - destruct (Math_max xs) as [|m|]; simpl; repeat case_bool_decide; simpl;
      repeat case_bool_decide; try done; lia.
  - specialize (IH Hin). destruct (Math_max xs) as [|m|]; simpl in *;
      repeat case_bool_decide; simpl; repeat case_bool_decide; try done; lia.
Qed.

Lemma Math_max_attained xs :
  (xs = [] ∧ Math_max xs = NegInf) ∨ (∃ x, x ∈ xs ∧ Math_max xs = Fin x).
Proof.
  induction xs as [|y xs IH]; [by left|right].
  simpl. unfold num_max. destruct IH as [[-> ->]|(x & Hx & ->)]; simpl.
  - exists y. split; [set_solver|done].
  - case_bool_decide; [exists x|exists y]; (split; [set_solver|done]).
Qed.

Lemma recalculateCheckpoint_checkpoint g :
  let m := Math_min (networkCheckpointOf <$> Object_values (networkCheckpoints g)) in
  checkpoint (recalculateCheckpoint g) = (if num_ltb (checkpoint g) m then m else checkpoint g)
  ∧ emitted (recalculateCheckpoint g)
    = emitted g ++ (if num_ltb (checkpoint g) m then [newCheckpoint m] else [])
  ∧ networkCheckpoints (recalculateCheckpoint g) = networkCheckpoints g
  ∧ historicalSyncCompletedAt (recalculateCheckpoint g) = historicalSyncCompletedAt g
  ∧ finalityCheckpoint (recalculateCheckpoint g) = finalityCheckpoint g.
Proof.
  intros m. unfold recalculateCheckpoint. fold m.
  destruct (num_ltb (checkpoint g) m); simpl; by rewrite ?app_nil_r.
Qed.

Lemma recalculateCheckpoint_networkCheckpoints g :
  networkCheckpoints (recalculateCheckpoint g) = networkCheckpoints g.
Proof. apply recalculateCheckpoint_checkpoint. Qed.

Lemma recalculateCheckpoint_completedAt g :
  historicalSyncCompletedAt (recalculateCheckpoint g) = historicalSyncCompletedAt g.
Proof. apply recalculateCheckpoint_checkpoint. Qed.

Lemma recalculateCheckpoint_monotone g :
  num_leb (checkpoint g) (checkpoint (recalculateCheckpoint g)) = true.
Proof.
  destruct (recalculateCheckpoint_checkpoint g) as [-> _].
  destruct (num_ltb (checkpoint g) _) eqn:Hlt; [by apply num_ltb_leb|apply num_leb_refl].
Qed.

Lemma handle_monotone c g g' :
  handle c g = Some g' → num_leb (checkpoint g) (checkpoint g') = true.
Proof.
  destruct c as [chainId timestamp|chainId|chainId timestamp|chainId timestamp|timestamp];
    simpl.
  - unfold handleNewHistoricalCheckpoint. destruct (networkCheckpoints g !! chainId); [|done].
    intros [= <-]. apply (recalculateCheckpoint_monotone (set_networkCheckpoints _ g)).
  - unfold handleHistoricalSyncComplete. destruct (networkCheckpoints g !! chainId); [|done].
    destruct (forallb _ _); intros [= <-];
      apply (recalculateCheckpoint_monotone (set_networkCheckpoints _ g)).
  - unfold handleNewRealtimeCheckpoint. destruct (networkCheckpoints g !! chainId); [|done].
    intros [= <-]. apply (recalculateCheckpoint_monotone (set_networkCheckpoints _ g)).
  - unfold handleNewFinalityCheckpoint, recalculateFinalityCheckpoint.
    destruct (networkCheckpoints g !! chainId); [|done].
    destruct (num_ltb _ _); intros [= <-]; apply num_leb_refl.
  - intros [= <-]. apply num_leb_refl.
Qed.

Lemma run_snoc calls c g : run (calls ++ [c]) g = default (run calls g) (handle c (run calls g)).
Proof. unfold run. by rewrite fold_left_app. Qed.

Lemma run_monotone calls g : num_leb (checkpoint g) (checkpoint (run calls g)) = true.
Proof.
  induction calls as [|c calls IH] using rev_ind; [apply num_leb_refl|].
  rewrite run_snoc. destruct (handle c (run calls g)) as [g'|] eqn:Hhandle; [|done].
  simpl. eapply num_leb_trans; [done|]. by eapply handle_monotone.
Qed.

End Gateway.

(** C9. The gateway's [checkpoint] never decreases, whatever handlers are
    called.  [handleNewHistoricalCheckpoint] and [handleNewRealtimeCheckpoint]
    (for a registered network) store the timestamp and recalculate: the new
    value is the minimum, over the registered networks, of the historical
    checkpoint, or of the larger of the historical and realtime checkpoints
    once the network's historical sync is complete; the stored checkpoint is
    replaced by it and [newCheckpoint] is emitted exactly when it is greater
    than the stored one. *)
Theorem gateway_checkpoint_never_decreases (g : SyncGateway.t) (chainId timestamp : Z) :
  (* the minimum that recalculateCheckpoint computes *)
  (let m := Math_min (SyncGateway.networkCheckpointOf
                        <$> Object_values (SyncGateway.networkCheckpoints g)) in
   (∀ chain n, SyncGateway.networkCheckpoints g !! chain = Some n →
               num_leb m (Fin (SyncGateway.networkCheckpointOf n)) = true
               ∧ SyncGateway.networkCheckpointOf n
                 = if SyncGateway.n_isHistoricalSyncComplete n
                   then Z.max (SyncGateway.n_historicalCheckpoint n)
                              (SyncGateway.n_realtimeCheckpoint n)
                   else SyncGateway.n_historicalCheckpoint n)
   ∧ ((m = PosInf ∧ SyncGateway.networkCheckpoints g = ∅)
      ∨ ∃ chain n, SyncGateway.networkCheckpoints g !! chain = Some n
                   ∧ m = Fin (SyncGateway.networkCheckpointOf n))
   ∧ SyncGateway.checkpoint (SyncGateway.recalculateCheckpoint g)
     = (if num_ltb (SyncGateway.checkpoint g) m then m else SyncGateway.checkpoint g)
   ∧ SyncGateway.emitted (SyncGateway.recalculateCheckpoint g)
     = SyncGateway.emitted g
       ++ (if num_ltb (SyncGateway.checkpoint g) m then [SyncGateway.newCheckpoint m] else []))
  (* the two handlers update their field and recalculate *)
  ∧ (∀ n, SyncGateway.networkCheckpoints g !! chainId = Some n →
       SyncGateway.handleNewHistoricalCheckpoint chainId timestamp g
       = Some (SyncGateway.recalculateCheckpoint
                 (SyncGateway.set_networkCheckpoints
                    (<[chainId :=
                         {| SyncGateway.n_isHistoricalSyncComplete :=
                              SyncGateway.n_isHistoricalSyncComplete n;
                            SyncGateway.n_historicalCheckpoint := timestamp;
                            SyncGateway.n_realtimeCheckpoint :=
                              SyncGateway.n_realtimeCheckpoint n;
                            SyncGateway.n_finalityCheckpoint :=
                              SyncGateway.n_finalityCheckpoint n |}]>
                       (SyncGateway.networkCheckpoints g)) g))
       ∧ SyncGateway.handleNewRealtimeCheckpoint chainId timestamp g
         = Some (SyncGateway.recalculateCheckpoint
                   (SyncGateway.set_networkCheckpoints
                      (<[chainId :=
                           {| SyncGateway.n_isHistoricalSyncComplete :=
                                SyncGateway.n_isHistoricalSyncComplete n;
                              SyncGateway.n_historicalCheckpoint :=
                                SyncGateway.n_historicalCheckpoint n;
                              SyncGateway.n_realtimeCheckpoint := timestamp;
                              SyncGateway.n_finalityCheckpoint :=
                                SyncGateway.n_finalityCheckpoint n |}]>
                         (SyncGateway.networkCheckpoints g)) g)))
  (* the checkpoint never decreases *)
  ∧ (∀ c g', SyncGateway.handle c g = Some g' →
             num_leb (SyncGateway.checkpoint g) (SyncGateway.checkpoint g') = true)
  ∧ (∀ calls, num_leb (SyncGateway.checkpoint g)
                      (SyncGateway.checkpoint (SyncGateway.run calls g)) = true).
Proof.
  cbv zeta. split_and!.
  - intros chain n Hn. split; [|done].
    apply Math_min_lower_bound, list_elem_of_fmap. exists n. split; [done|].
    apply elem_of_Object_values. eauto.
  - destruct (Math_min_attained
                (SyncGateway.networkCheckpointOf
                   <$> Object_values (SyncGateway.networkCheckpoints g)))
      as [[Hnil HT]|(x & Hx & HT)].
    + left. split; [done|]. apply fmap_nil_inv in Hnil. by apply Object_values_empty.
    + right. apply list_elem_of_fmap in Hx as (n & -> & Hn).
      apply elem_of_Object_values in Hn as [chain Hn]. eauto.
  - apply recalculateCheckpoint_checkpoint.
  - apply recalculateCheckpoint_checkpoint.
  - intros n Hn. unfold SyncGateway.handleNewHistoricalCheckpoint,
      SyncGateway.handleNewRealtimeCheckpoint. by rewrite Hn.
  - intros c g'. apply handle_monotone.
  - intros calls. apply run_monotone.
Qed.

Section GatewayCompletion.

Import SyncGateway.

Implicit Types (g : SyncGateway.t) (c : Call) (n : NetworkCheckpoint).

Lemma forallb_false_elem {A} (f : A → bool) (l : list A) :
  forallb f l = false → ∃ x, x ∈ l ∧ f x = false.
Proof.
  induction l as [|x l IH]; simpl; [done|].
  destruct (f x) eqn:Hfx; simpl.
  - intros (y & Hy & Hfy)%IH. exists y. split; [by apply list_elem_of_further|done].
  - intros _. exists x. split; [apply list_elem_of_here|done].
Qed.

Lemma forallb_complete g :
  forallb n_isHistoricalSyncComplete (Object_values (networkCheckpoints g)) = true
  ↔ allComplete g.
Proof.
  rewrite forallb_forall. unfold allComplete. split.
  - intros Hall chain n Hn. apply Hall, list_elem_of_In, elem_of_Object_values. eauto.
  - intros Hall n [chain Hn]%list_elem_of_In%elem_of_Object_values. eauto.
Qed.

Lemma new_lookup (networks : list Z) chain :
  networkCheckpoints (new networks) !! chain
  = if decide (chain ∈ networks)
    then Some {| n_isHistoricalSyncComplete := false; n_historicalCheckpoint := 0;
                 n_realtimeCheckpoint := 0; n_finalityCheckpoint := 0 |}
    else None.
Proof.
  unfold new. cbn [networkCheckpoints].
  assert (Hfold : ∀ (m : gmap Z NetworkCheckpoint),
    fold_left (λ m chainId,
                 <[chainId := {| n_isHistoricalSyncComplete := false;
                                 n_historicalCheckpoint := 0;
                                 n_realtimeCheckpoint := 0;
                                 n_finalityCheckpoint := 0 |}]> m) networks m !! chain
    = if decide (chain ∈ networks)
      then Some {| n_isHistoricalSyncComplete := false; n_historicalCheckpoint := 0;
                   n_realtimeCheckpoint := 0; n_finalityCheckpoint := 0 |}
      else m !! chain).
  { induction networks as [|k networks IH]; intros m; cbn [fold_left].
    - case_decide as Hin; [by apply elem_of_nil in Hin|done].
    - rewrite IH. repeat case_decide; try done.
      + set_solver.
      + destruct (decide (chain = k)) as [->|Hne]; [by rewrite lookup_insert_eq|set_solver].
      + rewrite lookup_insert_ne; [done|]. set_solver. }
  rewrite Hfold. by case_decide.
Qed.

(** What a handler changes in [networkCheckpoints]: nothing, or the entry of
    its network, whose flag it leaves as it is or, for
    [handleHistoricalSyncComplete], sets. *)
Lemma handle_networkCheckpoints c g g' :
  handle c g = Some g' →
  networkCheckpoints g' = networkCheckpoints g
  ∨ ∃ chainId n n',
      networkCheckpoints g !! chainId = Some n
      ∧ networkCheckpoints g' = <[chainId := n']> (networkCheckpoints g)
      ∧ (n_isHistoricalSyncComplete n' = n_isHistoricalSyncComplete n
         ∨ (c = HandleHistoricalSyncComplete chainId ∧ n_isHistoricalSyncComplete n' = true)).
Proof.
  destruct c as [chainId timestamp|chainId|chainId timestamp|chainId timestamp|timestamp];
    simpl.
  - unfold handleNewHistoricalCheckpoint.
    destruct (networkCheckpoints g !! chainId) as [n|] eqn:Hn; [|done].
    intros [= <-]. right. eexists chainId, n, _. split; [done|].
    split; [by rewrite recalculateCheckpoint_networkCheckpoints|by left].
  - unfold handleHistoricalSyncComplete.
    destruct (networkCheckpoints g !! chainId) as [n|] eqn:Hn; [|done].
    intros Hg'. right. eexists chainId, n, _. split; [done|].
    split;
      [destruct (forallb _ _); simplify_eq; cbn [networkCheckpoints];
       by rewrite recalculateCheckpoint_networkCheckpoints
      |by right].
  - unfold handleNewRealtimeCheckpoint.
    destruct (networkCheckpoints g !! chainId) as [n|] eqn:Hn; [|done].
    intros [= <-]. right. eexists chainId, n, _. split; [done|].
    split; [by rewrite recalculateCheckpoint_networkCheckpoints|by left].
  - unfold handleNewFinalityCheckpoint, recalculateFinalityCheckpoint.
    destruct (networkCheckpoints g !! chainId) as [n|] eqn:Hn; [|done].
    intros Hg'. right. eexists chainId, n, _. split; [done|].
    split; [by destruct (num_ltb _ _); simplify_eq|by left].
  - intros [= <-]. by left.
Qed.

(** No handler resets the flag of a network. *)
Lemma handle_keeps_complete c g g' chain n :
  handle c g = Some g' →
  networkCheckpoints g !! chain = Some n → n_isHistoricalSyncComplete n = true →
  ∃ n', networkCheckpoints g' !! chain = Some n' ∧ n_isHistoricalSyncComplete n' = true.
Proof.
  intros Hhandle Hn Hcomplete.
  destruct (handle_networkCheckpoints c g g' Hhandle)
    as [->|(chainId & n0 & n' & Hn0 & -> & Hflag)]; [eauto|].
  destruct (decide (chainId = chain)) as [->|Hne].
  - rewrite lookup_insert_eq. eexists. split; [done|]. simplify_eq.
    destruct Hflag as [->|[_ ->]]; done.
  - rewrite lookup_insert_ne by done. eauto.
Qed.

(** A flag that is set was set before, or the call is
    [handleHistoricalSyncComplete] for this network. *)
Lemma handle_complete_inv c g g' chain n' :
  handle c g = Some g' →
  networkCheckpoints g' !! chain = Some n' → n_isHistoricalSyncComplete n' = true →
  (∃ n, networkCheckpoints g !! chain = Some n ∧ n_isHistoricalSyncComplete n = true)
  ∨ c = HandleHistoricalSyncComplete chain.
Proof.
  intros Hhandle Hn' Hcomplete.
  destruct (handle_networkCheckpoints c g g' Hhandle)
    as [Heq|(chainId & n0 & n1 & Hn0 & Heq & Hflag)]; rewrite Heq in Hn'; [eauto|].
  destruct (decide (chainId = chain)) as [->|Hne].
  - rewrite lookup_insert_eq in Hn'. simplify_eq.
    destruct Hflag as [Hsame|[-> _]]; [|by right].
    left. exists n0. split; [done|congruence].
  - rewrite lookup_insert_ne in Hn' by done. eauto.
Qed.

Lemma handle_registered c g g' chain :
  handle c g = Some g' →
  is_Some (networkCheckpoints g' !! chain) ↔ is_Some (networkCheckpoints g !! chain).
Proof.
  intros Hhandle.
  destruct (handle_networkCheckpoints c g g' Hhandle)
    as [->|(chainId & n0 & n1 & Hn0 & -> & _)]; [done|].
  destruct (decide (chainId = chain)) as [->|Hne].
  - rewrite lookup_insert_eq, Hn0. split; eauto.
  - by rewrite lookup_insert_ne.
Qed.

(** [historicalSyncCompletedAt] is only set by a call after which every
    network is complete. *)
Lemma handle_completedAt c g g' :
  handle c g = Some g' →
  historicalSyncCompletedAt g' ≠ None →
  historicalSyncCompletedAt g ≠ None ∨ allComplete g'.
Proof.
  destruct c as [chainId timestamp|chainId|chainId timestamp|chainId timestamp|timestamp];
    simpl.
  - unfold handleNewHistoricalCheckpoint.
    destruct (networkCheckpoints g !! chainId); [|done]. intros [= <-].
    rewrite recalculateCheckpoint_completedAt. by left.
  - unfold handleHistoricalSyncComplete.
    destruct (networkCheckpoints g !! chainId); [|done].
    destruct (forallb _ _) eqn:Hall; intros [= <-].
    + intros _. right. by apply forallb_complete in Hall.
    + rewrite recalculateCheckpoint_completedAt. by left.
  - unfold handleNewRealtimeCheckpoint.
    destruct (networkCheckpoints g !! chainId); [|done]. intros [= <-].
    rewrite recalculateCheckpoint_completedAt. by left.
  - unfold handleNewFinalityCheckpoint, recalculateFinalityCheckpoint.
    destruct (networkCheckpoints g !! chainId); [|done].
    destruct (num_ltb _ _); intros [= <-]; by left.
  - intros [= <-]. by left.
Qed.

(** After calls on a new gateway: the registered networks are those given to
    the constructor; the flag of a network is set only after
    [handleHistoricalSyncComplete] was called for it; and
    [historicalSyncCompletedAt] is set only when all flags are. *)
Lemma run_new_invariant (networks : list Z) (calls : list Call) :
  let g := run calls (new networks) in
  (∀ chain, is_Some (networkCheckpoints g !! chain) ↔ chain ∈ networks)
  ∧ (∀ chain n, networkCheckpoints g !! chain = Some n →
                n_isHistoricalSyncComplete n = true →
                HandleHistoricalSyncComplete chain ∈ calls)
  ∧ (historicalSyncCompletedAt g ≠ None → allComplete g).
Proof.
  induction calls as [|c calls IH] using rev_ind.
  - unfold run. cbn [fold_left]. split_and!.
    + intros chain. rewrite new_lookup. case_decide; split; try done; first [by eauto|by intros [? ?]].
    + intros chain n. rewrite new_lookup. case_decide; [|done]. by intros [= <-].
    + done.
  - cbv zeta in IH |- *. destruct IH as (Hreg & Hflags & Hat).
    rewrite run_snoc. destruct (handle c (run calls (new networks))) as [g'|] eqn:Hhandle.
    + cbn [default from_option id]. split_and!.
      * intros chain. by rewrite (handle_registered _ _ _ chain Hhandle).
      * intros chain n' Hn' Hcomplete. apply elem_of_app.
        destruct (handle_complete_inv _ _ _ _ _ Hhandle Hn' Hcomplete)
          as [(n & Hn & Hc)| ->]; [left; by eapply Hflags|right; by apply list_elem_of_singleton].
      * intros Hset. destruct (handle_completedAt _ _ _ Hhandle Hset) as [Hbefore|Hall]; [|done].
        intros chain n' Hn' .
        destruct (proj1 (handle_registered _ _ _ chain Hhandle)) as [n Hn]; [eauto|].
        destruct (handle_keeps_complete _ _ _ chain n Hhandle Hn) as (n'' & Hn'' & Hc);
          [by eapply (Hat Hbefore)|]. congruence.
    + cbn [default from_option id]. split_and!; [done| |done].
      intros chain n Hn Hc. apply elem_of_app. left. by eapply Hflags.
Qed.

(** [handleHistoricalSyncComplete] for a registered network: the call
    returns, the flag of the network is set and nothing else of
    [networkCheckpoints] changes. *)
Lemma handleHistoricalSyncComplete_registered chainId g n :
  networkCheckpoints g !! chainId = Some n →
  ∃ g', handleHistoricalSyncComplete chainId g = Some g'
        ∧ networkCheckpoints g'
          = <[chainId := {| n_isHistoricalSyncComplete := true;
                            n_historicalCheckpoint := n_historicalCheckpoint n;
                            n_realtimeCheckpoint := n_realtimeCheckpoint n;
                            n_finalityCheckpoint := n_finalityCheckpoint n |}]>
              (networkCheckpoints g)
        ∧ historicalSyncCompletedAt g'
          = if forallb n_isHistoricalSyncComplete (Object_values (networkCheckpoints g'))
            then Some (Math_max (n_historicalCheckpoint
                                   <$> Object_values (networkCheckpoints g')))
            else historicalSyncCompletedAt g.
Proof.
  intros Hn. unfold handleHistoricalSyncComplete. rewrite Hn.
  destruct (forallb _ (Object_values (networkCheckpoints (recalculateCheckpoint _)))) eqn:Hall;
    eexists; (split; [done|]);
    cbn [networkCheckpoints historicalSyncCompletedAt]; rewrite ?Hall;
    rewrite ?recalculateCheckpoint_networkCheckpoints, ?recalculateCheckpoint_completedAt;
    done.
Qed.

(** Once set, [historicalSyncCompletedAt] stays set. *)
Lemma handle_completedAt_stays c g g' :
  handle c g = Some g' → historicalSyncCompletedAt g ≠ None →
  historicalSyncCompletedAt g' ≠ None.
Proof.
  destruct c as [chainId ts|chainId|chainId ts|chainId ts|ts]; simpl;
    unfold handleNewHistoricalCheckpoint, handleHistoricalSyncComplete,
      handleNewRealtimeCheckpoint, handleNewFinalityCheckpoint, handleReorg.
  - destruct (networkCheckpoints g !! chainId); [|done]. intros [= <-].
    by rewrite recalculateCheckpoint_completedAt.
  - destruct (networkCheckpoints g !! chainId); [|done].
    destruct (forallb _ _); intros [= <-]; [done|].
    by rewrite recalculateCheckpoint_completedAt.
  - destruct (networkCheckpoints g !! chainId); [|done]. intros [= <-].
    by rewrite recalculateCheckpoint_completedAt.
  - destruct (networkCheckpoints g !! chainId); [|done].
    unfold recalculateFinalityCheckpoint. destruct (num_ltb _ _); by intros [= <-].
  - by intros [= <-].
Qed.

(** After calls on a new gateway: the flag of a network is set once
    [handleHistoricalSyncComplete] was called for it, and
    [historicalSyncCompletedAt] is set once all flags are. *)
Lemma run_new_completes (networks : list Z) (calls : list Call) :
  let g := run calls (new networks) in
  (∀ chain, chain ∈ networks → HandleHistoricalSyncComplete chain ∈ calls →
            ∃ n, networkCheckpoints g !! chain = Some n
                 ∧ n_isHistoricalSyncComplete n = true)
  ∧ (allComplete g → networkCheckpoints g ≠ ∅ → historicalSyncCompletedAt g ≠ None).
Proof.
  induction calls as [|c calls IH] using rev_ind.
  - cbn zeta. change (run [] (new networks)) with (new networks). split.
    + by intros chain _ ?%elem_of_nil.
    + intros Hall Hne. exfalso. apply Hne, map_eq. intros chain. rewrite lookup_empty.
      destruct (networkCheckpoints (new networks) !! chain) as [n|] eqn:Hn; [|done].
      specialize (Hall chain n Hn). rewrite new_lookup in Hn.
      case_decide; by simplify_eq.
  - destruct IH as [Hflags Hat].
    destruct (run_new_invariant networks calls) as (Hreg & _ & _).
    cbn zeta. rewrite run_snoc.
    destruct (handle c (run calls (new networks))) as [g'|] eqn:Hhandle;
      cbn [default from_option id].
    + split.
      * intros chain Hchain [Hin|Hc%list_elem_of_singleton]%elem_of_app; [|subst c].
        -- destruct (Hflags chain Hchain Hin) as (n & Hn & Hc).
           by eapply handle_keeps_complete.
        -- destruct (proj2 (Hreg chain) Hchain) as [n Hn].
           destruct (handleHistoricalSyncComplete_registered chain _ n Hn)
             as (g'' & Hg'' & Hmap & _).
           simpl in Hhandle. rewrite Hg'' in Hhandle. injection Hhandle as <-.
           rewrite Hmap, lookup_insert_eq. by eexists.
      * intros Hall Hne.
        destruct (decide (historicalSyncCompletedAt (run calls (new networks)) = None))
          as [Hnone|Hset]; [|by eapply handle_completedAt_stays].
        destruct c as [chainId ts|chainId|chainId ts|chainId ts|ts].
        1,3,4,5: exfalso; apply Hat; [| |done].
        1,3,5,7:
          intros chain n Hn;
          destruct (handle_networkCheckpoints _ _ _ Hhandle)
            as [Heq|(chainId' & n0 & n1 & Hn0 & Heq & [Hflag|[? _]])]; [| |done];
          [eapply Hall; by rewrite Heq|];
          destruct (decide (chain = chainId')) as [->|Hneq];
          [rewrite Hn0 in Hn; injection Hn as <-; rewrite <- Hflag;
           eapply (Hall chainId'); by rewrite Heq, lookup_insert_eq
          |eapply (Hall chain); by rewrite Heq, lookup_insert_ne].
        1,2,3,4:
          destruct (handle_networkCheckpoints _ _ _ Hhandle)
            as [Heq|(chainId' & n0 & n1 & Hn0 & Heq & _)];
          [by rewrite <- Heq|intros Hempty; by rewrite Hempty in Hn0].
        simpl in Hhandle.
        destruct (networkCheckpoints (run calls (new networks)) !! chainId) as [n|] eqn:Hn;
          [|unfold handleHistoricalSyncComplete in Hhandle; by rewrite Hn in Hhandle].
        destruct (handleHistoricalSyncComplete_registered chainId _ n Hn)
          as (g'' & Hg'' & _ & Hcompleted).
        rewrite Hg'' in Hhandle. injection Hhandle as <-.
        rewrite Hcompleted. apply forallb_complete in Hall. by rewrite Hall.
    + split; [|done].
      intros chain Hchain [Hin|Hc%list_elem_of_singleton]%elem_of_app;
        [by apply Hflags|subst c].
      destruct (proj2 (Hreg chain) Hchain) as [n Hn].
      destruct (handleHistoricalSyncComplete_registered chain _ n Hn) as (g'' & Hg'' & _).
      simpl in Hhandle. by rewrite Hg'' in Hhandle.
Qed.

End GatewayCompletion.

(** C10. [historicalSyncCompletedAt] stays undefined until
    [handleHistoricalSyncComplete] has been called for every registered
    network, and is defined once it has been.  The call for a registered
    network returns and sets the flag of that network, leaving the rest of
    [networkCheckpoints] as it was; for a network that is not registered it
    throws.  When every other network is complete already, the call sets
    [historicalSyncCompletedAt] to the maximum of the networks' historical
    checkpoints; while another network is not complete, it leaves it as it
    is.  No handler puts the [isHistoricalSyncComplete] flag of a network
    back to false. *)
Theorem gateway_historicalSyncCompletedAt (networks : list Z) (calls : list SyncGateway.Call)
    (g : SyncGateway.t) (chainId : Z) :
  (* undefined until every network was completed *)
  (SyncGateway.historicalSyncCompletedAt (SyncGateway.new networks) = None
   ∧ (SyncGateway.historicalSyncCompletedAt (SyncGateway.run calls (SyncGateway.new networks))
      ≠ None →
      ∀ chain, chain ∈ networks → SyncGateway.HandleHistoricalSyncComplete chain ∈ calls))
  (* defined once every network was completed *)
  ∧ (networks ≠ [] →
     (∀ chain, chain ∈ networks → SyncGateway.HandleHistoricalSyncComplete chain ∈ calls) →
     SyncGateway.historicalSyncCompletedAt (SyncGateway.run calls (SyncGateway.new networks))
     ≠ None)
  (* the call for a registered network returns and sets its flag *)
  ∧ (∀ n, SyncGateway.networkCheckpoints g !! chainId = Some n →
       ∃ g', SyncGateway.handleHistoricalSyncComplete chainId g = Some g'
             ∧ SyncGateway.networkCheckpoints g'
               = <[chainId :=
                     {| SyncGateway.n_isHistoricalSyncComplete := true;
                        SyncGateway.n_historicalCheckpoint :=
                          SyncGateway.n_historicalCheckpoint n;
                        SyncGateway.n_realtimeCheckpoint := SyncGateway.n_realtimeCheckpoint n;
                        SyncGateway.n_finalityCheckpoint :=
                          SyncGateway.n_finalityCheckpoint n |}]>
                   (SyncGateway.networkCheckpoints g)
             (* it is the last one: the maximum is stored *)
             ∧ ((∀ chain n', chain ≠ chainId →
                   SyncGateway.networkCheckpoints g !! chain = Some n' →
                   SyncGateway.n_isHistoricalSyncComplete n' = true) →
                SyncGateway.historicalSyncCompletedAt g'
                = Some (Math_max (SyncGateway.n_historicalCheckpoint
                                    <$> Object_values (SyncGateway.networkCheckpoints g'))))
             (* another one is not complete: nothing is stored *)
             ∧ (∀ chain n', chain ≠ chainId →
                  SyncGateway.networkCheckpoints g !! chain = Some n' →
                  SyncGateway.n_isHistoricalSyncComplete n' = false →
                  SyncGateway.historicalSyncCompletedAt g'
                  = SyncGateway.historicalSyncCompletedAt g))
  (* the call for a network that is not registered throws *)
  ∧ (SyncGateway.networkCheckpoints g !! chainId = None →
     SyncGateway.handleHistoricalSyncComplete chainId g = None)
  (* the completing call sets it to the maximum *)
  ∧ (∀ g', SyncGateway.handleHistoricalSyncComplete chainId g = Some g' →
       let historicalCheckpoints :=
         SyncGateway.n_historicalCheckpoint
           <$> Object_values (SyncGateway.networkCheckpoints g') in
       if forallb SyncGateway.n_isHistoricalSyncComplete
                  (Object_values (SyncGateway.networkCheckpoints g'))
       then SyncGateway.historicalSyncCompletedAt g' = Some (Math_max historicalCheckpoints)
            ∧ (∀ chain n, SyncGateway.networkCheckpoints g' !! chain = Some n →
                 SyncGateway.n_isHistoricalSyncComplete n = true
                 ∧ num_leb (Fin (SyncGateway.n_historicalCheckpoint n))
                           (Math_max historicalCheckpoints) = true)
            ∧ (∃ chain n, SyncGateway.networkCheckpoints g' !! chain = Some n
                 ∧ Math_max historicalCheckpoints
                   = Fin (SyncGateway.n_historicalCheckpoint n))
       else SyncGateway.historicalSyncCompletedAt g'
            = SyncGateway.historicalSyncCompletedAt g
            ∧ ∃ chain n, SyncGateway.networkCheckpoints g' !! chain = Some n
                         ∧ SyncGateway.n_isHistoricalSyncComplete n = false)
  (* the flag is never reset *)
  ∧ (∀ c g' chain n,
       SyncGateway.handle c g = Some g' →
       SyncGateway.networkCheckpoints g !! chain = Some n →
       SyncGateway.n_isHistoricalSyncComplete n = true →
       ∃ n', SyncGateway.networkCheckpoints g' !! chain = Some n'
             ∧ SyncGateway.n_isHistoricalSyncComplete n' = true).
Proof.
  split_and!.
  - done.
  - intros Hset chain Hchain.
    destruct (run_new_invariant networks calls) as (Hreg & Hflags & Hat).
    destruct (proj2 (Hreg chain) Hchain) as [n Hn].
    eapply Hflags; [done|]. by eapply (Hat Hset).
  - intros Hnetworks Hcalled.
    destruct (run_new_invariant networks calls) as (Hreg & _ & _).
    destruct (run_new_completes networks calls) as (Hflags & Hat).
    apply Hat.
    + intros chain n Hn.
      assert (Hchain : chain ∈ networks) by (apply Hreg; by eexists).
      destruct (Hflags chain Hchain (Hcalled chain Hchain)) as (n' & Hn' & Hflag). congruence.
    + destruct networks as [|chain networks']; [done|].
      destruct (proj2 (Hreg chain) (list_elem_of_here _ _)) as [n Hn].
      intros Hempty. by rewrite Hempty in Hn.
  - intros n Hn.
    destruct (handleHistoricalSyncComplete_registered chainId g n Hn)
      as (g' & Hg' & Hmap & Hcompleted).
    exists g'. split_and!; [done|done| |].
    + intros Hothers. rewrite Hcompleted.
      rewrite (proj2 (forallb_complete g')); [done|].
      intros chain n'. rewrite Hmap.
      destruct (decide (chain = chainId)) as [->|Hneq].
      * rewrite lookup_insert_eq. by intros [= <-].
      * rewrite lookup_insert_ne by done. by apply Hothers.
    + intros chain n' Hneq Hn' Hflag. rewrite Hcompleted.
      destruct (forallb _ _) eqn:Hall; [|done].
      apply forallb_complete in Hall.
      specialize (Hall chain n'). rewrite Hmap, lookup_insert_ne in Hall by done.
      specialize (Hall Hn'). congruence.
  - intros Hnone. unfold SyncGateway.handleHistoricalSyncComplete. by rewrite Hnone.
  - intros g' Hhandle historicalCheckpoints.
    unfold SyncGateway.handleHistoricalSyncComplete in Hhandle.
    destruct (SyncGateway.networkCheckpoints g !! chainId) as [n0|] eqn:Hn0; [|done].
    destruct (forallb _ (Object_values (SyncGateway.networkCheckpoints
                (SyncGateway.recalculateCheckpoint _)))) eqn:Hall;
      injection Hhandle as <-; cbn [SyncGateway.networkCheckpoints
        SyncGateway.historicalSyncCompletedAt] in *; rewrite Hall.
    + split_and!.
      * done.
      * intros chain n Hn. split.
        -- rewrite forallb_forall in Hall.
           apply Hall, list_elem_of_In, elem_of_Object_values. eauto.
        -- apply Math_max_upper_bound, list_elem_of_fmap. exists n. split; [done|].
           apply elem_of_Object_values. eauto.
      * destruct (Math_max_attained historicalCheckpoints) as [[Hnil _]|(x & Hx & Hmax)].
        -- apply fmap_nil_inv, Object_values_empty in Hnil.
           rewrite recalculateCheckpoint_networkCheckpoints in Hnil.
           cbn in Hnil. by apply insert_non_empty in Hnil.
        -- apply list_elem_of_fmap in Hx as (n & -> & Hn).
           apply elem_of_Object_values in Hn as [chain Hn]. eauto.
    + split.
      * by rewrite recalculateCheckpoint_completedAt.
      * apply forallb_false_elem in Hall as (n & [chain Hn]%elem_of_Object_values & Hflag).
        by exists chain, n.
  - intros c g' chain n. apply handle_keeps_complete.
Qed.

(** ** Scenarios *)

(** Scenario S1: two LOG_FILTER tasks; the block callbacks are at 110 and 149
    once the first has run; four BLOCK tasks run; the last checkpoint is at
    199 and [syncComplete] follows; the intervals written tile
    [[100, 199]]. *)
Example scenario_S1 :
  (qe_task <$> q_queued (queue serviceS1)
   = [LOG_FILTER logFilterS1 100 149; LOG_FILTER logFilterS1 150 199])
  ∧ ((λ s, (Object_keys (blockCallbacks s), taskBlock ∘ qe_task <$> q_queued (queue s)))
       <$> runTasks 1 3 serviceS1)
    = Some ([], [150; 110; 149])
  ∧ ((λ s, (effects s,
            omap (λ w, match w with
                       | InsertLogFilterInterval _ _ _ _ _ i => Some i
                       | _ => None
                       end) (storeWrites s),
            size_ (queue s))) <$> runTasks 6 3 serviceS1)
    = Some ([ QueueStarted;
              Emit (historicalCheckpoint (Some 110) 110);
              Emit (historicalCheckpoint (Some 149) 149);
              Emit (historicalCheckpoint (Some 160) 160);
              Emit (historicalCheckpoint (Some 199) 199);
              Emit syncComplete ],
            [(100, 110); (111, 149); (150, 160); (161, 199)],
            0%nat).
Proof. vm_compute. done. Qed.

(** Scenario S6: the BLOCK task at 110 fails once; it is queued again with
    [retry: true] and the priority it had, and succeeds when run again. *)
Example scenario_S6 :
  ((λ s, (λ e, (taskBlock (qe_task e), qe_priority e, qe_retry e)) <$> q_queued (queue s))
     <$> runTasks 1 3 serviceS6)
  = Some [ (150, MAX_SAFE_INTEGER - 150, false); (110, MAX_SAFE_INTEGER - 110, false);
           (149, MAX_SAFE_INTEGER - 149, false) ]
  ∧ ((λ s, (λ e, (taskBlock (qe_task e), qe_priority e, qe_retry e)) <$> q_queued (queue s))
       <$> runTasks 2 3 serviceS6)
    = Some [ (150, MAX_SAFE_INTEGER - 150, false); (149, MAX_SAFE_INTEGER - 149, false);
             (110, MAX_SAFE_INTEGER - 110, true) ]
  ∧ (effects <$> runTasks 3 3 serviceS6)
    = Some [ QueueStarted; Emit (historicalCheckpoint (Some 110) 110) ].
Proof. vm_compute. done. Qed.

(** The child address task for [[120, 139]], run before the one for
    [[100, 119]], does not move the checkpoint and enqueues nothing. *)
Example scenario_S3_not_updated :
  factoryChildAddressProgressTrackers serviceS3 !! "Pool"
  = Some {| pt_target := (100, 199); pt_completed := [] |}
  ∧ isUpdated (addCompletedInterval {| pt_target := (100, 199); pt_completed := [] |}
                 (120, 139)).2 = false
  ∧ q_queued (queue serviceS3_outOfOrder) = q_queued (queue serviceS3).
Proof. vm_compute. done. Qed.

(** The claim C5 at scenario S3: the child address task for [[100, 119]]
    moves the checkpoint from 99 to 139; two tasks are enqueued. *)
Lemma factoryChildAddressTaskWorker_unblocks_witness :
  let tracker := {| pt_target := (100, 199); pt_completed := [(120, 139)] |} in
  let result := (addCompletedInterval tracker (100, 119)).2 in
  let maxChunkSize :=
    default (defaultMaxBlockRange (network serviceS3_outOfOrder)) (f_maxBlockRange factoryS3) in
  let chunks :=
    getChunks [(prevCheckpoint result + 1, newCheckpoint result)] maxChunkSize in
  (result = {| isUpdated := true; prevCheckpoint := 99; newCheckpoint := 139 |}
   ∧ chunks = [(100, 119); (120, 139)])
  ∧ ∃ s',
      factoryChildAddressTaskWorker 3 serviceS3_outOfOrder factoryS3 100 119
      = Some (s', inr tt)
      ∧ storeWrites s'
        = storeWrites serviceS3_outOfOrder
          ++ [InsertFactoryChildAddressLogs (f_chainId factoryS3)
                [mkRpcLog "0xF" (hexOf 105) "0xh1" "0x0"]]
      ∧ factoryChildAddressProgressTrackers s'
        = <[f_name factoryS3 := (addCompletedInterval tracker (100, 119)).1]>
            (factoryChildAddressProgressTrackers serviceS3_outOfOrder)
      ∧ q_queued (queue s')
        = q_queued (queue serviceS3_outOfOrder)
          ++ (if isUpdated result
              then rangeTaskEntry (FACTORY_LOG_FILTER factoryS3) <$> chunks
              else [])
      ∧ (isUpdated result = true → 0 < maxChunkSize →
         Tiles (prevCheckpoint result + 1) (newCheckpoint result) chunks
         ∧ Forall (λ c : Interval, c.2 - c.1 + 1 ≤ maxChunkSize) chunks).
Proof.
  split; [by vm_compute|].
  apply (factoryChildAddressTaskWorker_unblocks 3 serviceS3_outOfOrder
           (set_rpcHistory
              (rpcHistory serviceS3_outOfOrder
               ++ [Eth_getLogs
                     {| opt_address := Some (OneAddress "0xF");
                        opt_topics := Some [OneTopic "0xS"];
                        opt_fromBlock := hexOf 100; opt_toBlock := hexOf 119 |}])
              serviceS3_outOfOrder)
           factoryS3 100 119
           [mkRpcLog "0xF" (hexOf 105) "0xh1" "0x0"]
           {| pt_target := (100, 199); pt_completed := [(120, 139)] |}).
  - vm_compute. split; discriminate.
  - vm_compute. split; discriminate.
  - reflexivity.
  - vm_compute. reflexivity.
Defined.

(** The factory callback at scenario S3 with the factory's own logs cached
    over [[100, 149]]: the log filter tasks it enqueues are the chunks of
    [[100, 149]]. *)
Lemma setupFactory_initial_tasks_witness :
  let s := newHistoricalSyncService (networkOf clientS3) (storeS3 [(100, 149)])
             [FactorySource factoryS3] in
  let childAddressTracker :=
    newProgressTracker (100, 199)
      (getLogFilterIntervals (eventStore s) (f_chainId factoryS3)
         {| lfc_address := Some (OneAddress (fc_address (f_criteria factoryS3)));
            lfc_topics := Some [OneTopic (fc_eventSelector (f_criteria factoryS3))] |}) in
  let logFilterTracker :=
    newProgressTracker (100, 199)
      (getFactoryLogFilterIntervals (eventStore s) (f_chainId factoryS3)
         (f_criteria factoryS3)) in
  let maxChunkSize := default (defaultMaxBlockRange (network s)) (f_maxBlockRange factoryS3) in
  let missing :=
    intervalDifference (getRequired logFilterTracker) (getRequired childAddressTracker) in
  let s' := (setupFactory 250 199 factoryS3 s).1 in
  (getRequired childAddressTracker = [(150, 199)]
   ∧ getRequired logFilterTracker = [(100, 199)]
   ∧ getChunks missing maxChunkSize = [(100, 119); (120, 139); (140, 149)])
  ∧ (setupFactory 250 199 factoryS3 s).2 = inr tt
  ∧ factoryChildAddressProgressTrackers s'
    = <[f_name factoryS3 := childAddressTracker]> (factoryChildAddressProgressTrackers s)
  ∧ factoryLogFilterProgressTrackers s'
    = <[f_name factoryS3 := logFilterTracker]> (factoryLogFilterProgressTrackers s)
  ∧ pt_target childAddressTracker = (100, 199)
  ∧ pt_target logFilterTracker = (100, 199)
  ∧ q_queued (queue s')
    = q_queued (queue s)
      ++ (rangeTaskEntry (FACTORY_CHILD_ADDRESS factoryS3)
            <$> getChunks (getRequired childAddressTracker) maxChunkSize)
      ++ (rangeTaskEntry (FACTORY_LOG_FILTER factoryS3) <$> getChunks missing maxChunkSize)
  ∧ (0 < maxChunkSize →
     (∀ n, covered n (getChunks missing maxChunkSize)
           ↔ covered n (getRequired logFilterTracker)
             ∧ ¬ covered n (getRequired childAddressTracker))
     ∧ Forall (λ c : Interval, c.1 ≤ c.2 ∧ c.2 - c.1 + 1 ≤ maxChunkSize)
              (getChunks missing maxChunkSize)).
Proof.
  split; [by vm_compute|].
  apply (setupFactory_initial_tasks 250 199 factoryS3
           (newHistoricalSyncService (networkOf clientS3) (storeS3 [(100, 149)])
              [FactorySource factoryS3]) 100 199).
  vm_compute. reflexivity.
Defined.

(** C6. [setup] never reaches its factories.  On every input it stores the
    finalized block number and then throws the [TypeError] of reading
    [this.logFilters.map], [logFilters] being no member of the class; the
    trackers and the queue stay as they were.  For the factory of scenario S3
    with its own logs cached over [[100, 149]], whose historical sync is
    required, there is no child address tracker, no log filter tracker and no
    task after [setup].  The factory callback, were it called on that state,
    would make both trackers over [[100, 199]] and enqueue the
    FACTORY_CHILD_ADDRESS tasks for [[150, 199]] and the FACTORY_LOG_FILTER
    tasks for [[100, 149]]. *)
Theorem setup_throws_before_factories :
  let s := newHistoricalSyncService (networkOf clientS3) (storeS3 [(100, 149)])
             [FactorySource factoryS3] in
  let s' := (setup 250 199 s).1 in
  let s'' := (setupFactory 250 199 factoryS3 s').1 in
  (* the historical sync of the factory is required *)
  validateHistoricalBlockRange (f_startBlock factoryS3) (f_endBlock factoryS3) 199 250
  = inr {| isHistoricalSyncRequired := true; range_startBlock := 100; range_endBlock := 199 |}
  (* [setup] throws and has set up nothing *)
  ∧ (setup 250 199 s).2 = inl ExnTypeError
  ∧ finalizedBlockNumber s' = Some 199
  ∧ factoryChildAddressProgressTrackers s' = ∅
  ∧ factoryLogFilterProgressTrackers s' = ∅
  ∧ q_queued (queue s') = []
  (* as on every input *)
  ∧ (∀ latestBlockNumber finalizedBlockNumber s0,
       setup latestBlockNumber finalizedBlockNumber s0
       = (set_finalizedBlockNumber (Some finalizedBlockNumber) s0, inl ExnTypeError))
  (* what the factory callback would have done *)
  ∧ pt_target <$> factoryChildAddressProgressTrackers s'' !! "Pool" = Some (100, 199)
  ∧ pt_target <$> factoryLogFilterProgressTrackers s'' !! "Pool" = Some (100, 199)
  ∧ (λ e, (qe_task e, qe_priority e)) <$> q_queued (queue s'')
    = [ (FACTORY_CHILD_ADDRESS factoryS3 150 169, MAX_SAFE_INTEGER - 150);
        (FACTORY_CHILD_ADDRESS factoryS3 170 189, MAX_SAFE_INTEGER - 170);
        (FACTORY_CHILD_ADDRESS factoryS3 190 199, MAX_SAFE_INTEGER - 190);
        (FACTORY_LOG_FILTER factoryS3 100 119, MAX_SAFE_INTEGER - 100);
        (FACTORY_LOG_FILTER factoryS3 120 139, MAX_SAFE_INTEGER - 120);
        (FACTORY_LOG_FILTER factoryS3 140 149, MAX_SAFE_INTEGER - 140) ].
Proof.
  cbv zeta. split_and!; reflexivity.
Qed.

(** Two networks: the checkpoint follows the slower one; the completion time
    is set by the call that completes the last network. *)
Example gateway_two_networks :
  let g := SyncGateway.run
             [ SyncGateway.HandleNewHistoricalCheckpoint 1 50;
               SyncGateway.HandleNewHistoricalCheckpoint 10 30;
               SyncGateway.HandleHistoricalSyncComplete 1;
               SyncGateway.HandleNewHistoricalCheckpoint 10 20;
               SyncGateway.HandleNewRealtimeCheckpoint 7 99 ]
             (SyncGateway.new [1; 10]) in
  SyncGateway.checkpoint g = Fin 30
  ∧ SyncGateway.emitted g = [SyncGateway.newCheckpoint (Fin 30)]
  ∧ SyncGateway.historicalSyncCompletedAt g = None
  ∧ SyncGateway.historicalSyncCompletedAt
      (SyncGateway.run [SyncGateway.HandleHistoricalSyncComplete 10] g)
    = Some (Fin 50)
  ∧ SyncGateway.handleNewRealtimeCheckpoint 7 99 g = None.
Proof. vm_compute. done. Qed.

(* ===================================================================== *)
(** * Further properties of the code *)
(* ===================================================================== *)

(** ** [buildLogIntervals]: the logs of the intervals *)

Section BuildLogIntervalsLogs.

Implicit Types (logs : list RpcLog) (bs : list Z).

Lemma groupLogs_snoc logs log : groupLogs (logs ++ [log]) = groupLog (groupLogs logs) log.
Proof. unfold groupLogs. by rewrite fold_left_app. Qed.

Lemma groupLogs_lookup logs b :
  default [] ((groupLogs logs).1 !! b) = filter (λ log, blockNumberOf log = b) logs
  ∧ default ∅ ((groupLogs logs).2 !! b)
    = list_to_set (log_transactionHash <$> filter (λ log, blockNumberOf log = b) logs).
Proof.
  induction logs as [|log logs IH] using rev_ind; [done|].
  rewrite groupLogs_snoc, filter_app. destruct (groupLogs logs) as [lm tm].
  destruct IH as [IHl IHt]. simpl in IHl, IHt. unfold groupLog. cbn zeta.
  fold (blockNumberOf log). cbn [fst snd].
  destruct (decide (blockNumberOf log = b)) as [Hb|Hb].
  - rewrite Hb, !lookup_insert_eq. cbn [default from_option id]. rewrite IHl, IHt.
    rewrite filter_cons_True by done. rewrite filter_nil. split; [done|].
    rewrite fmap_app, list_to_set_app_L. simpl. set_solver.
  - rewrite !lookup_insert_ne by done. rewrite filter_cons_False by done.
    rewrite filter_nil, !app_nil_r. done.
Qed.

Lemma intervalsFrom_endBlocks lm tm bs : ∀ prev,
  li_endBlock <$> intervalsFrom lm tm prev bs = bs.
Proof. induction bs as [|b bs IH]; intros prev; [done|]. simpl. by rewrite IH. Qed.

Lemma intervalsFrom_content lm tm bs : ∀ prev a,
  a ∈ intervalsFrom lm tm prev bs →
  li_logs a = default [] (lm !! li_endBlock a)
  ∧ li_transactionHashes a = default ∅ (tm !! li_endBlock a).
Proof.
  induction bs as [|b bs IH]; intros prev a; simpl.
  - by intros ?%elem_of_nil.
  - intros [->|Ha]%elem_of_cons; [done|]. by eapply IH.
Qed.

Lemma requiredBlocksOf_elem_of (tm : gmap Z (gset Hash)) toBlock b :
  b ∈ requiredBlocksOf tm toBlock ↔ b = toBlock ∨ b ∈ dom tm.
Proof.
  unfold requiredBlocksOf. cbn zeta. case_bool_decide as Hin.
  - rewrite sort_ascending_elem_of, Object_keys_elem_of in *. split; [by right|].
    intros [->|?]; done.
  - rewrite elem_of_app, list_elem_of_singleton, sort_ascending_elem_of, Object_keys_elem_of.
    tauto.
Qed.

Lemma requiredBlocksOf_NoDup (tm : gmap Z (gset Hash)) toBlock :
  NoDup (requiredBlocksOf tm toBlock).
Proof.
  assert (Hs : NoDup (sort_ascending (Object_keys tm))).
  { unfold sort_ascending. rewrite merge_sort_Permutation. apply Object_keys_NoDup. }
  unfold requiredBlocksOf. cbn zeta. case_bool_decide as Hin; [done|].
  apply NoDup_app. split_and!; [done| |apply NoDup_singleton].
  intros b Hb ->%list_elem_of_singleton. done.
Qed.

Lemma flat_map_filter_partition {A} (f : A → Z) (l : list A) ks :
  NoDup ks → (∀ x, x ∈ l → f x ∈ ks) →
  flat_map (λ k, filter (λ x, f x = k) l) ks ≡ₚ l.
Proof.
  revert l. induction ks as [|k ks IH]; intros l Hnd Hin.
  - destruct l as [|x l]; [done|]. specialize (Hin x (list_elem_of_here _ _)). by apply elem_of_nil in Hin.
  - simpl. apply NoDup_cons in Hnd as [Hk Hnd].
    etrans; [|apply (filter_app_complement (λ x, f x = k) l)].
    f_equiv.
    rewrite <- (IH (filter (λ x, ¬ f x = k) l) Hnd).
    + clear IH Hin Hnd. induction ks as [|k' ks IH]; [done|]. simpl.
      apply not_elem_of_cons in Hk as [Hkk' Hk]. rewrite IH by done. f_equiv.
      rewrite list_filter_filter.
      rewrite (list_filter_iff (λ x, f x = k') (λ x, f x = k' ∧ f x ≠ k) l); [done|].
      intros x. split; [|tauto]. intros ->. done.
    + intros x [Hx Hxl]%list_elem_of_filter. specialize (Hin x Hxl).
      apply elem_of_cons in Hin as [?|?]; done.
Qed.

End BuildLogIntervalsLogs.

(** X1. [buildLogIntervals] loses no log and invents none.  Each interval
    carries exactly the logs of the block it ends at, in the order given,
    and the set of their transaction hashes; no two intervals end at the same
    block; the end blocks are [toBlock] and the blocks of the logs; the logs
    of all intervals together are the logs given, each once.  This holds for
    every input, also for logs outside [[fromBlock, toBlock]]. *)
Theorem buildLogIntervals_groups_logs (fromBlock toBlock : Z) (logs : list RpcLog) :
  let intervals := buildLogIntervals fromBlock toBlock logs in
  (∀ a, a ∈ intervals →
        li_logs a = filter (λ log, blockNumberOf log = li_endBlock a) logs
        ∧ li_transactionHashes a = list_to_set (log_transactionHash <$> li_logs a))
  ∧ NoDup (li_endBlock <$> intervals)
  ∧ (∀ b, b ∈ li_endBlock <$> intervals ↔ b = toBlock ∨ ∃ log, log ∈ logs ∧ blockNumberOf log = b)
  ∧ flat_map li_logs intervals ≡ₚ logs.
Proof.
  unfold buildLogIntervals.
  pose proof (groupLogs_lookup logs) as Hlookup.
  pose proof (groupLogs_dom_tx logs) as Hdom.
  destruct (groupLogs logs) as [lm tm]. cbn [fst snd] in *. cbn zeta.
  assert (Hcontent : ∀ a, a ∈ intervalsFrom lm tm fromBlock (requiredBlocksOf tm toBlock) →
            li_logs a = filter (λ log, blockNumberOf log = li_endBlock a) logs
            ∧ li_transactionHashes a = list_to_set (log_transactionHash <$> li_logs a)).
  { intros a Ha. apply intervalsFrom_content in Ha as [Hl Ht].
    destruct (Hlookup (li_endBlock a)) as [Hl' Ht']. rewrite Ht, Ht', Hl, Hl'. done. }
  split_and!.
  - done.
  - rewrite intervalsFrom_endBlocks. apply requiredBlocksOf_NoDup.
  - intros b. rewrite intervalsFrom_endBlocks, requiredBlocksOf_elem_of, Hdom. done.
  - rewrite <- (flat_map_filter_partition blockNumberOf logs (requiredBlocksOf tm toBlock)).
    + rewrite <- (intervalsFrom_endBlocks lm tm (requiredBlocksOf tm toBlock) fromBlock) at 2.
      generalize (intervalsFrom lm tm fromBlock (requiredBlocksOf tm toBlock)) Hcontent.
      intros l Hl. induction l as [|a l IH]; [done|]. simpl.
      rewrite IH by (intros a' Ha'; apply Hl; by right).
      destruct (Hl a) as [-> _]; [by left|]. done.
    + apply requiredBlocksOf_NoDup.
    + intros log Hlog. apply requiredBlocksOf_elem_of. right. apply Hdom. by exists log.
Qed.

(** ** [enqueueBlockTasks], called again *)

Lemma num_ltb_irrefl (a : num) : num_ltb a a = false.
Proof. destruct a; simpl; [done| |done]. apply bool_decide_eq_false_2. lia. Qed.

(** X2. [enqueueBlockTasks] does not touch the range trackers, so the
    minimum of their checkpoints is the same after the call; after the call
    [blockTasksEnqueuedCheckpoint] is not below that minimum, whether the
    call enqueued anything or not; hence a second call, with no tracker
    moved in between, changes nothing: its test
    [blockTasksCanBeEnqueuedTo > blockTasksEnqueuedCheckpoint] fails. *)
Theorem enqueueBlockTasks_idempotent (s : Service) :
  let s' := enqueueBlockTasks s in
  blockTasksCanBeEnqueuedTo s' = blockTasksCanBeEnqueuedTo s
  ∧ num_ltb (blockTasksEnqueuedCheckpoint s') (blockTasksCanBeEnqueuedTo s') = false
  ∧ enqueueBlockTasks s' = s'.
Proof.
  intros s'.
  assert (Hsame : blockTasksCanBeEnqueuedTo s' = blockTasksCanBeEnqueuedTo s
                  ∧ num_ltb (blockTasksEnqueuedCheckpoint s') (blockTasksCanBeEnqueuedTo s')
                    = false).
  { subst s'.
    destruct (num_ltb (blockTasksEnqueuedCheckpoint s) (blockTasksCanBeEnqueuedTo s))
      eqn:Hgate.
    - rewrite (enqueueBlockTasks_open s Hgate). split; [done|]. apply num_ltb_irrefl.
    - by rewrite (enqueueBlockTasks_closed s Hgate). }
  destruct Hsame as [HT Hclosed]. split_and!; [done|done|].
  by apply enqueueBlockTasks_closed.
Qed.

(** ** [blockTaskWorker]: requests and writes *)

Section BlockTaskWorker.

Implicit Types (s : Service) (callbacks : list BlockCallback).



End BlockTaskWorker.



(** ** The workers: what a task does to the queue and which events it emits *)

Section Footprint.

Implicit Types (s : Service) (task : HistoricalSyncTask).

Lemma taskFootprint_refl task s : taskFootprint task s s.
Proof.
  split_and!; try done.
  - exists []. by rewrite app_nil_r.
  - exists []. rewrite app_nil_r. split; [done|by left].
  - apply num_leb_refl.
Qed.

(** The fields a footprint speaks of. *)
Lemma taskFootprint_ext task s s1 s' :
  queue s1 = queue s → effects s1 = effects s →
  blockTasksEnqueuedCheckpoint s1 = blockTasksEnqueuedCheckpoint s →
  taskFootprint task s1 s' → taskFootprint task s s'.
Proof. unfold taskFootprint. by intros -> -> ->. Qed.

Lemma enqueueBlockTasks_footprint task s :
  match task with LOG_FILTER _ _ _ | FACTORY_LOG_FILTER _ _ _ => True | _ => False end →
  taskFootprint task s (enqueueBlockTasks s).
Proof.
  intros Htask.
  destruct (num_ltb (blockTasksEnqueuedCheckpoint s) (blockTasksCanBeEnqueuedTo s)) eqn:Hgate.
  - rewrite enqueueBlockTasks_open by done.
    destruct (newBlocks_keys s (blockTasksCanBeEnqueuedTo s)) as [_ Hkeys].
    split_and!; simpl; try done.
    + eexists. split; [done|]. apply Forall_fmap, Forall_forall. intros b [_ Hb]%Hkeys.
      unfold addedBy. simpl.
      by destruct task.
    + exists []. rewrite app_nil_r. split; [done|by left].
    + by apply num_ltb_leb.
  - rewrite enqueueBlockTasks_closed by done. apply taskFootprint_refl.
Qed.

Lemma logFilterTaskWorker_footprint fuel s logFilter fromBlock toBlock s' r :
  logFilterTaskWorker fuel s logFilter fromBlock toBlock = Some (s', r) →
  taskFootprint (LOG_FILTER logFilter fromBlock toBlock) s s'.
Proof.
  unfold logFilterTaskWorker. intros Hrun.
  destruct (toHex (JInt fromBlock)); [simplify_eq; apply taskFootprint_refl|].
  destruct (toHex (JInt toBlock)); [simplify_eq; apply taskFootprint_refl|].
  destruct (call_eth_getLogs _ _ _) as [[s1 [e|logs]]|] eqn:Hcall; [| |done].
  { destruct (call_eth_getLogs_frame _ _ _ _ _ Hcall) as [history ->]. simplify_eq.
    by eapply taskFootprint_ext; [..|apply taskFootprint_refl]. }
  destruct (call_eth_getLogs_frame _ _ _ _ _ Hcall) as [history ->].
  destruct (registerBlockCallbacks_frame (LogFilterCallback logFilter)
              (buildLogIntervals fromBlock toBlock logs) (set_rpcHistory history s))
    as [callbacks Hreg].
  rewrite Hreg in Hrun. simpl in Hrun.
  destruct (logFilterProgressTrackers s !! lf_name logFilter); simplify_eq.
  - by eapply taskFootprint_ext; [..|by apply enqueueBlockTasks_footprint].
  - by eapply taskFootprint_ext; [..|apply taskFootprint_refl].
Qed.

Lemma factoryChildAddressTaskWorker_footprint fuel s factory fromBlock toBlock s' r :
  factoryChildAddressTaskWorker fuel s factory fromBlock toBlock = Some (s', r) →
  taskFootprint (FACTORY_CHILD_ADDRESS factory fromBlock toBlock) s s'.
Proof.
  unfold factoryChildAddressTaskWorker. intros Hrun.
  destruct (toHex (JInt fromBlock)); [simplify_eq; apply taskFootprint_refl|].
  destruct (toHex (JInt toBlock)); [simplify_eq; apply taskFootprint_refl|].
  destruct (call_eth_getLogs _ _ _) as [[s1 [e|logs]]|] eqn:Hcall; [| |done].
  { destruct (call_eth_getLogs_frame _ _ _ _ _ Hcall) as [history ->]. simplify_eq.
    by eapply taskFootprint_ext; [..|apply taskFootprint_refl]. }
  destruct (call_eth_getLogs_frame _ _ _ _ _ Hcall) as [history ->].
  destruct (registerBlockCallbacks_frame (FactoryChildAddressCallback factory)
              (buildLogIntervals fromBlock toBlock logs)
              (set_storeWrites
                 (storeWrites (set_rpcHistory history s)
                  ++ [InsertFactoryChildAddressLogs (f_chainId factory) logs])
                 (set_rpcHistory history s)))
    as [callbacks Hreg].
  rewrite Hreg in Hrun.
  cbn [factoryChildAddressProgressTrackers set_blockCallbacks set_storeWrites
       set_rpcHistory] in Hrun.
  destruct (factoryChildAddressProgressTrackers s !! f_name factory); simplify_eq;
    [|by eapply taskFootprint_ext; [..|apply taskFootprint_refl]].
  destruct (addCompletedInterval _ _) as [tracker' result]. simplify_eq.
  destruct (isUpdated result);
    [|by eapply taskFootprint_ext; [..|apply taskFootprint_refl]].
  rewrite addFactoryLogFilterTasks_withQueued.
  split_and!; simpl; try done.
  - eexists. split; [done|]. apply Forall_fmap, Forall_forall. by intros [a b] _.
  - exists []. rewrite app_nil_r. split; [done|by left].
  - apply num_leb_refl.
Qed.

Lemma factoryLogFilterTaskWorker_footprint fuel s factory fromBlock toBlock s' r :
  factoryLogFilterTaskWorker fuel s factory fromBlock toBlock = Some (s', r) →
  taskFootprint (FACTORY_LOG_FILTER factory fromBlock toBlock) s s'.
Proof.
  unfold factoryLogFilterTaskWorker. intros Hrun.
  destruct (getLogsOfBatches _ _ _ _ _ _ _) as [[s1 [e|logs]]|] eqn:Hcall; [| |done].
  { destruct (getLogsOfBatches_frame _ _ _ _ _ _ _ _ _ Hcall) as [history ->]. simplify_eq.
    by eapply taskFootprint_ext; [..|apply taskFootprint_refl]. }
  destruct (getLogsOfBatches_frame _ _ _ _ _ _ _ _ _ Hcall) as [history ->].
  destruct (registerBlockCallbacks_frame (FactoryLogFilterCallback factory)
              (buildLogIntervals fromBlock toBlock logs) (set_rpcHistory history s))
    as [callbacks Hreg].
  rewrite Hreg in Hrun. simpl in Hrun.
  destruct (factoryLogFilterProgressTrackers s !! f_name factory); simplify_eq.
  - by eapply taskFootprint_ext; [..|by apply enqueueBlockTasks_footprint].
  - by eapply taskFootprint_ext; [..|apply taskFootprint_refl].
Qed.

Lemma runBlockCallback_frame block callback s :
  queue (runBlockCallback block s callback) = queue s
  ∧ effects (runBlockCallback block s callback) = effects s
  ∧ blockTasksEnqueuedCheckpoint (runBlockCallback block s callback)
    = blockTasksEnqueuedCheckpoint s
  ∧ blockProgressTracker (runBlockCallback block s callback) = blockProgressTracker s
  ∧ blockCallbacks (runBlockCallback block s callback) = blockCallbacks s
  ∧ rpcHistory (runBlockCallback block s callback) = rpcHistory s.
Proof. by destruct callback. Qed.

Lemma fold_runBlockCallback_frame block callbacks : ∀ s,
  let s' := fold_left (runBlockCallback block) callbacks s in
  queue s' = queue s ∧ effects s' = effects s
  ∧ blockTasksEnqueuedCheckpoint s' = blockTasksEnqueuedCheckpoint s
  ∧ blockProgressTracker s' = blockProgressTracker s
  ∧ blockCallbacks s' = blockCallbacks s
  ∧ rpcHistory s' = rpcHistory s.
Proof.
  induction callbacks as [|callback callbacks IH]; intros s; simpl; [done|].
  destruct (IH (runBlockCallback block s callback)) as (-> & -> & -> & -> & -> & ->).
  apply runBlockCallback_frame.
Qed.

Lemma blockTaskWorker_footprint s blockNumber callbacks s' r :
  blockTaskWorker s blockNumber callbacks = Some (s', r) →
  taskFootprint (BLOCK blockNumber callbacks) s s'.
Proof.
  unfold blockTaskWorker. intros Hrun.
  destruct (toHex (JInt blockNumber)) as [e|number]; [simplify_eq; apply taskFootprint_refl|].
  destruct (request_getBlockByNumber _ _ _) as [error|[block|]];
    [simplify_eq; by eapply taskFootprint_ext; [..|apply taskFootprint_refl]|
    |simplify_eq; by eapply taskFootprint_ext; [..|apply taskFootprint_refl]].
  destruct (fold_runBlockCallback_frame block callbacks
              (set_rpcHistory (rpcHistory s ++ [Eth_getBlockByNumber number true]) s))
    as (Hq & He & Hc & _).
  destruct (addCompletedBlock _ _ _) as [tracker [[number' timestamp]|]]; simplify_eq.
  - split_and!; simpl; rewrite ?Hq, ?He, ?Hc; try done.
    + exists []. by rewrite app_nil_r.
    + eexists. split; [done|]. right. by eexists _, _, _, _.
    + apply num_leb_refl.
  - eapply taskFootprint_ext; [..|apply taskFootprint_refl]; simpl; by rewrite ?Hq, ?He, ?Hc.
Qed.

Lemma worker_footprint fuel task s s' r :
  worker fuel task s = Some (s', r) →
  ∃ s1, taskFootprint task s s1
        ∧ s' = (if isFinalTask r s1 then emit syncComplete s1 else s1).
Proof.
  unfold worker. intros Hrun.
  assert (Hdispatch : ∀ outcome,
    (∀ s1 r1, outcome = Some (s1, r1) → taskFootprint task s s1) →
    match outcome with
    | None => None
    | Some (s1, inl e) => Some (s1, inl e)
    | Some (s1, inr tt) =>
        if bool_decide (0 < size_ (queue s1))%nat || bool_decide (1 < q_pending (queue s1))%nat
        then Some (s1, inr tt)
        else Some (emit syncComplete s1, inr tt)
    end = Some (s', r) →
    ∃ s1, taskFootprint task s s1
          ∧ s' = (if isFinalTask r s1 then emit syncComplete s1 else s1)).
  { intros [[s1 [e|u]]|] Hok Hout; [| |done].
    - simplify_eq. exists s'. split; [by eapply Hok|done].
    - destruct u. exists s1. split; [by eapply Hok|].
      unfold isFinalTask. destruct (_ || _); by simplify_eq. }
  eapply Hdispatch; [|exact Hrun].
  intros s1 r1 Hout. destruct task.
  - by eapply logFilterTaskWorker_footprint.
  - by eapply factoryChildAddressTaskWorker_footprint.
  - by eapply factoryLogFilterTaskWorker_footprint.
  - by eapply blockTaskWorker_footprint.
Qed.

End Footprint.

Section BlockTasks.

Implicit Types (s : Service) (task : HistoricalSyncTask).

Lemma blockTasksBelowCheckpoint_mono (c c' : num) (e : QueueEntry HistoricalSyncTask) :
  num_leb c c' = true →
  match qe_task e with BLOCK b _ => num_leb (Fin b) c = true | _ => True end →
  match qe_task e with BLOCK b _ => num_leb (Fin b) c' = true | _ => True end.
Proof. intros Hc. destruct (qe_task e); try done. intros Hb. by eapply num_leb_trans. Qed.

Lemma addedBy_below task s' (e : QueueEntry HistoricalSyncTask) :
  addedBy task s' e →
  match qe_task e with
  | BLOCK b _ => num_leb (Fin b) (blockTasksEnqueuedCheckpoint s') = true
  | _ => True
  end.
Proof. unfold addedBy. by destruct task, (qe_task e). Qed.

Lemma runNextTask_checkpoint fuel s s' :
  runNextTask fuel s = Some s' →
  num_leb (blockTasksEnqueuedCheckpoint s) (blockTasksEnqueuedCheckpoint s') = true
  ∧ (blockTasksBelowCheckpoint s → blockTasksBelowCheckpoint s').
Proof.
  unfold runNextTask. intros Hrun.
  destruct (takeNext (q_queued (queue s))) as [[entry rest]|] eqn:Htake;
    [|simplify_eq; split; [apply num_leb_refl|done]].
  destruct (worker _ _ _) as [[s2 r]|] eqn:Hworker; [|done].
  apply worker_footprint in Hworker as (s1 & Hfoot & Hs2).
  destruct Hfoot as ((added & Hqueued & Hadded) & _ & _ & _ & Hckpt). simpl in Hqueued, Hckpt.
  assert (Hq2 : q_queued (queue s2) = rest ++ added) by (subst s2; by destruct (isFinalTask r s1)).
  assert (Hc2 : blockTasksEnqueuedCheckpoint s2 = blockTasksEnqueuedCheckpoint s1)
    by (subst s2; by destruct (isFinalTask r s1)).
  clear Hs2.
  assert (Hstep : num_leb (blockTasksEnqueuedCheckpoint s) (blockTasksEnqueuedCheckpoint s')
                  = true).
  { destruct r as [error|u]; [|destruct u]; simplify_eq; [rewrite onError_queued|];
      simpl; by rewrite Hc2. }
  split; [done|]. intros Hinv.
  destruct (takeNext_Forall _ _ _ _ Htake Hinv) as [Hentry Hrest].
  assert (Hbelow : Forall (λ e, match qe_task e with
                                | BLOCK b _ =>
                                    num_leb (Fin b) (blockTasksEnqueuedCheckpoint s1) = true
                                | _ => True
                                end) (rest ++ added)).
  { apply Forall_app. split.
    - eapply Forall_impl; [exact Hrest|]. intros e. by apply blockTasksBelowCheckpoint_mono.
    - eapply Forall_impl; [exact Hadded|]. intros e. apply addedBy_below. }
  unfold blockTasksBelowCheckpoint.
  destruct r as [error|u]; [|destruct u]; simplify_eq; [rewrite onError_queued|];
    simpl; rewrite Hc2, Hq2; [|done].
  apply Forall_app. split; [done|]. constructor; [|done]. simpl.
  by apply (blockTasksBelowCheckpoint_mono _ _ entry Hckpt).
Qed.

Lemma setupLogFilter_checkpoint latest finalized logFilter s :
  blockTasksEnqueuedCheckpoint (setupLogFilter latest finalized logFilter s).1
  = blockTasksEnqueuedCheckpoint s.
Proof. by apply setupLogFilter_frame. Qed.

Lemma setupFactory_checkpoint latest finalized factory s :
  blockTasksEnqueuedCheckpoint (setupFactory latest finalized factory s).1
  = blockTasksEnqueuedCheckpoint s.
Proof. by apply setupFactory_frame. Qed.

End BlockTasks.

Section SetupQueue.

Implicit Types (s : Service).

Lemma addsRangeTasks_same_queue s s' : queue s' = queue s → addsRangeTasks s s'.
Proof. intros Hq. exists []. by rewrite withQueued_nil. Qed.

Lemma addsRangeTasks_refl s : addsRangeTasks s s.
Proof. by apply addsRangeTasks_same_queue. Qed.

Lemma addsRangeTasks_trans s1 s2 s3 :
  addsRangeTasks s1 s2 → addsRangeTasks s2 s3 → addsRangeTasks s1 s3.
Proof.
  intros (added1 & H1 & Hok1) (added2 & H2 & Hok2). exists (added1 ++ added2).
  split; [|by apply Forall_app].
  rewrite H2. simpl. rewrite H1. simpl. by rewrite app_assoc.
Qed.

Lemma rangeTaskEntry_range (taskOf : Z → Z → HistoricalSyncTask) (chunks : list Interval) :
  (∀ fromBlock toBlock, isRangeTask (taskOf fromBlock toBlock)) →
  Forall (λ e, isRangeTask (qe_task e) ∧ qe_retry e = false) (rangeTaskEntry taskOf <$> chunks).
Proof. intros Htask. apply Forall_fmap, Forall_forall. intros [a b] _. split; [apply Htask|done]. Qed.

Lemma setupLogFilter_queue latest finalized logFilter s :
  addsRangeTasks s (setupLogFilter latest finalized logFilter s).1.
Proof.
  unfold setupLogFilter.
  destruct (validateHistoricalBlockRange _ _ _ _) as [e|range]; [apply addsRangeTasks_refl|].
  destruct (isHistoricalSyncRequired range); cbn [negb]; [|by apply addsRangeTasks_same_queue].
  rewrite addLogFilterTasks_withQueued. eexists. split; [done|]. by apply rangeTaskEntry_range.
Qed.

Lemma setupFactory_queue latest finalized factory s :
  addsRangeTasks s (setupFactory latest finalized factory s).1.
Proof.
  unfold setupFactory.
  destruct (validateHistoricalBlockRange _ _ _ _) as [e|range]; [apply addsRangeTasks_refl|].
  destruct (isHistoricalSyncRequired range); cbn [negb]; [|by apply addsRangeTasks_same_queue].
  rewrite addFactoryChildAddressTasks_withQueued, addFactoryLogFilterTasks_withQueued.
  eexists (_ ++ _). split; [simpl; by rewrite app_assoc|].
  apply Forall_app. split; by apply rangeTaskEntry_range.
Qed.

Lemma addsRangeTasks_below s s' :
  addsRangeTasks s s' →
  blockTasksEnqueuedCheckpoint s' = blockTasksEnqueuedCheckpoint s →
  blockTasksBelowCheckpoint s → blockTasksBelowCheckpoint s'.
Proof.
  intros (added & Hq & Hadded) Hc Hs. unfold blockTasksBelowCheckpoint.
  rewrite Hc, Hq. simpl. apply Forall_app. split; [done|].
  eapply Forall_impl; [exact Hadded|]. intros e [He _]. by destruct (qe_task e).
Qed.

Lemma Reachable_blockTasksBelowCheckpoint s : Reachable s → blockTasksBelowCheckpoint s.
Proof.
  induction 1 as [|latest finalized s _ IH|latest finalized logFilter s _ IH
                  |latest finalized factory s _ IH|hrtime now s _ IH|s _ IH
                  |fuel s s' _ IH Hrun].
  - constructor.
  - done.
  - eapply addsRangeTasks_below; [apply setupLogFilter_queue|apply setupLogFilter_checkpoint|done].
  - eapply addsRangeTasks_below; [apply setupFactory_queue|apply setupFactory_checkpoint|done].
  - unfold blockTasksBelowCheckpoint, start. simpl. by destruct (bool_decide _).
  - constructor.
  - by eapply runNextTask_checkpoint.
Qed.

End SetupQueue.

(** X4. The events of one task.  Whatever the kind of the task and however it
    ends, its worker emits at most one [historicalCheckpoint], and only a
    BLOCK task emits one; [syncComplete] follows, as the last event, exactly
    when the worker returned without an error, no task is queued and no other
    task is running.  A worker that throws never emits [syncComplete]. *)
Theorem worker_events (fuel : nat) (task : HistoricalSyncTask) (s s' : Service)
    (r : Exn + unit) :
  worker fuel task s = Some (s', r) →
  ∃ checkpoints,
    effects s'
    = effects s ++ checkpoints ++ (if isFinalTask r s' then [Emit syncComplete] else [])
    ∧ (checkpoints = []
       ∨ ∃ blockNumber callbacks number timestamp,
           task = BLOCK blockNumber callbacks
           ∧ checkpoints = [Emit (historicalCheckpoint (Some number) timestamp)])
    ∧ (isFinalTask r s' = true
       ↔ r = inr tt ∧ q_queued (queue s') = [] ∧ (q_pending (queue s') ≤ 1)%nat).
Proof.
  intros (s1 & Hfoot & ->)%worker_footprint.
  destruct Hfoot as (_ & _ & _ & (es & Hes & Hemitted) & _).
  assert (Hfinal : isFinalTask r (if isFinalTask r s1 then emit syncComplete s1 else s1)
                   = isFinalTask r s1)
    by (destruct (isFinalTask r s1) eqn:Hf; [exact Hf|done]).
  exists es. rewrite Hfinal. split_and!.
  - destruct (isFinalTask r s1); simpl; rewrite Hes; by rewrite ?app_nil_r, ?app_assoc.
  - exact Hemitted.
  - assert (Hq : queue (if isFinalTask r s1 then emit syncComplete s1 else s1) = queue s1)
      by (by destruct (isFinalTask r s1)).
    rewrite Hq. unfold isFinalTask, size_. destruct r as [e|u].
    + split; [done|]. by intros [[=] _].
    + destruct u. rewrite negb_true_iff, orb_false_iff, !bool_decide_eq_false.
      destruct (q_queued (queue s1)); simpl; split.
      * intros [_ ?]. split_and!; [done|done|lia].
      * intros (_ & _ & ?). split; lia.
      * intros [? _]. lia.
      * by intros (_ & ? & _).
Qed.

(** X4 at a service whose last pending block is 110: the BLOCK task emits the
    checkpoint at 110 and then [syncComplete]. *)
Lemma worker_events_witness :
  let s' :=
    emit syncComplete
      (emit (historicalCheckpoint (Some 110) 110)
         (set_blockProgressTracker
            (addCompletedBlock (blockProgressTracker serviceLastBlock) 110 110).1
            (set_rpcHistory [Eth_getBlockByNumber (hexOf 110) true] serviceLastBlock))) in
  ∃ checkpoints,
    effects s'
    = effects serviceLastBlock ++ checkpoints
      ++ (if isFinalTask (inr tt) s' then [Emit syncComplete] else [])
    ∧ (checkpoints = []
       ∨ ∃ blockNumber callbacks number timestamp,
           BLOCK 110 [] = BLOCK blockNumber callbacks
           ∧ checkpoints = [Emit (historicalCheckpoint (Some number) timestamp)])
    ∧ (isFinalTask (inr tt) s' = true
       ↔ @inr Exn unit tt = inr tt ∧ q_queued (queue s') = [] ∧ (q_pending (queue s') ≤ 1)%nat).
Proof.
  apply (worker_events 0 (BLOCK 110 []) serviceLastBlock).
  reflexivity.
Defined.

(** X5. The tasks a worker enqueues.  A worker only appends to the queue and
    starts or stops nothing.  A LOG_FILTER or FACTORY_LOG_FILTER task adds
    BLOCK tasks only, each for a block at or below the new
    [blockTasksEnqueuedCheckpoint]; a FACTORY_CHILD_ADDRESS task adds
    FACTORY_LOG_FILTER tasks of its own factory only; a BLOCK task adds
    nothing.  No worker ever adds a LOG_FILTER or a FACTORY_CHILD_ADDRESS
    task: those come from [setup] and from the error handler alone. *)
Theorem worker_enqueues (fuel : nat) (task : HistoricalSyncTask) (s s' : Service)
    (r : Exn + unit) :
  worker fuel task s = Some (s', r) →
  ∃ added,
    q_queued (queue s') = q_queued (queue s) ++ added
    ∧ q_pending (queue s') = q_pending (queue s)
    ∧ q_started (queue s') = q_started (queue s)
    ∧ Forall (addedBy task s') added
    ∧ Forall (λ e, match qe_task e with
                   | LOG_FILTER _ _ _ | FACTORY_CHILD_ADDRESS _ _ _ => False
                   | _ => True
                   end) added
    ∧ (∀ blockNumber callbacks, task = BLOCK blockNumber callbacks → added = []).
Proof.
  intros (s1 & Hfoot & ->)%worker_footprint.
  destruct Hfoot as ((added & Hq & Hadded) & Hp & Hst & _ & _).
  assert (Hqueue : queue (if isFinalTask r s1 then emit syncComplete s1 else s1) = queue s1)
    by (by destruct (isFinalTask r s1)).
  assert (Hckpt : blockTasksEnqueuedCheckpoint
                    (if isFinalTask r s1 then emit syncComplete s1 else s1)
                  = blockTasksEnqueuedCheckpoint s1)
    by (by destruct (isFinalTask r s1)).
  exists added. rewrite Hqueue. split_and!; try done.
  - eapply Forall_impl; [exact Hadded|]. intros e. unfold addedBy. by rewrite Hckpt.
  - eapply Forall_impl; [exact Hadded|]. intros e. unfold addedBy.
    by destruct task, (qe_task e).
  - intros blockNumber callbacks ->. destruct added as [|e added]; [done|].
    apply Forall_cons in Hadded as [He _]. unfold addedBy in He. by destruct (qe_task e).
Qed.

Lemma worker_serviceS1_running :
  worker 3 (LOG_FILTER logFilterS1 100 149) serviceS1_running = Some (serviceS1_worked, inr tt).
Proof.
  assert (Hreturns : match worker 3 (LOG_FILTER logFilterS1 100 149) serviceS1_running with
                     | Some (_, inr _) => true
                     | _ => false
                     end = true) by (vm_compute; reflexivity).
  unfold serviceS1_worked.
  by destruct (worker 3 (LOG_FILTER logFilterS1 100 149) serviceS1_running) as [[s [e|[]]]|].
Qed.

(** X5 at scenario S1: the LOG_FILTER task for [[100, 149]] adds the BLOCK
    tasks for 110 and 149. *)
Lemma worker_enqueues_witness :
  (worker 3 (LOG_FILTER logFilterS1 100 149) serviceS1_running = Some (serviceS1_worked, inr tt)
   ∧ (λ e, (qe_task e, qe_priority e))
       <$> drop (length (q_queued (queue serviceS1_running))) (q_queued (queue serviceS1_worked))
     = [ (BLOCK 110 [LogFilterCallback logFilterS1
                       {| li_startBlock := 100; li_endBlock := 110;
                          li_logs := [mkRpcLog "0xA" (hexOf 110) "0xh1" "0x0"];
                          li_transactionHashes := {["0xh1"]} |}],
          MAX_SAFE_INTEGER - 110);
         (BLOCK 149 [LogFilterCallback logFilterS1
                       {| li_startBlock := 111; li_endBlock := 149;
                          li_logs := [];
                          li_transactionHashes := ∅ |}],
          MAX_SAFE_INTEGER - 149) ])
  ∧ ∃ added,
    q_queued (queue serviceS1_worked) = q_queued (queue serviceS1_running) ++ added
    ∧ q_pending (queue serviceS1_worked) = q_pending (queue serviceS1_running)
    ∧ q_started (queue serviceS1_worked) = q_started (queue serviceS1_running)
    ∧ Forall (addedBy (LOG_FILTER logFilterS1 100 149) serviceS1_worked) added
    ∧ Forall (λ e, match qe_task e with
                   | LOG_FILTER _ _ _ | FACTORY_CHILD_ADDRESS _ _ _ => False
                   | _ => True
                   end) added
    ∧ (∀ blockNumber callbacks,
         LOG_FILTER logFilterS1 100 149 = BLOCK blockNumber callbacks → added = []).
Proof.
  split; [split; [exact worker_serviceS1_running|by vm_compute]|].
  apply (worker_enqueues 3 (LOG_FILTER logFilterS1 100 149) serviceS1_running
           serviceS1_worked (inr tt)).
  exact worker_serviceS1_running.
Defined.

(** X6. In every state of the service, each queued BLOCK task is for a block
    at or below [blockTasksEnqueuedCheckpoint], and running a task never
    lowers that checkpoint: block tasks are enqueued only for blocks that
    every tracker has passed. *)
Theorem block_tasks_at_most_checkpoint (s : Service) :
  Reachable s →
  (∀ e blockNumber callbacks,
     e ∈ q_queued (queue s) → qe_task e = BLOCK blockNumber callbacks →
     num_leb (Fin blockNumber) (blockTasksEnqueuedCheckpoint s) = true)
  ∧ (∀ fuel s', runNextTask fuel s = Some s' →
       num_leb (blockTasksEnqueuedCheckpoint s) (blockTasksEnqueuedCheckpoint s') = true).
Proof.
  intros Hreach. split.
  - intros e blockNumber callbacks He Htask.
    pose proof (Reachable_blockTasksBelowCheckpoint s Hreach) as Hinv.
    unfold blockTasksBelowCheckpoint in Hinv. rewrite Forall_forall in Hinv.
    specialize (Hinv e He). by rewrite Htask in Hinv.
  - intros fuel s' Hrun. by apply runNextTask_checkpoint in Hrun as [? _].
Qed.

Lemma runNextTask_serviceS1 : runNextTask 3 serviceS1 = Some serviceS1_afterFirstTask.
Proof.
  assert (Hreturns : match runNextTask 3 serviceS1 with Some _ => true | None => false end
                     = true) by (vm_compute; reflexivity).
  unfold serviceS1_afterFirstTask. by destruct (runNextTask 3 serviceS1).
Qed.

Lemma Reachable_serviceS1_afterFirstTask : Reachable serviceS1_afterFirstTask.
Proof.
  eapply Reachable_runNextTask; [|exact runNextTask_serviceS1].
  apply Reachable_start, Reachable_setupLogFilter, Reachable_setup, Reachable_new.
Qed.

(** X6 at scenario S1 once the first task has run: the checkpoint is 149 and
    the BLOCK tasks queued are those for 110 and 149. *)
Lemma block_tasks_at_most_checkpoint_witness :
  (Reachable serviceS1_afterFirstTask
   ∧ blockTasksEnqueuedCheckpoint serviceS1_afterFirstTask = Fin 149
   ∧ taskBlock ∘ qe_task <$> q_queued (queue serviceS1_afterFirstTask) = [150; 110; 149])
  ∧ (∀ e blockNumber callbacks,
       e ∈ q_queued (queue serviceS1_afterFirstTask) →
       qe_task e = BLOCK blockNumber callbacks →
       num_leb (Fin blockNumber) (blockTasksEnqueuedCheckpoint serviceS1_afterFirstTask) = true)
  ∧ (∀ fuel s', runNextTask fuel serviceS1_afterFirstTask = Some s' →
       num_leb (blockTasksEnqueuedCheckpoint serviceS1_afterFirstTask)
               (blockTasksEnqueuedCheckpoint s') = true).
Proof.
  split; [split; [exact Reachable_serviceS1_afterFirstTask|by vm_compute]|].
  apply (block_tasks_at_most_checkpoint serviceS1_afterFirstTask).
  exact Reachable_serviceS1_afterFirstTask.
Defined.

(** ** [_eth_getLogs]: the other branches *)

Section EthGetLogs.

Implicit Types (client : RpcClient) (history : list RpcRequest) (options : GetLogsOptions).


Lemma retryRangesFor_unrecognised error options :
  unrecognised error → retryRangesFor error options = inl (ExnRpc error).
Proof.
  unfold retryRangesFor. intros (Hinvalid & Hlimit & Hhttp).
  destruct (err_class error) eqn:Hclass.
  - destruct (Hinvalid eq_refl) as [-> ->]. done.
  - rewrite (Hlimit eq_refl). done.
  - rewrite (Hhttp eq_refl). done.
  - done.
Qed.





Lemma sameFilter_withRange options from to request :
  sameFilter (withRange options from to) request → sameFilter options request.
Proof. intros (o & -> & Ha & Ht). by exists o. Qed.

End EthGetLogs.



(** X8. An error that is none of the four recognised ones is thrown again
    after the one failed request: no sub-request is made. *)
Theorem eth_getLogs_rethrows_unrecognised (fuel : nat) (client : RpcClient)
    (history : list RpcRequest) (options : GetLogsOptions) (error : RpcError) :
  request_getLogs client history options = inl error →
  unrecognised error →
  _eth_getLogs (S fuel) client history options
  = Some (history ++ [Eth_getLogs options], inl (ExnRpc error)).
Proof.
  intros Hrequest Hun.
  by rewrite _eth_getLogs_unfold, Hrequest, (retryRangesFor_unrecognised _ _ Hun).
Qed.

(** X8 at a node that cannot be reached. *)
Lemma eth_getLogs_rethrows_unrecognised_witness :
  _eth_getLogs 1 clientUnreachable [] optionsS4
  = Some ([] ++ [Eth_getLogs optionsS4],
          inl (ExnRpc {| err_class := HttpRequestError; err_details := "fetch failed" |})).
Proof.
  apply (eth_getLogs_rethrows_unrecognised 0 clientUnreachable [] optionsS4
           {| err_class := HttpRequestError; err_details := "fetch failed" |}).
  - reflexivity.
  - split_and!; [done|done|]. intros _. reflexivity.
Defined.

(** X9. [_eth_getLogs] has no retry limit.  At a node that refuses every
    request for logs with the same response size error and suggested range,
    the call recurses without end: it returns for no depth of recursion. *)
Theorem eth_getLogs_never_gives_up (client : RpcClient) (error : RpcError) (a b : Z) :
  (∀ history options, request_getLogs client history options = inl error) →
  suggestsRange error (JInt a) (JInt b) →
  0 ≤ a ≤ MAX_SAFE_INTEGER →
  0 ≤ b < MAX_SAFE_INTEGER →
  ∀ fuel history options, _eth_getLogs fuel client history options = None.
Proof.
  intros Hrequest Hsuggests Ha Hb fuel.
  induction fuel as [|fuel IH]; intros history options; [done|].
  rewrite _eth_getLogs_unfold, Hrequest, (retryRangesFor_suggested _ _ _ _ Hsuggests).
  cbn [js_succ]. rewrite !toHex_block by lia. cbn [forRetryRanges]. by rewrite IH.
Qed.

(** X9 at a node that suggests [[0, 400]] each time. *)
Lemma eth_getLogs_never_gives_up_witness :
  suggestedRange "this block range should work: " 1
    "Log response size exceeded. this block range should work: [0, 400]"
  = inr (JInt 0, JInt 400)
  ∧ ∀ fuel history options, _eth_getLogs fuel clientAlwaysRefusing history options = None.
Proof.
  split; [reflexivity|].
  apply (eth_getLogs_never_gives_up clientAlwaysRefusing
           {| err_class := InvalidParamsRpcError;
              err_details :=
                "Log response size exceeded. this block range should work: [0, 400]" |}
           0 400).
  - reflexivity.
  - left. repeat split.
  - vm_compute. split; discriminate.
  - vm_compute. split; [discriminate|reflexivity].
Defined.

(** X10. Whatever a call of [_eth_getLogs] retries, its first request is the
    one for [options], and every request it makes after that carries the
    address and the topics of [options]: only the block range changes. *)
Theorem eth_getLogs_keeps_filter (fuel : nat) (client : RpcClient)
    (history history' : list RpcRequest) (options : GetLogsOptions)
    (r : Exn + list RpcLog) :
  _eth_getLogs fuel client history options = Some (history', r) →
  ∃ more, history' = history ++ Eth_getLogs options :: more
          ∧ Forall (sameFilter options) more.
Proof.
  revert history history' options r.
  induction fuel as [|fuel IH]; intros history history' options r; [done|].
  rewrite _eth_getLogs_unfold.
  destruct (request_getLogs client history options) as [error|logs_];
    [|intros [= <- <-]; by exists []].
  destruct (retryRangesFor error options) as [e|retryRanges];
    [intros [= <- <-]; by exists []|].
  assert (Hfor : ∀ h logs h' r',
    forRetryRanges (_eth_getLogs fuel client) options retryRanges h logs = Some (h', r') →
    ∃ more, h' = h ++ more ∧ Forall (sameFilter options) more).
  { clear history' r. induction retryRanges as [|[from to] retryRanges IHr];
      intros h logs h' r'; simpl.
    - intros [= <- <-]. exists []. by rewrite app_nil_r.
    - destruct (_eth_getLogs fuel client h (withRange options from to))
        as [[h1 [e|logs_]]|] eqn:Hcall; [| |done].
      + intros [= <- <-]. apply IH in Hcall as (more & -> & Hmore). eexists. split; [done|].
        constructor; [by eexists|].
        eapply Forall_impl; [exact Hmore|]. apply sameFilter_withRange.
      + intros Hrest. apply IH in Hcall as (more1 & -> & Hmore1).
        apply IHr in Hrest as (more2 & -> & Hmore2). rewrite <- app_assoc.
        eexists. split; [done|]. simpl. constructor; [by eexists|].
        apply Forall_app. split; [|done].
        eapply Forall_impl; [exact Hmore1|]. apply sameFilter_withRange. }
  intros Hrun. apply Hfor in Hrun as (more & -> & Hmore). exists more.
  by rewrite <- app_assoc.
Qed.

(** X10 at scenario S4. *)
Lemma eth_getLogs_keeps_filter_witness :
  let requests :=
    [ Eth_getLogs optionsS4;
      Eth_getLogs (withRange optionsS4 "0x0" "0x190");
      Eth_getLogs (withRange optionsS4 "0x191" "0x3e8") ] in
  let logs := [ mkRpcLog "0xA" "0x0" "0xh" "0x0"; mkRpcLog "0xA" "0x191" "0xh" "0x0" ] in
  _eth_getLogs 2 clientS4 [] optionsS4 = Some (requests, inr logs)
  ∧ ∃ more, requests = [] ++ Eth_getLogs optionsS4 :: more
            ∧ Forall (sameFilter optionsS4) more.
Proof.
  split; [reflexivity|].
  apply (eth_getLogs_keeps_filter 2 clientS4 [] _ optionsS4
           (inr [ mkRpcLog "0xA" "0x0" "0xh" "0x0"; mkRpcLog "0xA" "0x191" "0xh" "0x0" ])).
  reflexivity.
Defined.

(** ** The gateway: the events and the finality checkpoint *)

Section GatewayEvents.

Import SyncGateway.

Implicit Types (g : SyncGateway.t) (c : Call) (n : NetworkCheckpoint).

Lemma num_ltb_trans (a b c : num) :
  num_ltb a b = true → num_ltb b c = true → num_ltb a c = true.
Proof.
  destruct a, b, c; simpl; try done.
  rewrite !bool_decide_eq_true. lia.
Qed.

Lemma num_leb_ltb_trans (a b c : num) :
  num_leb a b = true → num_ltb b c = true → num_ltb a c = true.
Proof.
  unfold num_leb. destruct a, b, c; simpl; try done.
  rewrite negb_true_iff, bool_decide_eq_false, !bool_decide_eq_true. lia.
Qed.

(** A list that rises strictly is bounded by its last element. *)
Lemma rising_bounded (l : list num) : ∀ start current,
  StronglySorted (λ a b, num_ltb a b = true) (start :: l) →
  last (start :: l) = Some current →
  Forall (λ t, num_leb t current = true) (start :: l).
Proof.
  induction l as [|x l IH]; intros start current Hs Hlast.
  - simpl in Hlast. injection Hlast as <-. repeat constructor. apply num_leb_refl.
  - apply StronglySorted_inv in Hs as [Hs Hall].
    change (last (start :: x :: l)) with (last (x :: l)) in Hlast.
    specialize (IH x current Hs Hlast).
    constructor; [|done].
    apply Forall_cons in Hall as [Hx _]. apply Forall_cons in IH as [Hxc _].
    apply num_ltb_leb in Hx. by eapply num_leb_trans.
Qed.

Lemma risesTo_snoc start timestamps current z :
  risesTo start timestamps current → num_ltb current (Fin z) = true →
  risesTo start (timestamps ++ [Fin z]) (Fin z).
Proof.
  intros (Hs & Hfin & Hlast) Hlt. split_and!.
  - change (start :: timestamps ++ [Fin z]) with ((start :: timestamps) ++ [Fin z]).
    apply StronglySorted_app_2; [|done|repeat constructor].
    intros x1 x2 Hx1 ->%list_elem_of_singleton.
    pose proof (rising_bounded _ _ _ Hs Hlast) as Hb. rewrite Forall_forall in Hb.
    eapply num_leb_ltb_trans; [by apply Hb|done].
  - apply Forall_app. split; [done|]. repeat constructor. by eexists.
  - change (start :: timestamps ++ [Fin z]) with ((start :: timestamps) ++ [Fin z]).
    by rewrite last_snoc.
Qed.

(** The minimum of the values of a map that is not empty is finite. *)
Lemma Math_min_finite {V} (f : V → Z) (m : gmap Z V) :
  m ≠ ∅ → ∃ z, Math_min (f <$> Object_values m) = Fin z.
Proof.
  intros Hne. destruct (Math_min_attained (f <$> Object_values m)) as [[Hnil _]|(z & _ & ->)].
  - apply fmap_nil_inv, Object_values_empty in Hnil. done.
  - by eexists.
Qed.

(** What a recalculation does to the checkpoint and its events. *)
Lemma recalculateCheckpoint_step g :
  networkCheckpoints g ≠ ∅ →
  let g' := recalculateCheckpoint g in
  ((checkpoint g' = checkpoint g ∧ newCheckpoints g' = newCheckpoints g)
   ∨ ∃ z, checkpoint g' = Fin z ∧ num_ltb (checkpoint g) (Fin z) = true
          ∧ newCheckpoints g' = newCheckpoints g ++ [Fin z])
  ∧ finalityCheckpoint g' = finalityCheckpoint g
  ∧ newFinalityCheckpoints g' = newFinalityCheckpoints g.
Proof.
  intros Hne. destruct (Math_min_finite networkCheckpointOf _ Hne) as [z Hz].
  unfold recalculateCheckpoint. rewrite Hz.
  destruct (num_ltb (checkpoint g) (Fin z)) eqn:Hlt; cbn zeta.
  - split; [right; exists z|]; unfold newCheckpoints, newFinalityCheckpoints; simpl;
      rewrite omap_app; simpl; by rewrite ?app_nil_r.
  - split; [by left|done].
Qed.

Lemma recalculateFinalityCheckpoint_step g :
  networkCheckpoints g ≠ ∅ →
  let g' := recalculateFinalityCheckpoint g in
  ((finalityCheckpoint g' = finalityCheckpoint g
    ∧ newFinalityCheckpoints g' = newFinalityCheckpoints g)
   ∨ ∃ z, finalityCheckpoint g' = Fin z ∧ num_ltb (finalityCheckpoint g) (Fin z) = true
          ∧ newFinalityCheckpoints g' = newFinalityCheckpoints g ++ [Fin z])
  ∧ checkpoint g' = checkpoint g
  ∧ newCheckpoints g' = newCheckpoints g.
Proof.
  intros Hne. destruct (Math_min_finite n_finalityCheckpoint _ Hne) as [z Hz].
  unfold recalculateFinalityCheckpoint. rewrite Hz.
  destruct (num_ltb (finalityCheckpoint g) (Fin z)) eqn:Hlt; cbn zeta.
  - split; [right; exists z|]; unfold newCheckpoints, newFinalityCheckpoints; simpl;
      rewrite omap_app; simpl; by rewrite ?app_nil_r.
  - split; [by left|done].
Qed.

(** What a handler does to the two checkpoints and their events. *)
Lemma handle_step c g g' :
  handle c g = Some g' →
  ((checkpoint g' = checkpoint g ∧ newCheckpoints g' = newCheckpoints g)
   ∨ ∃ z, checkpoint g' = Fin z ∧ num_ltb (checkpoint g) (Fin z) = true
          ∧ newCheckpoints g' = newCheckpoints g ++ [Fin z])
  ∧ ((finalityCheckpoint g' = finalityCheckpoint g
      ∧ newFinalityCheckpoints g' = newFinalityCheckpoints g)
     ∨ ∃ z, finalityCheckpoint g' = Fin z ∧ num_ltb (finalityCheckpoint g) (Fin z) = true
            ∧ newFinalityCheckpoints g' = newFinalityCheckpoints g ++ [Fin z]).
Proof.
  destruct c as [chainId ts|chainId|chainId ts|chainId ts|ts]; simpl;
    unfold handleNewHistoricalCheckpoint, handleHistoricalSyncComplete,
      handleNewRealtimeCheckpoint, handleNewFinalityCheckpoint, handleReorg.
  - destruct (networkCheckpoints g !! chainId) as [n|]; [|done]. intros [= <-].
    destruct (recalculateCheckpoint_step (set_networkCheckpoints
                (<[chainId := {| n_isHistoricalSyncComplete := n_isHistoricalSyncComplete n;
                                 n_historicalCheckpoint := ts;
                                 n_realtimeCheckpoint := n_realtimeCheckpoint n;
                                 n_finalityCheckpoint := n_finalityCheckpoint n |}]>
                   (networkCheckpoints g)) g)) as (Hc & Hf & Hfe);
      [apply insert_non_empty|]. split; [exact Hc|left; by split].
  - destruct (networkCheckpoints g !! chainId) as [n|]; [|done].
    destruct (recalculateCheckpoint_step (set_networkCheckpoints
                (<[chainId := {| n_isHistoricalSyncComplete := true;
                                 n_historicalCheckpoint := n_historicalCheckpoint n;
                                 n_realtimeCheckpoint := n_realtimeCheckpoint n;
                                 n_finalityCheckpoint := n_finalityCheckpoint n |}]>
                   (networkCheckpoints g)) g)) as (Hc & Hf & Hfe);
      [apply insert_non_empty|].
    destruct (forallb _ _); intros [= <-]; (split; [exact Hc|left; by split]).
  - destruct (networkCheckpoints g !! chainId) as [n|]; [|done]. intros [= <-].
    destruct (recalculateCheckpoint_step (set_networkCheckpoints
                (<[chainId := {| n_isHistoricalSyncComplete := n_isHistoricalSyncComplete n;
                                 n_historicalCheckpoint := n_historicalCheckpoint n;
                                 n_realtimeCheckpoint := ts;
                                 n_finalityCheckpoint := n_finalityCheckpoint n |}]>
                   (networkCheckpoints g)) g)) as (Hc & Hf & Hfe);
      [apply insert_non_empty|]. split; [exact Hc|left; by split].
  - destruct (networkCheckpoints g !! chainId) as [n|]; [|done]. intros [= <-].
    destruct (recalculateFinalityCheckpoint_step (set_networkCheckpoints
                (<[chainId := {| n_isHistoricalSyncComplete := n_isHistoricalSyncComplete n;
                                 n_historicalCheckpoint := n_historicalCheckpoint n;
                                 n_realtimeCheckpoint := n_realtimeCheckpoint n;
                                 n_finalityCheckpoint := ts |}]>
                   (networkCheckpoints g)) g)) as (Hf & Hc & Hce);
      [apply insert_non_empty|]. split; [left; by split|exact Hf].
  - intros [= <-]. split; left; split; try done;
      unfold newCheckpoints, newFinalityCheckpoints; simpl; rewrite omap_app; simpl;
      by rewrite app_nil_r.
Qed.

Lemma risesTo_step start timestamps timestamps' current current' :
  risesTo start timestamps current →
  (current' = current ∧ timestamps' = timestamps)
  ∨ (∃ z, current' = Fin z ∧ num_ltb current (Fin z) = true
          ∧ timestamps' = timestamps ++ [Fin z]) →
  risesTo start timestamps' current'.
Proof.
  intros Hr [[-> ->]|(z & -> & Hlt & ->)]; [done|]. by eapply risesTo_snoc.
Qed.

Lemma run_new_rises (networks : list Z) (calls : list Call) :
  let g := run calls (new networks) in
  risesTo (Fin 0) (newCheckpoints g) (checkpoint g)
  ∧ risesTo (Fin 0) (newFinalityCheckpoints g) (finalityCheckpoint g).
Proof.
  induction calls as [|c calls IH] using rev_ind.
  - split; (split_and!; [repeat constructor|constructor|done]).
  - cbn zeta. rewrite run_snoc. destruct IH as [IHc IHf].
    destruct (handle c (run calls (new networks))) as [g'|] eqn:Hhandle;
      cbn [default from_option id]; [|done].
    destruct (handle_step _ _ _ Hhandle) as [Hc Hf].
    split; [exact (risesTo_step _ _ _ _ _ IHc Hc)|exact (risesTo_step _ _ _ _ _ IHf Hf)].
Qed.

Lemma handle_finality_monotone c g g' :
  handle c g = Some g' → num_leb (finalityCheckpoint g) (finalityCheckpoint g') = true.
Proof.
  intros [_ [[-> _]|(z & -> & Hlt & _)]]%handle_step;
    [apply num_leb_refl|by apply num_ltb_leb].
Qed.

Lemma run_finality_monotone calls g :
  num_leb (finalityCheckpoint g) (finalityCheckpoint (run calls g)) = true.
Proof.
  induction calls as [|c calls IH] using rev_ind; [apply num_leb_refl|].
  rewrite run_snoc. destruct (handle c (run calls g)) as [g'|] eqn:Hhandle; [|done].
  simpl. eapply num_leb_trans; [done|]. by eapply handle_finality_monotone.
Qed.

Lemma recalculateCheckpoint_finalityCheckpoint g :
  finalityCheckpoint (recalculateCheckpoint g) = finalityCheckpoint g.
Proof. apply recalculateCheckpoint_checkpoint. Qed.

(** The gateway of one network after its first historical checkpoint and its
    first finality checkpoint. *)
Lemma run_new_first (chainId timestamp : Z) :
  0 < timestamp →
  let g := run [HandleNewHistoricalCheckpoint chainId timestamp;
                HandleNewFinalityCheckpoint chainId timestamp] (new [chainId]) in
  emitted g = [newCheckpoint (Fin timestamp); newFinalityCheckpoint (Fin timestamp)]
  ∧ checkpoint g = Fin timestamp
  ∧ finalityCheckpoint g = Fin timestamp.
Proof.
  intros Hpos. unfold run, new. cbn [fold_left handle].
  assert (Hlt : bool_decide (0 < timestamp) = true) by (by apply bool_decide_eq_true_2).
  unfold handleNewHistoricalCheckpoint. cbn [networkCheckpoints].
  rewrite lookup_insert_eq, insert_insert_eq.
  unfold recalculateCheckpoint, set_networkCheckpoints, Object_values.
  cbn [networkCheckpoints checkpoint]. rewrite !insert_empty, !map_to_list_singleton.
  cbn. rewrite Hlt. cbn.
  unfold handleNewFinalityCheckpoint. cbn [networkCheckpoints].
  rewrite lookup_singleton_eq, insert_singleton_eq.
  unfold recalculateFinalityCheckpoint, set_networkCheckpoints, Object_values.
  cbn [networkCheckpoints finalityCheckpoint]. rewrite !map_to_list_singleton.
  cbn. rewrite Hlt. done.
Qed.

End GatewayEvents.

(** X11. The [newCheckpoint] events of a gateway carry finite timestamps that
    rise strictly, the first above 0, and the last of them is the checkpoint
    the gateway holds; likewise the [newFinalityCheckpoint] events and the
    finality checkpoint.  Both checkpoints are finite and not negative after
    every sequence of calls, for every list of networks, the empty one
    included.  The events do come: a gateway of one network that is told a
    first historical checkpoint and a first finality checkpoint above 0 emits
    one event for each and holds the two timestamps. *)
Theorem gateway_checkpoint_events_rise (networks : list Z) (calls : list SyncGateway.Call) :
  let g := SyncGateway.run calls (SyncGateway.new networks) in
  risesTo (Fin 0) (newCheckpoints g) (SyncGateway.checkpoint g)
  ∧ risesTo (Fin 0) (newFinalityCheckpoints g) (SyncGateway.finalityCheckpoint g)
  ∧ (∃ z, SyncGateway.checkpoint g = Fin z ∧ 0 ≤ z)
  ∧ (∃ z, SyncGateway.finalityCheckpoint g = Fin z ∧ 0 ≤ z)
  ∧ (∀ chainId timestamp, 0 < timestamp →
       let g1 := SyncGateway.run
                   [ SyncGateway.HandleNewHistoricalCheckpoint chainId timestamp;
                     SyncGateway.HandleNewFinalityCheckpoint chainId timestamp ]
                   (SyncGateway.new [chainId]) in
       newCheckpoints g1 = [Fin timestamp]
       ∧ newFinalityCheckpoints g1 = [Fin timestamp]
       ∧ SyncGateway.checkpoint g1 = Fin timestamp
       ∧ SyncGateway.finalityCheckpoint g1 = Fin timestamp).
Proof.
  intros g. destruct (run_new_rises networks calls) as [Hc Hf]. fold g in Hc, Hf.
  assert (Hfinite : ∀ timestamps current,
    risesTo (Fin 0) timestamps current → ∃ z, current = Fin z ∧ 0 ≤ z).
  { intros timestamps current (Hs & Hfin & Hlast).
    destruct timestamps as [|t timestamps _] using rev_ind.
    - injection Hlast as <-. by exists 0.
    - change (Fin 0 :: timestamps ++ [t]) with ((Fin 0 :: timestamps) ++ [t]) in Hs, Hlast.
      rewrite last_snoc in Hlast. injection Hlast as <-.
      apply Forall_app in Hfin as [_ [[z ->] _]%Forall_cons]. exists z. split; [done|].
      apply StronglySorted_app_1_elem_of with (x1 := Fin 0) (x2 := Fin z) in Hs;
        [|by left|by apply list_elem_of_singleton].
      simpl in Hs. apply bool_decide_eq_true_1 in Hs. lia. }
  split_and!; [done|done|by eapply Hfinite|by eapply Hfinite|].
  intros chainId timestamp Hpos.
  destruct (run_new_first chainId timestamp Hpos) as (Hemitted & Hcheckpoint & Hfinality).
  cbv zeta. unfold newCheckpoints, newFinalityCheckpoints. by rewrite Hemitted.
Qed.

(** X12. [recalculateFinalityCheckpoint] takes the minimum of the finality
    checkpoints of all networks, stores it and emits [newFinalityCheckpoint]
    exactly when it exceeds the stored one.  [handleNewFinalityCheckpoint]
    sets the finality checkpoint of a registered network and recalculates,
    and throws for a network that is not registered.  No handler lowers the
    finality checkpoint of the gateway, and only
    [handleNewFinalityCheckpoint] changes it. *)
Theorem gateway_finalityCheckpoint_never_decreases (g : SyncGateway.t)
    (chainId timestamp : Z) :
  (let m := Math_min (SyncGateway.n_finalityCheckpoint
                        <$> Object_values (SyncGateway.networkCheckpoints g)) in
   (∀ chain n, SyncGateway.networkCheckpoints g !! chain = Some n →
               num_leb m (Fin (SyncGateway.n_finalityCheckpoint n)) = true)
   ∧ ((m = PosInf ∧ SyncGateway.networkCheckpoints g = ∅)
      ∨ ∃ chain n, SyncGateway.networkCheckpoints g !! chain = Some n
                   ∧ m = Fin (SyncGateway.n_finalityCheckpoint n))
   ∧ SyncGateway.finalityCheckpoint (SyncGateway.recalculateFinalityCheckpoint g)
     = (if num_ltb (SyncGateway.finalityCheckpoint g) m then m
        else SyncGateway.finalityCheckpoint g)
   ∧ SyncGateway.emitted (SyncGateway.recalculateFinalityCheckpoint g)
     = SyncGateway.emitted g
       ++ (if num_ltb (SyncGateway.finalityCheckpoint g) m
           then [SyncGateway.newFinalityCheckpoint m] else []))
  ∧ (∀ n, SyncGateway.networkCheckpoints g !! chainId = Some n →
       SyncGateway.handleNewFinalityCheckpoint chainId timestamp g
       = Some (SyncGateway.recalculateFinalityCheckpoint
                 (SyncGateway.set_networkCheckpoints
                    (<[chainId :=
                         {| SyncGateway.n_isHistoricalSyncComplete :=
                              SyncGateway.n_isHistoricalSyncComplete n;
                            SyncGateway.n_historicalCheckpoint :=
                              SyncGateway.n_historicalCheckpoint n;
                            SyncGateway.n_realtimeCheckpoint :=
                              SyncGateway.n_realtimeCheckpoint n;
                            SyncGateway.n_finalityCheckpoint := timestamp |}]>
                       (SyncGateway.networkCheckpoints g)) g)))
  ∧ (SyncGateway.networkCheckpoints g !! chainId = None →
     SyncGateway.handleNewFinalityCheckpoint chainId timestamp g = None)
  ∧ (∀ c g', SyncGateway.handle c g = Some g' →
       num_leb (SyncGateway.finalityCheckpoint g) (SyncGateway.finalityCheckpoint g') = true)
  ∧ (∀ c g', SyncGateway.handle c g = Some g' →
       (∀ chain ts, c ≠ SyncGateway.HandleNewFinalityCheckpoint chain ts) →
       SyncGateway.finalityCheckpoint g' = SyncGateway.finalityCheckpoint g)
  ∧ (∀ calls, num_leb (SyncGateway.finalityCheckpoint g)
                      (SyncGateway.finalityCheckpoint (SyncGateway.run calls g)) = true).
Proof.
  split_and!.
  - cbv zeta. split_and!.
    + intros chain n Hn. apply Math_min_lower_bound, list_elem_of_fmap. exists n.
      split; [done|]. apply elem_of_Object_values. eauto.
    + destruct (Math_min_attained (SyncGateway.n_finalityCheckpoint
                  <$> Object_values (SyncGateway.networkCheckpoints g)))
        as [[Hnil Hm]|(x & Hx & Hm)].
      * left. split; [done|]. by apply fmap_nil_inv, Object_values_empty in Hnil.
      * right. apply list_elem_of_fmap in Hx as (n & -> & Hn).
        apply elem_of_Object_values in Hn as [chain Hn]. eauto.
    + unfold SyncGateway.recalculateFinalityCheckpoint. by destruct (num_ltb _ _).
    + unfold SyncGateway.recalculateFinalityCheckpoint.
      destruct (num_ltb _ _); simpl; by rewrite ?app_nil_r.
  - intros n Hn. unfold SyncGateway.handleNewFinalityCheckpoint. by rewrite Hn.
  - intros Hn. unfold SyncGateway.handleNewFinalityCheckpoint. by rewrite Hn.
  - intros c g'. apply handle_finality_monotone.
  - intros c g' Hhandle Hc.
    destruct c as [chain ts|chain|chain ts|chain ts|ts]; simpl in Hhandle;
      unfold SyncGateway.handleNewHistoricalCheckpoint,
        SyncGateway.handleHistoricalSyncComplete, SyncGateway.handleNewRealtimeCheckpoint,
        SyncGateway.handleReorg in Hhandle.
    + destruct (SyncGateway.networkCheckpoints g !! chain); [|done].
      injection Hhandle as <-. by rewrite recalculateCheckpoint_finalityCheckpoint.
    + destruct (SyncGateway.networkCheckpoints g !! chain); [|done].
      destruct (forallb _ _); injection Hhandle as <-; cbn [SyncGateway.finalityCheckpoint];
        by rewrite recalculateCheckpoint_finalityCheckpoint.
    + destruct (SyncGateway.networkCheckpoints g !! chain); [|done].
      injection Hhandle as <-. by rewrite recalculateCheckpoint_finalityCheckpoint.
    + by destruct (Hc chain ts).
    + by injection Hhandle as <-.
  - intros calls. apply run_finality_monotone.
Qed.
